(** * vikebot-go: the client session engine

    A shallow embedding of the Go package [vikebot] (game.go, packet.go,
    player.go): wire framing, the AEAD layer, the packet counter and the
    request/response correlator, together with the handshake driven by
    [Join] and the per-command wrappers of [Player].

    Conventions.
    - A Go [[]byte] and a Go [string] are both byte sequences and share the
      type [bytes].
    - [uint32] is a [Z] kept in range by [wrap32]; [g.pc++] is written
      [wrap32 (pc + 1)].
    - A Go function returning [(T, error)] returns a [result T]; a run-time
      panic (nil dereference, slice bounds) is the third outcome [Panic].
    - The standard library (encoding/base64, encoding/json, bufio, fmt) is
      modelled by executable definitions; [cipher.AEAD] is an interface and
      is kept as a record of operations with the one law the code relies on. *)

From Stdlib Require Import String Ascii.
From Stdlib Require Import List ZArith NArith Lia Bool Wf_nat.
From Stdlib Require Import Decimal DecimalString DecimalZ DecimalN.
From Stdlib Require DecimalPos DecimalFacts.
Import ListNotations.

Local Open Scope Z_scope.
Local Open Scope list_scope.

(** ** Byte sequences *)

Definition byte := ascii.
Bind Scope char_scope with byte.
Definition bytes := list byte.

Definition B (s : string) : bytes := list_ascii_of_string s.

Definition byte_val (b : byte) : Z := Z.of_N (N_of_ascii b).
Definition byte_of (z : Z) : byte := ascii_of_N (Z.to_N (z mod 256)).

Definition byte_eqb : byte -> byte -> bool := Ascii.eqb.

Fixpoint bytes_eqb (x y : bytes) : bool :=
  match x, y with
  | [], [] => true
  | a :: x', b :: y' => byte_eqb a b && bytes_eqb x' y'
  | _, _ => false
  end.

Definition LF : byte := ascii_of_nat 10.
Definition CR : byte := ascii_of_nat 13.
Definition TAB : byte := ascii_of_nat 9.
Definition DQ : byte := ascii_of_nat 34.
Definition BSL : byte := ascii_of_nat 92.
Definition NUL : byte := ascii_of_nat 0.

(** ** encoding/base64, [RawStdEncoding] *)

Module Base64.

Definition encodeStd : bytes :=
  B "ABCDEFGHIJKLMNOPQRSTUVWXYZabcdefghijklmnopqrstuvwxyz0123456789+/".

(** [enc.encode[v]] *)
Definition encode_char (v : Z) : byte := nth (Z.to_nat v) encodeStd NUL.

Fixpoint index_of (c : byte) (l : bytes) (i : Z) : option Z :=
  match l with
  | [] => None
  | x :: l' => if byte_eqb c x then Some i else index_of c l' (i + 1)
  end.

(** [enc.decodeMap[c]], [None] for the 0xff entries *)
Definition decode_char (c : byte) : option Z := index_of c encodeStd 0.

(** [EncodedLen] without padding *)
Definition EncodedLen (n : Z) : Z := (n * 8 + 5) / 6.

(** [DecodedLen] without padding *)
Definition DecodedLen (n : Z) : Z := n * 6 / 8.

Definition quantum (a b c : byte) : Z :=
  Z.lor (Z.lor (Z.shiftl (byte_val a) 16) (Z.shiftl (byte_val b) 8))
        (byte_val c).

(** [val>>k&0x3F] *)
Definition sv (val k : Z) : Z := Z.land (Z.shiftr val k) 63.

Definition sextet (val : Z) (k : Z) : byte := encode_char (sv val k).

Fixpoint Encode (src : bytes) : bytes :=
  match src with
  | [] => []
  | [a] =>
      let val := Z.shiftl (byte_val a) 16 in
      [sextet val 18; sextet val 12]
  | [a; b] =>
      let val := Z.lor (Z.shiftl (byte_val a) 16) (Z.shiftl (byte_val b) 8) in
      [sextet val 18; sextet val 12; sextet val 6]
  | a :: b :: c :: rest =>
      let val := quantum a b c in
      sextet val 18 :: sextet val 12 :: sextet val 6 :: sextet val 0
        :: Encode rest
  end.

(** The decoder skips CR and LF wherever they occur and rejects every
    other byte outside the alphabet. *)
Fixpoint sextets (src : bytes) : option (list Z) :=
  match src with
  | [] => Some []
  | c :: src' =>
      match decode_char c with
      | Some v =>
          match sextets src' with
          | Some vs => Some (v :: vs)
          | None => None
          end
      | None =>
          if byte_eqb c LF || byte_eqb c CR then sextets src' else None
      end
  end.

Definition assemble (a b c d : Z) : Z :=
  Z.lor (Z.lor (Z.lor (Z.shiftl a 18) (Z.shiftl b 12)) (Z.shiftl c 6)) d.

(** A final quantum of one character is corrupt; of two or three it gives
    one or two bytes (no padding, trailing bits not checked). *)
Fixpoint decode_quanta (vs : list Z) : option bytes :=
  match vs with
  | [] => Some []
  | [_] => None
  | [a; b] =>
      let val := assemble a b 0 0 in
      Some [byte_of (Z.shiftr val 16)]
  | [a; b; c] =>
      let val := assemble a b c 0 in
      Some [byte_of (Z.shiftr val 16); byte_of (Z.shiftr val 8)]
  | a :: b :: c :: d :: rest =>
      let val := assemble a b c d in
      match decode_quanta rest with
      | Some out =>
          Some (byte_of (Z.shiftr val 16) :: byte_of (Z.shiftr val 8)
                  :: byte_of val :: out)
      | None => None
      end
  end.

(** [Decode]: the bytes written to the destination, or [None] for a
    [CorruptInputError]. *)
Definition Decode (src : bytes) : option bytes :=
  match sextets src with
  | Some vs => decode_quanta vs
  | None => None
  end.

End Base64.

(** ** encoding/json: the scanner and [unquote] *)

Module Json.

#[local] Unset Elimination Schemes.
Inductive value : Type :=
| Null
| Bool (b : bool)
| Number (lit : bytes)
| Str (s : bytes)
| Array (l : list value)
| Object (m : list (bytes * value)).
#[local] Set Elimination Schemes.

Definition is_space (c : byte) : bool :=
  byte_eqb c " " || byte_eqb c TAB || byte_eqb c CR || byte_eqb c LF.

Fixpoint skip_ws (s : bytes) : bytes :=
  match s with
  | c :: r => if is_space c then skip_ws r else s
  | [] => []
  end.

Definition all_space (s : bytes) : bool := forallb is_space s.

Definition in_range (lo hi : Z) (c : byte) : bool :=
  (lo <=? byte_val c) && (byte_val c <=? hi).

Definition is_digit (c : byte) : bool := in_range 48 57 c.

Definition hex_val (c : byte) : option Z :=
  if in_range 48 57 c then Some (byte_val c - 48)
  else if in_range 97 102 c then Some (byte_val c - 97 + 10)
  else if in_range 65 70 c then Some (byte_val c - 65 + 10)
  else None.

(** [getu4] once the backslash and the u are consumed *)
Definition hex4 (a b c d : byte) : option Z :=
  match hex_val a, hex_val b, hex_val c, hex_val d with
  | Some x, Some y, Some z, Some w => Some (((x * 16 + y) * 16 + z) * 16 + w)
  | _, _, _, _ => None
  end.

(** [utf8.EncodeRune] for a rune that is a valid scalar value *)
Definition encode_rune (r : Z) : bytes :=
  if r <? 128 then [byte_of r]
  else if r <? 2048 then
    [byte_of (192 + r / 64); byte_of (128 + r mod 64)]
  else if r <? 65536 then
    [byte_of (224 + r / 4096); byte_of (128 + (r / 64) mod 64);
     byte_of (128 + r mod 64)]
  else
    [byte_of (240 + r / 262144); byte_of (128 + (r / 4096) mod 64);
     byte_of (128 + (r / 64) mod 64); byte_of (128 + r mod 64)].

(** U+FFFD, what [unquote] writes for a byte that starts no valid rune
    and for an unpaired surrogate escape *)
Definition replacement : bytes := encode_rune 65533.

Definition is_cont (c : byte) : bool := in_range 128 191 c.

(** [utf8.DecodeRune] on a lead byte [c] of 0x80 or more followed by [r]:
    the number of continuation bytes of a well-formed rune, [None] for
    the error rune of width one. *)
Definition rune_tail (c : byte) (r : bytes) : option nat :=
  let v := byte_val c in
  match r with
  | b1 :: r1 =>
      if in_range 194 223 c then
        if is_cont b1 then Some 1%nat else None
      else
        match r1 with
        | b2 :: r2 =>
            if in_range 224 239 c then
              let lo := if v =? 224 then 160 else 128 in
              let hi := if v =? 237 then 159 else 191 in
              if in_range lo hi b1 && is_cont b2 then Some 2%nat else None
            else
              match r2 with
              | b3 :: _ =>
                  if in_range 240 244 c then
                    let lo := if v =? 240 then 144 else 128 in
                    let hi := if v =? 244 then 143 else 191 in
                    if in_range lo hi b1 && is_cont b2 && is_cont b3
                    then Some 3%nat else None
                  else None
              | [] => None
              end
        | [] => None
        end
  | [] => None
  end.

Definition cons_out (c : byte) (k : option (bytes * bytes))
  : option (bytes * bytes) :=
  match k with
  | Some (out, rest) => Some (c :: out, rest)
  | None => None
  end.

Definition app_out (p : bytes) (k : option (bytes * bytes))
  : option (bytes * bytes) :=
  match k with
  | Some (out, rest) => Some (p ++ out, rest)
  | None => None
  end.

Definition simple_escape (e : byte) : option byte :=
  if byte_eqb e DQ then Some DQ
  else if byte_eqb e BSL then Some BSL
  else if byte_eqb e "/" then Some "/"%char
  else if byte_eqb e "b" then Some (ascii_of_nat 8)
  else if byte_eqb e "f" then Some (ascii_of_nat 12)
  else if byte_eqb e "n" then Some LF
  else if byte_eqb e "r" then Some CR
  else if byte_eqb e "t" then Some TAB
  else None.

(** A string literal after its opening quote: the unquoted bytes and the
    input after the closing quote.  [copy] counts the continuation bytes
    of a rune still to be copied. *)
Fixpoint unquote (copy : nat) (s : bytes) : option (bytes * bytes) :=
  match s with
  | [] => None
  | c :: r =>
      match copy with
      | S k => cons_out c (unquote k r)
      | O =>
          if byte_eqb c DQ then Some ([], r)
          else if byte_eqb c BSL then
            match r with
            | [] => None
            | e :: r0 =>
                match simple_escape e with
                | Some x => cons_out x (unquote 0 r0)
                | None =>
                    if byte_eqb e "u" then
                      match r0 with
                      | h1 :: h2 :: h3 :: h4 :: r4 =>
                          match hex4 h1 h2 h3 h4 with
                          | None => None
                          | Some rr =>
                              if (55296 <=? rr) && (rr <? 57344) then
                                match r4 with
                                | b :: u :: k1 :: k2 :: k3 :: k4 :: r10 =>
                                    match
                                      (if byte_eqb b BSL && byte_eqb u "u"
                                       then hex4 k1 k2 k3 k4 else None)
                                    with
                                    | Some rr1 =>
                                        if (rr <? 56320) && (56320 <=? rr1)
                                           && (rr1 <? 57344)
                                        then
                                          app_out
                                            (encode_rune
                                               ((rr - 55296) * 1024
                                                + (rr1 - 56320) + 65536))
                                            (unquote 0 r10)
                                        else app_out replacement (unquote 0 r4)
                                    | None =>
                                        app_out replacement (unquote 0 r4)
                                    end
                                | _ => app_out replacement (unquote 0 r4)
                                end
                              else app_out (encode_rune rr) (unquote 0 r4)
                          end
                      | _ => None
                      end
                    else None
                end
            end
          else if byte_val c <? 32 then None
          else if byte_val c <? 128 then cons_out c (unquote 0 r)
          else
            match rune_tail c r with
            | Some n => cons_out c (unquote n r)
            | None => app_out replacement (unquote 0 r)
            end
      end
  end.

Fixpoint span_digits (s : bytes) : bytes * bytes :=
  match s with
  | c :: r =>
      if is_digit c then let (d, rest) := span_digits r in (c :: d, rest)
      else ([], s)
  | [] => ([], [])
  end.

(** The integer part: a single 0, or a nonzero digit and the digits
    after it. *)
Definition scan_int (s : bytes) : option (bytes * bytes) :=
  match s with
  | c :: r =>
      if byte_eqb c "0" then Some ([c], r)
      else if in_range 49 57 c then
        let (d, rest) := span_digits r in Some (c :: d, rest)
      else None
  | [] => None
  end.

Definition scan_frac (s : bytes) : option (bytes * bytes) :=
  match s with
  | c :: r =>
      if byte_eqb c "." then
        match span_digits r with
        | ([], _) => None
        | (d, rest) => Some (c :: d, rest)
        end
      else Some ([], s)
  | [] => Some ([], [])
  end.

Definition scan_exp (s : bytes) : option (bytes * bytes) :=
  match s with
  | c :: r =>
      if byte_eqb c "e" || byte_eqb c "E" then
        let (sign, r') :=
          match r with
          | x :: r1 =>
              if byte_eqb x "+" || byte_eqb x "-" then ([x], r1) else ([], r)
          | [] => ([], r)
          end in
        match span_digits r' with
        | ([], _) => None
        | (d, rest) => Some (c :: sign ++ d, rest)
        end
      else Some ([], s)
  | [] => Some ([], [])
  end.

(** A number literal and the input after it *)
Definition scan_number (s : bytes) : option (bytes * bytes) :=
  let (sign, s0) :=
    match s with
    | c :: r => if byte_eqb c "-" then ([c], r) else ([], s)
    | [] => ([], s)
    end in
  match scan_int s0 with
  | None => None
  | Some (i, s1) =>
      match scan_frac s1 with
      | None => None
      | Some (f, s2) =>
          match scan_exp s2 with
          | None => None
          | Some (e, s3) => Some (sign ++ i ++ f ++ e, s3)
          end
      end
  end.

Fixpoint strip_prefix (p s : bytes) : option bytes :=
  match p, s with
  | [], _ => Some s
  | a :: p', b :: s' => if byte_eqb a b then strip_prefix p' s' else None
  | _ :: _, [] => None
  end.

Definition maxNestingDepth : Z := 10000.

(** One value, with the input that follows it.  [depth] is the number of
    arrays and objects open around the value. *)
Fixpoint parse_value (fuel : nat) (depth : Z) (s : bytes)
  : option (value * bytes) :=
  match fuel with
  | O => None
  | S f =>
      match skip_ws s with
      | [] => None
      | c :: r =>
          if byte_eqb c "{" then
            if maxNestingDepth <? depth + 1 then None
            else
              match skip_ws r with
              | [] => None
              | c' :: r' =>
                  if byte_eqb c' "}" then Some (Object [], r')
                  else
                    match parse_members f (depth + 1) (c' :: r') with
                    | Some (m, rest) => Some (Object m, rest)
                    | None => None
                    end
              end
          else if byte_eqb c "[" then
            if maxNestingDepth <? depth + 1 then None
            else
              match skip_ws r with
              | [] => None
              | c' :: r' =>
                  if byte_eqb c' "]" then Some (Array [], r')
                  else
                    match parse_elements f (depth + 1) (c' :: r') with
                    | Some (l, rest) => Some (Array l, rest)
                    | None => None
                    end
              end
          else if byte_eqb c DQ then
            match unquote 0 r with
            | Some (str, rest) => Some (Str str, rest)
            | None => None
            end
          else if byte_eqb c "-" || is_digit c then
            match scan_number (c :: r) with
            | Some (lit, rest) => Some (Number lit, rest)
            | None => None
            end
          else
            match strip_prefix (B "true") (c :: r) with
            | Some rest => Some (Bool true, rest)
            | None =>
                match strip_prefix (B "false") (c :: r) with
                | Some rest => Some (Bool false, rest)
                | None =>
                    match strip_prefix (B "null") (c :: r) with
                    | Some rest => Some (Null, rest)
                    | None => None
                    end
                end
            end
      end
  end

with parse_members (fuel : nat) (depth : Z) (s : bytes)
  : option (list (bytes * value) * bytes) :=
  match fuel with
  | O => None
  | S f =>
      match skip_ws s with
      | [] => None
      | c :: r =>
          if byte_eqb c DQ then
            match unquote 0 r with
            | None => None
            | Some (key, r1) =>
                match skip_ws r1 with
                | [] => None
                | c1 :: r2 =>
                    if byte_eqb c1 ":" then
                      match parse_value f depth r2 with
                      | None => None
                      | Some (v, r3) =>
                          match skip_ws r3 with
                          | [] => None
                          | c3 :: r4 =>
                              if byte_eqb c3 "," then
                                match parse_members f depth r4 with
                                | Some (m, rest) => Some ((key, v) :: m, rest)
                                | None => None
                                end
                              else if byte_eqb c3 "}" then
                                Some ([(key, v)], r4)
                              else None
                          end
                      end
                    else None
                end
            end
          else None
      end
  end

with parse_elements (fuel : nat) (depth : Z) (s : bytes)
  : option (list value * bytes) :=
  match fuel with
  | O => None
  | S f =>
      match parse_value f depth s with
      | None => None
      | Some (v, r1) =>
          match skip_ws r1 with
          | [] => None
          | c :: r2 =>
              if byte_eqb c "," then
                match parse_elements f depth r2 with
                | Some (l, rest) => Some (v :: l, rest)
                | None => None
                end
              else if byte_eqb c "]" then Some ([v], r2)
              else None
          end
      end
  end.

(** Two nested calls never start at the same byte more than twice, so
    twice the length of the input is fuel enough ([parse_fuel_adequate]
    below). *)
Definition fuel_for (s : bytes) : nat := S (2 * length s).

(** [checkValid] followed by decoding: the whole text is one value
    between white space. *)
Definition parse (s : bytes) : option value :=
  match parse_value (fuel_for s) 0 s with
  | Some (v, rest) => if all_space rest then Some v else None
  | None => None
  end.

(** [Decoder.Decode]: the first value of a stream *)
Definition parse_first (s : bytes) : option value :=
  match parse_value (fuel_for s) 0 s with
  | Some (v, _) => Some v
  | None => None
  end.

End Json.

(** ** strconv and fmt *)

Definition wrap32 (z : Z) : Z := z mod 4294967296.

(** [strconv.FormatUint(n, 10)], also [%d] on an unsigned operand *)
Definition FormatUint (n : Z) : bytes :=
  B (NilZero.string_of_uint (N.to_uint (Z.to_N n))).

(** [%d] on a signed operand *)
Definition FormatInt (z : Z) : bytes :=
  B (NilZero.string_of_int (Z.to_int z)).

(** [strconv.ParseUint(s, 10, 64)] on the digits of a JSON number *)
Definition ParseUint (s : bytes) : option Z :=
  match NilZero.uint_of_string (string_of_list_ascii s) with
  | Some d =>
      let n := Z.of_N (N.of_uint d) in
      if n <? 2 ^ 64 then Some n else None
  | None => None
  end.

(** [strconv.ParseInt(s, 10, 64)] *)
Definition ParseInt (s : bytes) : option Z :=
  match NilZero.int_of_string (string_of_list_ascii s) with
  | Some d =>
      let z := Z.of_int d in
      if (- 2 ^ 63 <=? z) && (z <? 2 ^ 63) then Some z else None
  | None => None
  end.

(** [binary.BigEndian.Uint64] *)
Definition BigEndian_Uint64 (b : bytes) : Z :=
  fold_left (fun acc x => Z.lor (Z.shiftl acc 8) (byte_val x)) (firstn 8 b) 0.

Inductive arg : Type :=
| D (z : Z)        (* an integer operand for [%d] *)
| S_ (s : bytes).  (* a string operand for [%s] *)

Definition verb (v : byte) (a : arg) : bytes :=
  match a with
  | D z => if byte_eqb v "d" then FormatInt z else []
  | S_ s => if byte_eqb v "s" then s else []
  end.

(** [fmt.Sprintf] for the formats of this package: the verbs [%d] and [%s],
    each applied to an operand of its kind. *)
Fixpoint Sprintf (format : bytes) (args : list arg) : bytes :=
  match format with
  | [] => []
  | c :: r =>
      if byte_eqb c "%" then
        match r, args with
        | v :: r', a :: args' => verb v a ++ Sprintf r' args'
        | _, _ => []
        end
      else c :: Sprintf r args
  end.

(** A Go raw string literal.  The apostrophe stands for the double quote,
    which no literal of the package contains otherwise. *)
Definition raw (s : string) : bytes :=
  map (fun c => if byte_eqb c "'" then DQ else c) (B s).

(** ** encoding/json: [Unmarshal] into the structs of the package *)

Module Unmarshal.
Import Json.

Definition to_upper (c : byte) : byte :=
  if in_range 97 122 c then byte_of (byte_val c - 32) else c.

(** Folding of names: ASCII letters by case, and the two runes outside
    ASCII that fold to an ASCII letter, U+212A to K and U+017F to S. *)
Fixpoint fold_name (k : bytes) : bytes :=
  match k with
  | [] => []
  | c :: r =>
      match r with
      | c1 :: r1 =>
          if (byte_val c =? 197) && (byte_val c1 =? 191)
          then "S"%char :: fold_name r1
          else
            match r1 with
            | c2 :: r2 =>
                if (byte_val c =? 226) && (byte_val c1 =? 132)
                   && (byte_val c2 =? 170)
                then "K"%char :: fold_name r2
                else to_upper c :: fold_name r
            | [] => to_upper c :: fold_name r
            end
      | [] => [to_upper c]
      end
  end.

(** A key selects the field of that name, exactly or up to folding. *)
Definition key_is (name : string) (key : bytes) : bool :=
  bytes_eqb (fold_name (B name)) (fold_name key).

(** Storing a value into a field of each kind.  [None] is an
    [UnmarshalTypeError]; null leaves a non-pointer field as it was. *)
Definition into_string (v : value) (old : bytes) : option bytes :=
  match v with
  | Str s => Some s
  | Null => Some old
  | _ => None
  end.

Definition into_string_ptr (v : value) : option (option bytes) :=
  match v with
  | Str s => Some (Some s)
  | Null => Some None
  | _ => None
  end.

Definition uint32_of (lit : bytes) : option Z :=
  match ParseUint lit with
  | Some n => if n <=? 4294967295 then Some n else None
  | None => None
  end.

Definition into_uint32_ptr (v : value) : option (option Z) :=
  match v with
  | Number lit =>
      match uint32_of lit with
      | Some n => Some (Some n)
      | None => None
      end
  | Null => Some None
  | _ => None
  end.

Definition into_int (v : value) (old : Z) : option Z :=
  match v with
  | Number lit => ParseInt lit
  | Null => Some old
  | _ => None
  end.

Definition into_int_ptr (v : value) : option (option Z) :=
  match v with
  | Number lit =>
      match ParseInt lit with
      | Some n => Some (Some n)
      | None => None
      end
  | Null => Some None
  | _ => None
  end.

(** The members of an object, stored in order into [acc]; a later
    duplicate of a key stores again. *)
Fixpoint fill {T : Type} (field : T -> bytes -> value -> option T)
  (m : list (bytes * value)) (acc : T) : option T :=
  match m with
  | [] => Some acc
  | (k, v) :: m' =>
      match field acc k v with
      | Some acc' => fill field m' acc'
      | None => None
      end
  end.

Definition into_struct {T : Type} (field : T -> bytes -> value -> option T)
  (v : value) (old : T) : option T :=
  match v with
  | Object m => fill field m old
  | Null => Some old
  | _ => None
  end.

Definition into_struct_ptr {T : Type} (zero : T)
  (field : T -> bytes -> value -> option T)
  (v : value) (old : option T) : option (option T) :=
  match v with
  | Object m =>
      match fill field m (match old with Some t => t | None => zero end) with
      | Some t => Some (Some t)
      | None => None
      end
  | Null => Some None
  | _ => None
  end.

(** The elements of an array, each stored into the element the slice
    already has at its place, or into a zero element. *)
Fixpoint into_elems {T : Type} (elem : value -> T -> option T) (zero : T)
  (vs : list value) (old : list T) : option (list T) :=
  match vs with
  | [] => Some []
  | v :: vs' =>
      let (o, old') :=
        match old with
        | x :: r => (x, r)
        | [] => (zero, [])
        end in
      match elem v o with
      | Some x =>
          match into_elems elem zero vs' old' with
          | Some l => Some (x :: l)
          | None => None
          end
      | None => None
      end
  end.

Definition into_slice {T : Type} (elem : value -> T -> option T) (zero : T)
  (v : value) (old : list T) : option (list T) :=
  match v with
  | Array vs => into_elems elem zero vs old
  | Null => Some []
  | _ => None
  end.

Definition into_slice_ptr {T : Type} (elem : value -> T -> option T)
  (zero : T) (v : value) (old : option (list T))
  : option (option (list T)) :=
  match v with
  | Array vs =>
      match into_elems elem zero vs
              (match old with Some l => l | None => [] end) with
      | Some l => Some (Some l)
      | None => None
      end
  | Null => Some None
  | _ => None
  end.

(** [json.Unmarshal(buf, &x)] for a struct [x] holding its zero value *)
Definition Unmarshal {T : Type} (zero : T)
  (field : T -> bytes -> value -> option T) (buf : bytes) : option T :=
  match parse buf with
  | Some v => into_struct field v zero
  | None => None
  end.

(** [json.NewDecoder(r).Decode(&x)] *)
Definition Decode {T : Type} (zero : T)
  (field : T -> bytes -> value -> option T) (body : bytes) : option T :=
  match parse_first body with
  | Some v => into_struct field v zero
  | None => None
  end.

End Unmarshal.

(** ** packet.go and the response structs of player.go *)

Import Unmarshal.

Record typePacket := { tp_Type : bytes }.

Definition typePacket_field (t : typePacket) (k : bytes) (v : Json.value)
  : option typePacket :=
  if key_is "type" k then
    option_map (fun s => {| tp_Type := s |}) (into_string v (tp_Type t))
  else Some t.

Record response := {
  resp_Type : bytes;
  resp_Pc : option Z;
  resp_Error : option bytes
}.

Definition response_zero : response :=
  {| resp_Type := []; resp_Pc := None; resp_Error := None |}.

Definition response_field (t : response) (k : bytes) (v : Json.value)
  : option response :=
  if key_is "type" k then
    option_map
      (fun s => {| resp_Type := s; resp_Pc := resp_Pc t;
                   resp_Error := resp_Error t |})
      (into_string v (resp_Type t))
  else if key_is "pc" k then
    option_map
      (fun p => {| resp_Type := resp_Type t; resp_Pc := p;
                   resp_Error := resp_Error t |})
      (into_uint32_ptr v)
  else if key_is "error" k then
    option_map
      (fun e => {| resp_Type := resp_Type t; resp_Pc := resp_Pc t;
                   resp_Error := e |})
      (into_string_ptr v)
  else Some t.

Record serverhelloObj := { Cipher : option bytes }.

Definition serverhelloObj_field (t : serverhelloObj) (k : bytes)
  (v : Json.value) : option serverhelloObj :=
  if key_is "cipher" k then
    option_map (fun c => {| Cipher := c |}) (into_string_ptr v)
  else Some t.

Record serverhelloPacket := { sh_Type : bytes; sh_Obj : serverhelloObj }.

Definition serverhelloPacket_zero : serverhelloPacket :=
  {| sh_Type := []; sh_Obj := {| Cipher := None |} |}.

Definition serverhelloPacket_field (t : serverhelloPacket) (k : bytes)
  (v : Json.value) : option serverhelloPacket :=
  if key_is "type" k then
    option_map (fun s => {| sh_Type := s; sh_Obj := sh_Obj t |})
      (into_string v (sh_Type t))
  else if key_is "obj" k then
    option_map (fun o => {| sh_Type := sh_Type t; sh_Obj := o |})
      (into_struct serverhelloObj_field v (sh_Obj t))
  else Some t.

Record errorResp := { er_Error : option bytes }.

Definition errorResp_field (t : errorResp) (k : bytes) (v : Json.value)
  : option errorResp :=
  if key_is "error" k then
    option_map (fun e => {| er_Error := e |}) (into_string_ptr v)
  else Some t.

(** The anonymous struct behind [Obj] in attackResp, radarResp, scoutResp
    and healthResp: one [*int] under the key [name]. *)
Definition intObj_field (name : string) (t : option Z) (k : bytes)
  (v : Json.value) : option (option Z) :=
  if key_is name k then into_int_ptr v else Some t.

(** attackResp, radarResp and scoutResp: [Obj] and [Error].  [obj_Int] is
    [None] for a nil [Obj], [Some None] for an [Obj] whose field is nil. *)
Record intResp := { obj_Int : option (option Z); ir_Error : option bytes }.

Definition intResp_zero : intResp := {| obj_Int := None; ir_Error := None |}.

Definition intResp_field (name : string) (t : intResp) (k : bytes)
  (v : Json.value) : option intResp :=
  if key_is "obj" k then
    option_map (fun o => {| obj_Int := o; ir_Error := ir_Error t |})
      (into_struct_ptr None (intObj_field name) v (obj_Int t))
  else if key_is "error" k then
    option_map (fun e => {| obj_Int := obj_Int t; ir_Error := e |})
      (into_string_ptr v)
  else Some t.

Definition attackResp_field := intResp_field "health".
Definition radarResp_field := intResp_field "counter".
Definition scoutResp_field := intResp_field "counter".

Definition matrix := list (list Z).

Definition matrixObj_field (t : option matrix) (k : bytes) (v : Json.value)
  : option (option matrix) :=
  if key_is "health_matrix" k then
    into_slice_ptr (into_slice into_int 0) [] v t
  else Some t.

Record watchResp := {
  wr_Obj : option (option matrix);
  wr_Error : option bytes
}.

Definition watchResp_zero : watchResp :=
  {| wr_Obj := None; wr_Error := None |}.

Definition watchResp_field (t : watchResp) (k : bytes) (v : Json.value)
  : option watchResp :=
  if key_is "obj" k then
    option_map (fun o => {| wr_Obj := o; wr_Error := wr_Error t |})
      (into_struct_ptr None matrixObj_field v (wr_Obj t))
  else if key_is "error" k then
    option_map (fun e => {| wr_Obj := wr_Obj t; wr_Error := e |})
      (into_string_ptr v)
  else Some t.

(** healthResp has [Obj] only: it declares no [Error] field. *)
Record healthResp := { hr_Obj : option (option Z) }.

Definition healthResp_field (t : healthResp) (k : bytes) (v : Json.value)
  : option healthResp :=
  if key_is "obj" k then
    option_map (fun o => {| hr_Obj := o |})
      (into_struct_ptr None (intObj_field "value") v (hr_Obj t))
  else Some t.

Definition loginPacket (roundticket : bytes) : bytes :=
  Sprintf (raw "{'type':'login','obj':{'roundticket':'%s'}}") [S_ roundticket].

Definition clienthelloPacket (cipher : bytes) : bytes :=
  Sprintf (raw "{'type':'clienthello','obj':{'cipher':'%s'}}") [S_ cipher].

(** ** Errors, panics and results *)

(** Errors that come out of the standard library; their texts are not
    produced by this package. *)
Inductive lib_error : Type :=
| EOF            (* io.EOF, io.ErrUnexpectedEOF *)
| CorruptInput   (* base64.CorruptInputError *)
| OpenFailed     (* cipher: message authentication failed *)
| JsonError      (* a json syntax or type error *)
| NetError       (* net: Dial, Write, Close; http: Get *)
| KeyError.      (* aes.NewCipher, cipher.NewGCM *)

Inductive error : Type :=
| LibErr (e : lib_error)
| New (msg : bytes)                      (* errors.New(msg) *)
| Errorf (prefix : bytes) (e : error).   (* fmt.Errorf(prefix+"%s", e.Error()) *)

Inductive panic : Type :=
| NilDeref       (* invalid memory address or nil pointer dereference *)
| SliceBounds.   (* slice bounds out of range *)

Inductive result (A : Type) : Type :=
| Ok (a : A)
| Err (e : error)
| Panic (p : panic).

Arguments Ok {A} a.
Arguments Err {A} e.
Arguments Panic {A} p.

(** The error at the root of a chain of [fmt.Errorf] wrappings *)
Fixpoint cause (e : error) : error :=
  match e with
  | Errorf _ e' => cause e'
  | _ => e
  end.

(** ** cipher.AEAD *)

(** The interface as the package uses it: [Seal(nil, nonce, plain, nil)]
    and [Open(nil, nonce, ciphertext, nil)]. *)
Record AEAD := {
  NonceSize : nat;
  Seal : bytes -> bytes -> bytes;
  Open : bytes -> bytes -> option bytes
}.

(** The law of an AEAD: what was sealed under a nonce opens under it. *)
Definition AEAD_sound (a : AEAD) : Prop :=
  forall nonce plain,
    length nonce = NonceSize a -> Open a nonce (Seal a nonce plain) = Some plain.

(** ** The Game and what is outside it *)

Inductive Conn := TheConn.
Inductive Reader := TheReader.
Inductive Player_ := ThePlayer.  (* [&Player{g: g}] *)

Record Game := {
  conn : option Conn;
  buf : option Reader;
  gcm : option AEAD;
  pc : Z;
  Encrypted : bool;
  Player : option Player_
}.

(** The connection and the random source. *)
Record World := {
  net_in : bytes;           (* sent by the server, not read yet *)
  net_out : list bytes;     (* the buffers given to Write, oldest first *)
  net_fail : list bool;     (* the coming Writes: true fails; none left succeeds *)
  net_closed : bool;
  rand : bytes              (* what crypto/rand will deliver *)
}.

(** A method on [*Game]: it runs on the Game and the world and leaves
    both behind, whatever its outcome.  What a Go function has assigned
    before it returns an error stays assigned, so the state of a run is
    kept on [Err] and [Panic] too. *)
Definition M (A : Type) : Type := Game -> World -> result A * Game * World.

Definition ret {A} (a : A) : M A := fun g w => (Ok a, g, w).

Definition fail {A} (e : error) : M A := fun g w => (Err e, g, w).

Definition throw {A} (p : panic) : M A := fun g w => (Panic p, g, w).

Definition bind {A B} (m : M A) (k : A -> M B) : M B :=
  fun g w =>
    match m g w with
    | (Ok a, g', w') => k a g' w'
    | (Err e, g', w') => (Err e, g', w')
    | (Panic p, g', w') => (Panic p, g', w')
    end.

(** [if err != nil { return ..., f(err) }] *)
Definition on_err {A} (f : error -> error) (m : M A) : M A :=
  fun g w =>
    match m g w with
    | (Err e, g', w') => (Err (f e), g', w')
    | r => r
    end.

Definition get : M Game := fun g w => (Ok g, g, w).

Definition modify (f : Game -> Game) : M unit := fun g w => (Ok tt, f g, w).

Notation "x <- m ;; k" := (bind m (fun x => k))
  (at level 61, m at next level, right associativity).
Notation "m ;; k" := (bind m (fun _ => k))
  (at level 61, right associativity).

Definition set_pc (n : Z) (g : Game) : Game :=
  {| conn := conn g; buf := buf g; gcm := gcm g; pc := n;
     Encrypted := Encrypted g; Player := Player g |}.

Definition set_Encrypted (b : bool) (g : Game) : Game :=
  {| conn := conn g; buf := buf g; gcm := gcm g; pc := pc g;
     Encrypted := b; Player := Player g |}.

Definition set_Player (p : option Player_) (g : Game) : Game :=
  {| conn := conn g; buf := buf g; gcm := gcm g; pc := pc g;
     Encrypted := Encrypted g; Player := p |}.

(** [g.pc++] *)
Definition pc_incr : M unit := modify (fun g => set_pc (wrap32 (pc g + 1)) g).

(** *** The transport and the random source *)

Definition with_in (s : bytes) (w : World) : World :=
  {| net_in := s; net_out := net_out w; net_fail := net_fail w;
     net_closed := net_closed w; rand := rand w |}.

Definition with_out (o : list bytes) (fl : list bool) (w : World) : World :=
  {| net_in := net_in w; net_out := o; net_fail := fl;
     net_closed := net_closed w; rand := rand w |}.

Definition with_closed (w : World) : World :=
  {| net_in := net_in w; net_out := net_out w; net_fail := net_fail w;
     net_closed := true; rand := rand w |}.

Definition with_rand (r : bytes) (w : World) : World :=
  {| net_in := net_in w; net_out := net_out w; net_fail := net_fail w;
     net_closed := net_closed w; rand := r |}.

(** [Write(buf)] on the connection [g.conn] points to *)
Definition conn_Write (b : bytes) : M unit :=
  fun g w =>
    match conn g with
    | None => (Panic NilDeref, g, w)
    | Some _ =>
        if net_closed w then (Err (LibErr NetError), g, w)
        else
          match net_fail w with
          | true :: fl => (Err (LibErr NetError), g, with_out (net_out w) fl w)
          | fl => (Ok tt, g, with_out (net_out w ++ [b]) (tl fl) w)
          end
    end.

(** The line up to and including the first [delim], and what follows. *)
Fixpoint split_line (delim : byte) (s : bytes) : option (bytes * bytes) :=
  match s with
  | [] => None
  | c :: r =>
      if byte_eqb c delim then Some ([c], r)
      else
        match split_line delim r with
        | Some (l, rest) => Some (c :: l, rest)
        | None => None
        end
  end.

(** [g.buf.ReadBytes(delim)]: with no delimiter left in the stream the
    read ends in an error once the stream is used up. *)
Definition ReadBytes (delim : byte) : M bytes :=
  fun g w =>
    match buf g with
    | None => (Panic NilDeref, g, w)
    | Some _ =>
        match split_line delim (net_in w) with
        | Some (l, rest) => (Ok l, g, with_in rest w)
        | None => (Err (LibErr EOF), g, with_in [] w)
        end
    end.

(** [io.ReadFull(rand.Reader, make([]byte, n))] *)
Definition rand_ReadFull (n : nat) : M bytes :=
  fun g w =>
    if (n <=? length (rand w))%nat then
      (Ok (firstn n (rand w)), g, with_rand (skipn n (rand w)) w)
    else (Err (LibErr EOF), g, with_rand [] w).

(** *** game.go *)

(** [Close]: the fields are cleared, then the saved [conn] is dereferenced
    and closed. *)
Definition Close : M unit :=
  fun g w =>
    let conn0 := conn g in
    let g' := {| conn := None; buf := None; gcm := None; pc := pc g;
                 Encrypted := false; Player := None |} in
    match conn0 with
    | None => (Panic NilDeref, g', w)
    | Some _ =>
        if net_closed w then (Err (LibErr NetError), g', w)
        else (Ok tt, g', with_closed w)
    end.

Definition encrypt (plain : bytes) : M bytes :=
  g <- get ;;
  match gcm g with
  | None => throw NilDeref
  | Some a =>
      nonce <- on_err
                 (Errorf
                    (B "vikebot: unable to create nonce value for encryption, err = "))
                 (rand_ReadFull (NonceSize a)) ;;
      let cipherBuf := Seal a nonce plain in
      ret (nonce ++ cipherBuf)
  end.

Definition encrypt64 (plain : bytes) : M bytes :=
  cipher <- encrypt plain ;;
  ret (Base64.Encode cipher).

Definition encryptStr (plain : bytes) : M bytes :=
  cipherBuf <- encrypt plain ;;
  ret (Base64.Encode cipherBuf).

(** [decrypt] reads [g.gcm] only.  [cipher[0:n]] needs [n] within the
    capacity of [cipher] and [cipher[n:]] needs [n] within its length: on
    a buffer shorter than the nonce one of the two panics. *)
Definition decrypt (g : Game) (cipher : bytes) : result bytes :=
  match gcm g with
  | None => Panic NilDeref
  | Some a =>
      if (length cipher <? NonceSize a)%nat then Panic SliceBounds
      else
        let nonce := firstn (NonceSize a) cipher in
        let ciphertext := skipn (NonceSize a) cipher in
        match Open a nonce ciphertext with
        | Some plain => Ok plain
        | None => Err (LibErr OpenFailed)
        end
  end.

(** [decrypt64]: the buffer has [DecodedLen(len(cipher64))] bytes, the
    decoder writes from its start, and the count it returns is dropped. *)
Definition decrypt64 (g : Game) (cipher64 : bytes) : result bytes :=
  let cipher :=
    repeat NUL (Z.to_nat (Base64.DecodedLen (Z.of_nat (length cipher64)))) in
  match Base64.Decode cipher64 with
  | None => Err (LibErr CorruptInput)
  | Some d => decrypt g (d ++ skipn (length d) cipher)
  end.

(** [decryptStr]: [DecodeString] returns the decoded bytes themselves. *)
Definition decryptStr (g : Game) (cipher : bytes) : result bytes :=
  match Base64.Decode cipher with
  | None => Err (LibErr CorruptInput)
  | Some cipherBuf => decrypt g cipherBuf
  end.

Definition lift {A} (f : Game -> result A) : M A :=
  fun g w => (f g, g, w).

Definition write (b : bytes) : M unit :=
  g <- get ;;
  b1 <- (if Encrypted g then
           on_err (Errorf (B "vikebot: encryption failed - ")) (encrypt64 b)
         else ret b) ;;
  on_err (Errorf (B "vikebot: ")) (conn_Write (b1 ++ [LF])).

Definition read (extractPt : bool) : M (bytes * bytes) :=
  b <- ReadBytes LF ;;
  g <- get ;;
  b1 <- (if Encrypted g then
           on_err (Errorf (B "vikebot: unsecure connection - "))
             (lift (fun g => decrypt64 g (removelast b)))
         else ret b) ;;
  if negb extractPt then ret ([], b1)
  else
    match Unmarshal {| tp_Type := [] |} typePacket_field b1 with
    | None => fail (Errorf (B "vikebot: ") (LibErr JsonError))
    | Some t => ret (tp_Type t, b1)
    end.

Definition trivialActionResp (pt : bytes) (packet : bytes) : M bytes :=
  write packet ;;
  r <- read false ;;
  let b := snd r in
  match Unmarshal response_zero response_field b with
  | None => fail (Errorf (B "vikebot: ") (LibErr JsonError))
  | Some resp =>
      if negb (bytes_eqb (resp_Type resp) pt) then
        match resp_Error resp with
        | Some e =>
            if bytes_eqb (resp_Type resp) (B "unknown")
               || bytes_eqb (resp_Type resp) (B "forbidden")
            then fail (New (B "vikebot: " ++ e))
            else fail (New (B "vikebot: invalid server response. unexpected packet"))
        | None =>
            fail (New (B "vikebot: invalid server response. unexpected packet"))
        end
      else
        g <- get ;;
        if Encrypted g then
          pc_incr ;;
          g' <- get ;;
          match resp_Pc resp with
          | None =>
              fail (New (B "vikebot: invalid server response. missing pc"))
          | Some p =>
              if negb (p =? pc g') then
                fail (New (B "vikebot: invalid server response. pc mismatch"))
              else ret b
          end
        else ret b
  end.

Definition trivialAction (pt : bytes) (packet : bytes) : M unit :=
  trivialActionResp pt packet ;; ret tt.

Definition agreeconnPacket : M bytes :=
  pc_incr ;;
  g <- get ;;
  ret (Sprintf (raw "{'type':'agreeconn','pc':%d,'obj':{}}") [D (pc g)]).

(** *** player.go *)

Definition Rotate (angle : bytes) : M unit :=
  pc_incr ;;
  g <- get ;;
  b <- on_err (Errorf (B "vikebot: "))
         (trivialActionResp (B "rotate")
            (Sprintf (raw "{'type':'rotate','pc':%d,'obj':{'angle':'%s'}}")
               [D (pc g); S_ angle])) ;;
  match Unmarshal {| er_Error := None |} errorResp_field b with
  | None => fail (Errorf (B "vikebot: ") (LibErr JsonError))
  | Some er =>
      match er_Error er with
      | Some e => fail (New (B "vikebot: " ++ e))
      | None => ret tt
      end
  end.

Definition Move (direction : bytes) : M unit :=
  pc_incr ;;
  g <- get ;;
  b <- on_err (Errorf (B "vikebot: "))
         (trivialActionResp (B "move")
            (Sprintf (raw "{'type':'move','pc':%d,'obj':{'direction':'%s'}}")
               [D (pc g); S_ direction])) ;;
  match Unmarshal {| er_Error := None |} errorResp_field b with
  | None => fail (Errorf (B "vikebot: ") (LibErr JsonError))
  | Some er =>
      match er_Error er with
      | Some e => fail (New (B "vikebot: " ++ e))
      | None => ret tt
      end
  end.

(** The tail shared by Attack, Radar and Scout once the response is in *)
Definition int_result (field : intResp -> bytes -> Json.value -> option intResp)
  (invalid : string) (b : bytes) : M Z :=
  match Unmarshal intResp_zero field b with
  | None => fail (Errorf (B "vikebot: ") (LibErr JsonError))
  | Some r =>
      match ir_Error r with
      | Some e => fail (New (B "vikebot: " ++ e))
      | None =>
          match obj_Int r with
          | Some (Some n) => ret n
          | _ => fail (New (B invalid))
          end
      end
  end.

Definition Attack : M Z :=
  pc_incr ;;
  g <- get ;;
  b <- trivialActionResp (B "attack")
         (Sprintf (raw "{'type':'attack','pc':%d,'obj':null}") [D (pc g)]) ;;
  int_result attackResp_field "vikebot: invalid attack-response packet" b.

Definition Radar : M Z :=
  pc_incr ;;
  g <- get ;;
  b <- trivialActionResp (B "radar")
         (Sprintf (raw "{'type':'radar','pc':%d,'obj':null}") [D (pc g)]) ;;
  int_result radarResp_field "vikebot: invalid radar-response packet" b.

Definition Watch : M matrix :=
  pc_incr ;;
  g <- get ;;
  b <- on_err (Errorf (B "vikebot: "))
         (trivialActionResp (B "watch")
            (Sprintf (raw "{'type':'watch','pc':%d,'obj':null}") [D (pc g)])) ;;
  match Unmarshal watchResp_zero watchResp_field b with
  | None => fail (Errorf (B "vikebot: ") (LibErr JsonError))
  | Some wr =>
      match wr_Error wr with
      | Some e => fail (New (B "vikebot: " ++ e))
      | None =>
          match wr_Obj wr with
          | Some (Some hm) => ret hm
          | _ => fail (New (B "vikebot: invalid watch-response packet"))
          end
      end
  end.

Definition Scout (distance : Z) : M Z :=
  pc_incr ;;
  g <- get ;;
  b <- trivialActionResp (B "scout")
         (Sprintf (raw "{'type':'scout','pc':%d,'obj':{'distance':%d}}")
            [D (pc g); D distance]) ;;
  int_result scoutResp_field "vikebot: invalid scout-response packet" b.

Definition Defend : M unit :=
  pc_incr ;;
  g <- get ;;
  trivialAction (B "defend")
    (Sprintf (raw "{'type':'defend','pc':%d,'obj':null}") [D (pc g)]).

Definition Undefend : M unit :=
  pc_incr ;;
  g <- get ;;
  trivialAction (B "undefend")
    (Sprintf (raw "{'type':'undefend','pc':%d,'obj':null}") [D (pc g)]).

Definition GetHealth : M Z :=
  pc_incr ;;
  g <- get ;;
  b <- trivialActionResp (B "health")
         (Sprintf (raw "{'type':'health','pc':%d,'obj':null}") [D (pc g)]) ;;
  match Unmarshal {| hr_Obj := None |} healthResp_field b with
  | None => fail (Errorf (B "vikebot: ") (LibErr JsonError))
  | Some hr =>
      match hr_Obj hr with
      | Some (Some n) => ret n
      | _ => fail (New (B "vikebot: invalid health-response packet"))
      end
  end.

(** The nine commands of a Player, and what a call returns beside its
    error. *)
Inductive command : Type :=
| CRotate (angle : bytes)
| CMove (direction : bytes)
| CAttack
| CRadar
| CWatch
| CScout (distance : Z)
| CDefend
| CUndefend
| CGetHealth.

Inductive answer : Type :=
| Done
| Int (n : Z)
| Matrix (hm : matrix).

Definition call (c : command) : M answer :=
  match c with
  | CRotate angle => Rotate angle ;; ret Done
  | CMove direction => Move direction ;; ret Done
  | CAttack => n <- Attack ;; ret (Int n)
  | CRadar => n <- Radar ;; ret (Int n)
  | CWatch => hm <- Watch ;; ret (Matrix hm)
  | CScout distance => n <- Scout distance ;; ret (Int n)
  | CDefend => Defend ;; ret Done
  | CUndefend => Undefend ;; ret Done
  | CGetHealth => n <- GetHealth ;; ret (Int n)
  end.

(** The type each command expects its response to have *)
Definition packet_type (c : command) : bytes :=
  match c with
  | CRotate _ => B "rotate"
  | CMove _ => B "move"
  | CAttack => B "attack"
  | CRadar => B "radar"
  | CWatch => B "watch"
  | CScout _ => B "scout"
  | CDefend => B "defend"
  | CUndefend => B "undefend"
  | CGetHealth => B "health"
  end.

(** The packet each command hands to [trivialActionResp], for the counter
    value it carries *)
Definition packet_of (c : command) (n : Z) : bytes :=
  match c with
  | CRotate angle =>
      Sprintf (raw "{'type':'rotate','pc':%d,'obj':{'angle':'%s'}}")
        [D n; S_ angle]
  | CMove direction =>
      Sprintf (raw "{'type':'move','pc':%d,'obj':{'direction':'%s'}}")
        [D n; S_ direction]
  | CAttack => Sprintf (raw "{'type':'attack','pc':%d,'obj':null}") [D n]
  | CRadar => Sprintf (raw "{'type':'radar','pc':%d,'obj':null}") [D n]
  | CWatch => Sprintf (raw "{'type':'watch','pc':%d,'obj':null}") [D n]
  | CScout distance =>
      Sprintf (raw "{'type':'scout','pc':%d,'obj':{'distance':%d}}")
        [D n; D distance]
  | CDefend => Sprintf (raw "{'type':'defend','pc':%d,'obj':null}") [D n]
  | CUndefend => Sprintf (raw "{'type':'undefend','pc':%d,'obj':null}") [D n]
  | CGetHealth => Sprintf (raw "{'type':'health','pc':%d,'obj':null}") [D n]
  end.

(** *** Join *)

Record roundInformation := {
  Ticket : bytes;
  AesKey : bytes;
  IPV4 : bytes;
  IPV6 : bytes;
  Port : Z;
  ri_Error : option bytes
}.

Definition roundInformation_zero : roundInformation :=
  {| Ticket := []; AesKey := []; IPV4 := []; IPV6 := []; Port := 0;
     ri_Error := None |}.

Definition roundInformation_field (t : roundInformation) (k : bytes)
  (v : Json.value) : option roundInformation :=
  if key_is "ticket" k then
    option_map
      (fun s => {| Ticket := s; AesKey := AesKey t; IPV4 := IPV4 t;
                   IPV6 := IPV6 t; Port := Port t; ri_Error := ri_Error t |})
      (into_string v (Ticket t))
  else if key_is "aes_key" k then
    option_map
      (fun s => {| Ticket := Ticket t; AesKey := s; IPV4 := IPV4 t;
                   IPV6 := IPV6 t; Port := Port t; ri_Error := ri_Error t |})
      (into_string v (AesKey t))
  else if key_is "ipv4" k then
    option_map
      (fun s => {| Ticket := Ticket t; AesKey := AesKey t; IPV4 := s;
                   IPV6 := IPV6 t; Port := Port t; ri_Error := ri_Error t |})
      (into_string v (IPV4 t))
  else if key_is "ipv6" k then
    option_map
      (fun s => {| Ticket := Ticket t; AesKey := AesKey t; IPV4 := IPV4 t;
                   IPV6 := s; Port := Port t; ri_Error := ri_Error t |})
      (into_string v (IPV6 t))
  else if key_is "port" k then
    option_map
      (fun p => {| Ticket := Ticket t; AesKey := AesKey t; IPV4 := IPV4 t;
                   IPV6 := IPV6 t; Port := p; ri_Error := ri_Error t |})
      (into_int v (Port t))
  else if key_is "error" k then
    option_map
      (fun e => {| Ticket := Ticket t; AesKey := AesKey t; IPV4 := IPV4 t;
                   IPV6 := IPV6 t; Port := Port t; ri_Error := e |})
      (into_string_ptr v)
  else Some t.

(** What [Join] reaches outside the connection: the HTTPS lookup, the
    padded base64 decoding of the key, the construction of the cipher
    ([aes.NewCipher] then [cipher.NewGCM]) and [net.Dial]. *)
Record Env := {
  http_Get : bytes -> option bytes;
  StdEncoding_DecodeString : bytes -> option bytes;
  NewGCM : bytes -> option AEAD;
  Dial : bytes -> bool
}.

(** The body of [Join] from the login packet on, run on the fresh Game. *)
Definition login_process (ticket : bytes) : M unit :=
  (* Login packet *)
  trivialAction (B "login") (loginPacket ticket) ;;
  (* Client hello *)
  challengeBuf <- on_err (Errorf (B "vikebot: ")) (rand_ReadFull 8) ;;
  let challenge := BigEndian_Uint64 challengeBuf in
  let challengeStr := FormatUint challenge in
  clienthelloCipher <- on_err (Errorf (B "vikebot: "))
                         (encryptStr (B "clienthello:" ++ challengeStr)) ;;
  write (clienthelloPacket clienthelloCipher) ;;
  (* Server hello *)
  r <- read true ;;
  let (pt, b) := r in
  (if negb (bytes_eqb pt (B "serverhello")) then
     match Unmarshal response_zero response_field b with
     | None => fail (Errorf (B "vikebot: ") (LibErr JsonError))
     | Some resp =>
         match resp_Error resp with
         | Some e => fail (New (B "vikebot: " ++ e))
         | None => ret tt
         end
     end
   else ret tt) ;;
  match Unmarshal serverhelloPacket_zero serverhelloPacket_field b with
  | None => fail (Errorf (B "vikebot: ") (LibErr JsonError))
  | Some serverhello =>
      match Cipher (sh_Obj serverhello) with
      | None =>
          fail (New (B "vikebot: invalid server response serverhello.Obj.Cipher == nil"))
      | Some c =>
          plainServerhello <- lift (fun g => decryptStr g c) ;;
          if negb (bytes_eqb plainServerhello (B "serverhello:" ++ challengeStr))
          then
            fail (New (Sprintf
                         (B "vikebot: invalid plain text - expecting 'serverhello:%s'")
                         [S_ challengeStr]))
          else
            (* Connection verified -> enable complete encryption *)
            modify (set_Encrypted true) ;;
            (* Initial pc *)
            r <- read true ;;
            let (pt, b) := r in
            if negb (bytes_eqb pt (B "initialpc")) then
              fail (New (B "vikebot: invalid server response. expected initialpc packet"))
            else
              match Unmarshal response_zero response_field b with
              | None => fail (Errorf (B "vikebot: ") (LibErr JsonError))
              | Some resp =>
                  match resp_Pc resp with
                  | None =>
                      fail (New (B "vikebot: invalid server response. expected pc in initialpc packet"))
                  | Some p =>
                      modify (set_pc p) ;;
                      (* Finished login process itself -> agree on connection *)
                      packet <- agreeconnPacket ;;
                      trivialAction (B "agreeconn") packet ;;
                      (* Allocate player struct *)
                      modify (set_Player (Some ThePlayer))
                  end
              end
      end
  end.

Definition Join (env : Env) (authtoken : bytes) (w : World)
  : result Game * World :=
  match http_Get env
          (B "https://api.vikebot.com/v1/roundentry/connectinfo/" ++ authtoken)
  with
  | None => (Err (Errorf (B "vikebot: ") (LibErr NetError)), w)
  | Some body =>
      match Decode roundInformation_zero roundInformation_field body with
      | None => (Err (Errorf (B "vikebot: ") (LibErr JsonError)), w)
      | Some ri =>
          match ri_Error ri with
          | Some e => (Err (New (B "vikebot: " ++ e)), w)
          | None =>
              match StdEncoding_DecodeString env (AesKey ri) with
              | None => (Err (Errorf (B "vikebot: ") (LibErr CorruptInput)), w)
              | Some keyBuf =>
                  match NewGCM env keyBuf with
                  | None => (Err (Errorf (B "vikebot: ") (LibErr KeyError)), w)
                  | Some a =>
                      if Dial env (Sprintf (B "%s:%d") [S_ (IPV4 ri); D (Port ri)])
                      then
                        let g := {| conn := Some TheConn; buf := Some TheReader;
                                    gcm := Some a; pc := 0; Encrypted := false;
                                    Player := None |} in
                        match login_process (Ticket ri) g w with
                        | (Ok _, g', w') => (Ok g', w')
                        | (Err e, _, w') => (Err e, w')
                        | (Panic p, _, w') => (Panic p, w')
                        end
                      else (Err (Errorf (B "vikebot: ") (LibErr NetError)), w)
                  end
              end
          end
      end
  end.

(** ** Vocabulary of the properties *)

(** The envelope a command means to send, as a JSON value: [type], [pc]
    and [obj] with the body of the command. *)
Definition body_of (c : command) : Json.value :=
  match c with
  | CRotate angle => Json.Object [(B "angle", Json.Str angle)]
  | CMove direction => Json.Object [(B "direction", Json.Str direction)]
  | CScout distance =>
      Json.Object [(B "distance", Json.Number (FormatInt distance))]
  | _ => Json.Null
  end.

Definition envelope (c : command) (n : Z) : Json.value :=
  Json.Object
    [(B "type", Json.Str (packet_type c));
     (B "pc", Json.Number (FormatUint n));
     (B "obj", body_of c)].

(** The envelope of the login packet: it carries no counter. *)
Definition login_envelope (roundticket : bytes) : Json.value :=
  Json.Object
    [(B "type", Json.Str (B "login"));
     (B "obj", Json.Object [(B "roundticket", Json.Str roundticket)])].

(** The bytes that stand for themselves between the quotes of a JSON
    string: ASCII from the space on, but for the double quote and the
    backslash. *)
Definition plain_byte (c : byte) : bool :=
  (32 <=? byte_val c) && (byte_val c <? 128)
  && negb (byte_eqb c DQ) && negb (byte_eqb c BSL).

Definition plain_text (s : bytes) : bool := forallb plain_byte s.

(** [utf8.ValidString]: the byte sequences that are well-formed UTF-8 *)
Fixpoint ValidString (s : bytes) : bool :=
  match s with
  | [] => true
  | c :: r =>
      if byte_val c <? 128 then ValidString r
      else
        match r with
        | b1 :: r1 =>
            if Json.in_range 194 223 c then Json.is_cont b1 && ValidString r1
            else
              match r1 with
              | b2 :: r2 =>
                  if Json.in_range 224 239 c then
                    Json.in_range (if byte_val c =? 224 then 160 else 128)
                      (if byte_val c =? 237 then 159 else 191) b1
                    && Json.is_cont b2 && ValidString r2
                  else
                    match r2 with
                    | b3 :: r3 =>
                        Json.in_range 240 244 c
                        && Json.in_range
                             (if byte_val c =? 240 then 144 else 128)
                             (if byte_val c =? 244 then 143 else 191) b1
                        && Json.is_cont b2 && Json.is_cont b3
                        && ValidString r3
                    | [] => false
                    end
              | [] => false
              end
        | [] => false
        end
  end.

(** The bytes that JSON lets stand between the quotes of a string: no
    control byte, no double quote, no backslash. *)
Definition literal_byte (c : byte) : bool :=
  (32 <=? byte_val c) && negb (byte_eqb c DQ) && negb (byte_eqb c BSL).

(** The strings that are their own JSON string once put between quotes:
    well-formed UTF-8, ASCII or not, made of such bytes. *)
Definition literal_text (s : bytes) : bool :=
  ValidString s && forallb literal_byte s.

Definition literal_args (c : command) : bool :=
  match c with
  | CRotate angle => literal_text angle
  | CMove direction => literal_text direction
  | _ => true
  end.

(** A decimal numeral that is neither empty nor begins with a zero *)
Definition nonzero_head (u : Decimal.uint) : Prop :=
  match u with
  | Decimal.Nil | Decimal.D0 _ => False
  | _ => True
  end.

Definition digits (u : Decimal.uint) : bytes :=
  B (NilEmpty.string_of_uint u).

(** Commands one after the other, up to the first that does not succeed *)
Fixpoint calls (cs : list command) : M unit :=
  match cs with
  | [] => ret tt
  | c :: cs' => call c ;; calls cs'
  end.

(** [keeps m]: [m] leaves the Game and the unread input as they are. *)
Definition keeps {A} (m : M A) : Prop :=
  forall g w, snd (fst (m g w)) = g /\ net_in (snd (m g w)) = net_in w.

(** What may follow a number literal that ends where it should: neither a
    digit nor the start of a fraction or of an exponent *)
Definition number_end (c : byte) : Prop :=
  Json.is_digit c = false /\ byte_eqb c "." = false /\ byte_eqb c "e" = false
  /\ byte_eqb c "E" = false.

(** The text of the body of a command, followed by [rest] *)
Definition body_text (c : command) (rest : bytes) : bytes :=
  match c with
  | CRotate angle =>
      "{"%char :: DQ :: B "angle" ++ DQ :: ":"%char :: DQ :: angle
        ++ DQ :: "}"%char :: rest
  | CMove direction =>
      "{"%char :: DQ :: B "direction" ++ DQ :: ":"%char :: DQ :: direction
        ++ DQ :: "}"%char :: rest
  | CScout distance =>
      "{"%char :: DQ :: B "distance" ++ DQ :: ":"%char :: FormatInt distance
        ++ "}"%char :: rest
  | _ => B "null" ++ rest
  end.

(** The two errors of the counter guard in [trivialActionResp] *)
Definition missing_pc : error :=
  New (B "vikebot: invalid server response. missing pc").

Definition pc_mismatch : error :=
  New (B "vikebot: invalid server response. pc mismatch").

(** The error of the type check that [trivialActionResp] runs before the
    counter guard: the message of the server when it answers unknown or
    forbidden with an error, the unexpected-packet error otherwise *)
Definition unexpected_packet : error :=
  New (B "vikebot: invalid server response. unexpected packet").

Definition rejection (resp : response) : error :=
  match resp_Error resp with
  | Some e =>
      if bytes_eqb (resp_Type resp) (B "unknown")
         || bytes_eqb (resp_Type resp) (B "forbidden")
      then New (B "vikebot: " ++ e)
      else unexpected_packet
  | None => unexpected_packet
  end.

(** What [Close] leaves of a Game *)
Definition closed (g : Game) : Prop :=
  conn g = None /\ buf g = None /\ gcm g = None /\ Encrypted g = false
  /\ Player g = None.

(** ** A cipher and a server to run the client against *)

(** A stand-in for AES-GCM with the interface and the law of an AEAD:
    the plaintext under a one-byte mask, followed by a 16-byte tag made of
    the nonce. *)
Module Toy.

Definition mask (c : byte) : byte := byte_of (Z.lxor 42 (byte_val c)).

Definition tag (nonce : bytes) : bytes := nonce ++ B "#TAG".

Definition seal (nonce plain : bytes) : bytes := map mask plain ++ tag nonce.

Definition open (nonce ciphertext : bytes) : option bytes :=
  if (length ciphertext <? 16)%nat then None
  else
    let n := (length ciphertext - 16)%nat in
    if bytes_eqb (skipn n ciphertext) (tag nonce)
    then Some (map mask (firstn n ciphertext))
    else None.

Definition gcm : AEAD := {| NonceSize := 12; Seal := seal; Open := open |}.

End Toy.

(** The server side of the wire, for a cipher [a]. *)
Module Server.

(** An encrypted frame: what [write] produces for [plain] under [nonce] *)
Definition frame (a : AEAD) (nonce plain : bytes) : bytes :=
  Base64.Encode (nonce ++ Seal a nonce plain) ++ [LF].

(** The answer to clienthello, of type [typ], echoing [challenge] *)
Definition hello (a : AEAD) (nonce typ : bytes) (challenge : Z) : bytes :=
  Sprintf (raw "{'type':'%s','obj':{'cipher':'%s'}}")
    [S_ typ;
     S_ (Base64.Encode
           (nonce ++ Seal a nonce (B "serverhello:" ++ FormatUint challenge)))]
  ++ [LF].

Definition nonce1 : bytes := B "server-nonce".

(** All a server sends through a handshake that announces [initialpc],
    its hello carrying the type [typ] *)
Definition handshake (a : AEAD) (typ : bytes) (challenge initialpc : Z)
  : bytes :=
  raw "{'type':'login'}" ++ [LF]
  ++ hello a nonce1 typ challenge
  ++ frame a nonce1
       (Sprintf (raw "{'type':'initialpc','pc':%d}") [D initialpc])
  ++ frame a nonce1
       (Sprintf (raw "{'type':'agreeconn','pc':%d}")
          [D (wrap32 (initialpc + 2))]).

(** A response of type [typ] carrying the counter [n] and the rest
    [more] of the object *)
Definition respond (a : AEAD) (typ : bytes) (n : Z) (more : bytes) : bytes :=
  frame a nonce1
    (Sprintf (raw "{'type':'%s','pc':%d%s}") [S_ typ; D n; S_ more]).

End Server.

(** A resolver, a key setup and a dialer that always succeed. *)
Definition test_env : Env :=
  {| http_Get := fun _ =>
       Some (raw "{'ticket':'T','aes_key':'a2V5','ipv4':'127.0.0.1','ipv6':'::1','port':9999}");
     StdEncoding_DecodeString := fun k => Some k;
     NewGCM := fun _ => Some Toy.gcm;
     Dial := fun _ => true |}.

Definition test_rand : bytes :=
  B "12345678" ++ B "client-nonce" ++ B "CLIENT-NONCE" ++ B "Client-Nonce".

Definition test_challenge : Z := BigEndian_Uint64 test_rand.

Definition world_of (incoming : bytes) : World :=
  {| net_in := incoming; net_out := []; net_fail := []; net_closed := false;
     rand := test_rand |}.

(** The Game as [Join] creates it, before the handshake *)
Definition fresh_game : Game :=
  {| conn := Some TheConn; buf := Some TheReader; gcm := Some Toy.gcm;
     pc := 0; Encrypted := false; Player := None |}.

(** A Game as [Join] leaves it, with the counter at [n] *)
Definition ready_game (n : Z) : Game :=
  {| conn := Some TheConn; buf := Some TheReader; gcm := Some Toy.gcm;
     pc := n; Encrypted := true; Player := Some ThePlayer |}.

(** [no_close m]: [m] leaves the transport open or closed as it found
    it. *)
Definition no_close {A} (m : M A) : Prop :=
  forall g w, net_closed (snd (m g w)) = net_closed w.

(** The envelope of the agreeconn packet for the counter [n] *)
Definition agreeconn_envelope (n : Z) : Json.value :=
  Json.Object
    [(B "type", Json.Str (B "agreeconn"));
     (B "pc", Json.Number (FormatUint n));
     (B "obj", Json.Object [])].

(** The envelope of the clienthello packet: it carries no counter. *)
Definition clienthello_envelope (cipher : bytes) : Json.value :=
  Json.Object
    [(B "type", Json.Str (B "clienthello"));
     (B "obj", Json.Object [(B "cipher", Json.Str cipher)])].

(** The commands that look at the [error] of a response of their own
    type *)
Definition resurfaces (c : command) : bool :=
  match c with
  | CDefend | CUndefend | CGetHealth => false
  | _ => true
  end.

(** The key under which the response to a command carries its number *)
Definition value_key (c : command) : option string :=
  match c with
  | CAttack => Some "health"%string
  | CRadar | CScout _ => Some "counter"%string
  | CGetHealth => Some "value"%string
  | _ => None
  end.

(** The response of a server to a command that went well, as the text of
    one object: the type of the command, the counter [n] and, for a
    command that returns a number, the object with the number [v] *)
Definition reply (c : command) (n v : Z) : bytes :=
  match value_key c with
  | Some key =>
      Sprintf (raw "{'type':'%s','pc':%d,'obj':{'%s':%d}}")
        [S_ (packet_type c); D n; S_ (B key); D v]
  | None => Sprintf (raw "{'type':'%s','pc':%d}") [S_ (packet_type c); D n]
  end.

Definition answer_of (c : command) (v : Z) : answer :=
  match value_key c with
  | Some _ => Int v
  | None => Done
  end.

(** A response with the type of the command and the counter [n], and
    nothing else *)
Definition bare_reply (c : command) (n : Z) : bytes :=
  Sprintf (raw "{'type':'%s','pc':%d}") [S_ (packet_type c); D n].

(** The error of a command that finds no value in a response of its type *)
Definition invalid_packet (c : command) : option error :=
  match c with
  | CAttack => Some (New (B "vikebot: invalid attack-response packet"))
  | CRadar => Some (New (B "vikebot: invalid radar-response packet"))
  | CWatch => Some (New (B "vikebot: invalid watch-response packet"))
  | CScout _ => Some (New (B "vikebot: invalid scout-response packet"))
  | CGetHealth => Some (New (B "vikebot: invalid health-response packet"))
  | _ => None
  end.

(** The world after one round trip on an encrypted session: the request
    sealed under the next bytes of the random source is on the wire, and
    the frame of the response is taken off the input. *)
Definition after_round_trip (a : AEAD) (w : World) (packet rest : bytes)
  : World :=
  {| net_in := rest;
     net_out := net_out w
                ++ [Server.frame a (firstn (NonceSize a) (rand w)) packet];
     net_fail := tl (net_fail w);
     net_closed := net_closed w;
     rand := skipn (NonceSize a) (rand w) |}.

(** * Properties *)

Section Base64Facts.
Import Base64.

Lemma byte_val_range b : 0 <= byte_val b < 256.
Proof.
  unfold byte_val. pose proof (N_ascii_bounded b). lia.
Qed.

Lemma byte_of_val b : byte_of (byte_val b) = b.
Proof.
  unfold byte_of. pose proof (byte_val_range b).
  rewrite Z.mod_small by lia. unfold byte_val.
  rewrite N2Z.id. apply ascii_N_embedding.
Qed.

Lemma byte_eqb_eq a b : byte_eqb a b = true <-> a = b.
Proof. apply Ascii.eqb_eq. Qed.

Lemma lor_disjoint_add X d k :
  0 <= k -> X mod 2 ^ k = 0 -> 0 <= d < 2 ^ k -> Z.lor X d = X + d.
Proof.
  intros Hk HX Hd.
  rewrite Z.add_nocarry_lxor; [symmetry; apply Z.lxor_lor|].
  all: apply Z.bits_inj'; intros n Hn; rewrite Z.land_spec, Z.bits_0.
  all: destruct (Z.lt_ge_cases n k).
  all: try (rewrite <- (Z.mod_pow2_bits_low X k n), HX, Z.bits_0 by lia;
            reflexivity).
  all: rewrite <- (Z.mod_small d (2 ^ k)) by lia;
    rewrite (Z.mod_pow2_bits_high d k n) by lia; apply Bool.andb_false_r.
Qed.

Lemma decode_encode_char v :
  0 <= v < 64 -> decode_char (encode_char v) = Some v.
Proof.
  intros H.
  assert (E : exists n, (n < 64)%nat /\ v = Z.of_nat n).
  { exists (Z.to_nat v). split; lia. }
  destruct E as (n & Hn & ->).
  do 64 (destruct n as [|n]; [reflexivity|]). lia.
Qed.

(** Shifts and masks by constants, read as multiplication, division and
    remainder. *)
Ltac arith_bits :=
  rewrite ?Z.shiftl_mul_pow2, ?Z.shiftr_div_pow2 by lia;
  change 63 with (Z.ones 6);
  rewrite ?Z.land_ones by lia;
  change (2 ^ 0) with 1; change (2 ^ 6) with 64; change (2 ^ 8) with 256;
  change (2 ^ 12) with 4096; change (2 ^ 16) with 65536;
  change (2 ^ 18) with 262144.

Ltac lor_add k :=
  match goal with
  | |- context [Z.lor ?X ?d] =>
      lazymatch X with
      | context [Z.lor] => fail
      | _ => rewrite (lor_disjoint_add X d k)
      end
  end;
  [ | lia
    | cbn [Z.pow Z.pow_pos Pos.iter Z.mul Pos.mul];
      Z.div_mod_to_equations; lia
    | cbn [Z.pow Z.pow_pos Pos.iter Z.mul Pos.mul];
      Z.div_mod_to_equations; lia ].

Lemma sv_range val k : 0 <= sv val k < 64.
Proof.
  unfold sv. change 63 with (Z.ones 6). rewrite Z.land_ones by lia.
  apply Z.mod_pos_bound. reflexivity.
Qed.

Lemma byte_of_eq z b : z mod 256 = byte_val b -> byte_of z = b.
Proof.
  intros H. unfold byte_of. rewrite H. unfold byte_val.
  rewrite N2Z.id. apply ascii_N_embedding.
Qed.

Lemma quantum_val a b c :
  quantum a b c = byte_val a * 65536 + byte_val b * 256 + byte_val c.
Proof.
  pose proof (byte_val_range a). pose proof (byte_val_range b).
  pose proof (byte_val_range c).
  unfold quantum. arith_bits. lor_add 16. lor_add 8. reflexivity.
Qed.

Lemma assemble_val a b c d :
  0 <= a < 64 -> 0 <= b < 64 -> 0 <= c < 64 -> 0 <= d < 64 ->
  assemble a b c d = a * 262144 + b * 4096 + c * 64 + d.
Proof.
  intros. unfold assemble. arith_bits.
  lor_add 18. lor_add 12. lor_add 6. reflexivity.
Qed.

Lemma assemble_sv val :
  0 <= val < 16777216 ->
  assemble (sv val 18) (sv val 12) (sv val 6) (sv val 0) = val.
Proof.
  intros H.
  rewrite assemble_val by apply sv_range.
  unfold sv. arith_bits. Z.div_mod_to_equations; lia.
Qed.

Lemma decode_quantum3 a b c :
  let val := assemble (sv (quantum a b c) 18) (sv (quantum a b c) 12)
               (sv (quantum a b c) 6) (sv (quantum a b c) 0) in
  byte_of (Z.shiftr val 16) = a /\ byte_of (Z.shiftr val 8) = b
  /\ byte_of val = c.
Proof.
  pose proof (byte_val_range a). pose proof (byte_val_range b).
  pose proof (byte_val_range c).
  cbv zeta. rewrite assemble_sv by (rewrite quantum_val; lia).
  rewrite quantum_val.
  repeat split; apply byte_of_eq; arith_bits; Z.div_mod_to_equations; lia.
Qed.

Lemma decode_quantum2 a b :
  let v := Z.lor (Z.shiftl (byte_val a) 16) (Z.shiftl (byte_val b) 8) in
  let val := assemble (sv v 18) (sv v 12) (sv v 6) 0 in
  byte_of (Z.shiftr val 16) = a /\ byte_of (Z.shiftr val 8) = b.
Proof.
  pose proof (byte_val_range a). pose proof (byte_val_range b).
  cbv zeta.
  assert (E : Z.lor (Z.shiftl (byte_val a) 16) (Z.shiftl (byte_val b) 8)
              = byte_val a * 65536 + byte_val b * 256).
  { arith_bits. lor_add 16. reflexivity. }
  rewrite E.
  rewrite assemble_val by (try apply sv_range; lia).
  unfold sv.
  split; apply byte_of_eq; arith_bits; Z.div_mod_to_equations; lia.
Qed.

Lemma decode_quantum1 a :
  let v := Z.shiftl (byte_val a) 16 in
  let val := assemble (sv v 18) (sv v 12) 0 0 in
  byte_of (Z.shiftr val 16) = a.
Proof.
  pose proof (byte_val_range a).
  cbv zeta.
  rewrite assemble_val by (try apply sv_range; lia).
  unfold sv.
  apply byte_of_eq; arith_bits; Z.div_mod_to_equations; lia.
Qed.

Lemma list_ind3 (A : Type) (P : list A -> Prop) :
  P [] -> (forall a, P [a]) -> (forall a b, P [a; b]) ->
  (forall a b c l, P l -> P (a :: b :: c :: l)) ->
  forall l, P l.
Proof.
  intros H0 H1 H2 H3.
  fix IH 1.
  intros [|a [|b [|c l]]]; [apply H0 | apply H1 | apply H2 | apply H3, IH].
Qed.

Lemma sextets_sextet val k rest :
  sextets (sextet val k :: rest) =
  match sextets rest with Some vs => Some (sv val k :: vs) | None => None end.
Proof.
  unfold sextet. cbn [sextets].
  now rewrite decode_encode_char by apply sv_range.
Qed.

(** [Decode] inverts [Encode]. *)
Lemma Decode_Encode src : Decode (Encode src) = Some src.
Proof.
  unfold Decode.
  induction src as [|a|a b|a b c l IH] using list_ind3.
  - reflexivity.
  - cbn [Encode]. rewrite !sextets_sextet. cbn [sextets decode_quanta].
    now rewrite (decode_quantum1 a).
  - cbn [Encode]. rewrite !sextets_sextet. cbn [sextets decode_quanta].
    destruct (decode_quantum2 a b) as [-> ->]. reflexivity.
  - cbn [Encode]. rewrite !sextets_sextet.
    destruct (sextets (Encode l)) as [vs|]; [|discriminate].
    cbn [decode_quanta]. rewrite IH.
    destruct (decode_quantum3 a b c) as (-> & -> & ->). reflexivity.
Qed.

(** The buffer [decrypt64] allocates for an encoder output has exactly
    the length of the encoded bytes. *)
Lemma DecodedLen_Encode src :
  DecodedLen (Z.of_nat (length (Encode src))) = Z.of_nat (length src).
Proof.
  unfold DecodedLen.
  induction src as [|a|a b|a b c l IH] using list_ind3;
    try reflexivity.
  cbn [Encode length]. rewrite !Nat2Z.inj_succ.
  Z.div_mod_to_equations; lia.
Qed.

Lemma Encode_length src :
  Z.of_nat (length (Encode src)) = EncodedLen (Z.of_nat (length src)).
Proof.
  unfold EncodedLen.
  induction src as [|a|a b|a b c l IH] using list_ind3;
    try reflexivity.
  cbn [Encode length]. rewrite !Nat2Z.inj_succ.
  Z.div_mod_to_equations; lia.
Qed.

Lemma sextets_length s vs :
  sextets s = Some vs -> (length vs <= length s)%nat.
Proof.
  revert vs. induction s as [|c s IH]; intros vs; cbn [sextets].
  - intros [= <-]. cbn. lia.
  - destruct (decode_char c).
    + destruct (sextets s) as [vs0|]; [|discriminate].
      intros [= <-]. specialize (IH vs0 eq_refl). cbn [length]. lia.
    + destruct (byte_eqb c LF || byte_eqb c CR); [|discriminate].
      intros H. apply IH in H. cbn [length]. lia.
Qed.

Lemma decode_quanta_length vs : forall d,
  decode_quanta vs = Some d ->
  Z.of_nat (length d) = DecodedLen (Z.of_nat (length vs)).
Proof.
  induction vs as [vs IH] using (well_founded_induction
                                   (well_founded_ltof _ (@length Z))).
  unfold ltof in IH. intros d H.
  destruct vs as [|a [|b [|c [|e rest]]]]; cbn [decode_quanta] in H.
  - now injection H as <-.
  - discriminate.
  - now injection H as <-.
  - now injection H as <-.
  - destruct (decode_quanta rest) as [out|] eqn:E; [|discriminate].
    injection H as <-. apply IH in E; [|cbn [length]; lia].
    cbn [length]. rewrite !Nat2Z.inj_succ. unfold DecodedLen in *.
    Z.div_mod_to_equations. lia.
Qed.

(** The decoder never writes past the buffer [decrypt64] allocates. *)
Lemma Decode_length s d :
  Decode s = Some d ->
  Z.of_nat (length d) <= DecodedLen (Z.of_nat (length s)).
Proof.
  unfold Decode. destruct (sextets s) as [vs|] eqn:E; [|discriminate].
  intros H. apply decode_quanta_length in H. apply sextets_length in E.
  rewrite H. unfold DecodedLen. Z.div_mod_to_equations. lia.
Qed.

End Base64Facts.

(** ** Byte sequences and the stand-in cipher *)

Lemma bytes_eqb_refl x : bytes_eqb x x = true.
Proof.
  induction x as [|a x IH]; [reflexivity|].
  cbn. unfold byte_eqb. now rewrite Ascii.eqb_refl.
Qed.

Lemma bytes_eqb_eq x y : bytes_eqb x y = true <-> x = y.
Proof.
  split; [|intros ->; apply bytes_eqb_refl].
  revert y. induction x as [|a x IH]; intros [|b y]; cbn; try easy.
  intros H. apply andb_true_iff in H as [H1 H2].
  apply byte_eqb_eq in H1. apply IH in H2. congruence.
Qed.

Lemma mask_involutive c : Toy.mask (Toy.mask c) = c.
Proof.
  destruct c as [[] [] [] [] [] [] [] []]; reflexivity.
Qed.

Lemma Toy_sound : AEAD_sound Toy.gcm.
Proof.
  intros nonce plain Hn. cbn in *. unfold Toy.open, Toy.seal.
  assert (Ht : length (Toy.tag nonce) = 16%nat).
  { unfold Toy.tag. rewrite length_app, Hn. reflexivity. }
  rewrite length_app, length_map, Ht.
  replace (length plain + 16 <? 16)%nat with false
    by (symmetry; apply Nat.ltb_ge; lia).
  replace (length plain + 16 - 16)%nat with (length (map Toy.mask plain))
    by (rewrite length_map; lia).
  rewrite skipn_app, skipn_all, Nat.sub_diag, firstn_app, firstn_all,
    Nat.sub_diag. cbn [skipn firstn app].
  rewrite bytes_eqb_refl, app_nil_r, map_map.
  f_equal. erewrite map_ext; [apply map_id|]. apply mask_involutive.
Qed.

(** ** The AEAD layer *)

Section Cipher.

Variable g : Game.
Variable a : AEAD.
Hypothesis gcm_a : gcm g = Some a.
Hypothesis sound_a : AEAD_sound a.

(** What [encrypt] builds from a nonce of the right size opens again. *)
Lemma decrypt_sealed nonce plain :
  length nonce = NonceSize a ->
  decrypt g (nonce ++ Seal a nonce plain) = Ok plain.
Proof.
  intros Hn. unfold decrypt. rewrite gcm_a.
  replace (length (nonce ++ Seal a nonce plain) <? NonceSize a)%nat
    with false
    by (symmetry; apply Nat.ltb_ge; rewrite length_app; lia).
  rewrite <- Hn, firstn_app, skipn_app, firstn_all, skipn_all, Nat.sub_diag.
  cbn [firstn skipn]. rewrite app_nil_r, app_nil_l.
  now rewrite sound_a.
Qed.

Lemma decrypt64_encoded c :
  decrypt64 g (Base64.Encode c) = decrypt g c.
Proof.
  unfold decrypt64. rewrite Decode_Encode, DecodedLen_Encode, Nat2Z.id.
  rewrite skipn_all2 by (rewrite repeat_length; lia).
  now rewrite app_nil_r.
Qed.

Lemma encrypt_ok plain w :
  (NonceSize a <= length (rand w))%nat ->
  encrypt plain g w
  = (Ok (firstn (NonceSize a) (rand w)
         ++ Seal a (firstn (NonceSize a) (rand w)) plain), g,
     with_rand (skipn (NonceSize a) (rand w)) w).
Proof.
  intros Hr. unfold encrypt, bind, get, on_err, rand_ReadFull, ret.
  rewrite gcm_a.
  replace (NonceSize a <=? length (rand w))%nat with true
    by (symmetry; now apply Nat.leb_le).
  reflexivity.
Qed.

End Cipher.

(** C8 (round-trip law).  For a cipher that satisfies the AEAD law, every
    plaintext [p] and every random source that can fill a nonce:
    [encrypt] returns a buffer that [decrypt] opens to [p], and [encrypt64]
    returns a text that [decrypt64] opens to [p]. *)
Theorem round_trip_law (g : Game) (a : AEAD) (w : World) (p : bytes) :
  gcm g = Some a ->
  AEAD_sound a ->
  (NonceSize a <= length (rand w))%nat ->
  (exists c w', encrypt p g w = (Ok c, g, w') /\ decrypt g c = Ok p)
  /\ (exists c64 w',
         encrypt64 p g w = (Ok c64, g, w') /\ decrypt64 g c64 = Ok p).
Proof.
  intros Hg Ha Hr.
  pose proof (encrypt_ok g a Hg p w Hr) as He.
  assert (Hn : length (firstn (NonceSize a) (rand w)) = NonceSize a)
    by (rewrite length_firstn; lia).
  split.
  - eexists _, _. split; [exact He|].
    now apply decrypt_sealed.
  - eexists _, _. unfold encrypt64, bind. rewrite He.
    split; [reflexivity|].
    rewrite (decrypt64_encoded g).
    now apply decrypt_sealed.
Qed.

Lemma round_trip_law_witness :
  (exists c w',
      encrypt (B "rotate") (ready_game 7) (world_of []) = (Ok c, ready_game 7, w')
      /\ decrypt (ready_game 7) c = Ok (B "rotate"))
  /\ (exists c64 w',
         encrypt64 (B "rotate") (ready_game 7) (world_of [])
         = (Ok c64, ready_game 7, w')
         /\ decrypt64 (ready_game 7) c64 = Ok (B "rotate")).
Proof.
  apply (round_trip_law (ready_game 7) Toy.gcm (world_of []) (B "rotate")).
  - reflexivity.
  - exact Toy_sound.
  - cbn. lia.
Defined.

(** ** Framing *)

Lemma split_line_app d payload rest :
  ~ In d payload ->
  split_line d (payload ++ d :: rest) = Some (payload ++ [d], rest).
Proof.
  induction payload as [|c p IH]; intros Hin; cbn.
  - unfold byte_eqb. now rewrite Ascii.eqb_refl.
  - assert (Hc : byte_eqb c d = false).
    { apply not_true_is_false. intros E. apply byte_eqb_eq in E.
      apply Hin. now left. }
    rewrite Hc, IH; [reflexivity|]. intros H. apply Hin. now right.
Qed.

Lemma split_line_inv d s l rest :
  split_line d s = Some (l, rest) ->
  exists payload, l = payload ++ [d] /\ ~ In d payload /\ s = l ++ rest.
Proof.
  revert l. induction s as [|c s IH]; intros l; cbn; [discriminate|].
  destruct (byte_eqb c d) eqn:E.
  - intros [= <- <-]. apply byte_eqb_eq in E. subst c.
    exists []. cbn. tauto.
  - destruct (split_line d s) as [[l0 r0]|]; [|discriminate].
    intros [= <- <-]. destruct (IH l0 eq_refl) as (p & -> & Hp & ->).
    exists (c :: p). cbn. repeat split.
    intros [->|H]; [|tauto].
    unfold byte_eqb in E. now rewrite Ascii.eqb_refl in E.
Qed.

Ltac unfold_m :=
  cbv [bind ret fail throw get modify on_err lift pc_incr] in *.

(** [decrypt] on a buffer shorter than the nonce: the slice expression
    is out of range. *)
Lemma decrypt_short g a c :
  gcm g = Some a -> (length c < NonceSize a)%nat ->
  decrypt g c = Panic SliceBounds.
Proof.
  intros Hg Hc. unfold decrypt. rewrite Hg.
  now replace (length c <? NonceSize a)%nat with true
    by (symmetry; now apply Nat.ltb_lt).
Qed.

(** [decrypt64] on a text that is valid base64 for fewer bytes than a
    nonce: the slice expression of [decrypt] is out of range. *)
Lemma decrypt64_short g a cipher64 :
  gcm g = Some a ->
  Base64.Decode cipher64 <> None ->
  Base64.DecodedLen (Z.of_nat (length cipher64)) < Z.of_nat (NonceSize a) ->
  decrypt64 g cipher64 = Panic SliceBounds.
Proof.
  intros Hg Hd Hl. unfold decrypt64.
  destruct (Base64.Decode cipher64) as [d|] eqn:E; [|congruence].
  apply Decode_length in E.
  apply (decrypt_short g a); [exact Hg|].
  rewrite length_app, length_skipn, repeat_length. lia.
Qed.

(** C5 (decode failures).  The frame AAAA is valid base64 for three zero
    bytes, shorter than the 12-byte nonce: [decrypt64] does not return an
    error on it, the slice expression of [decrypt] panics, and so does
    [read] on an encrypted session that receives this frame. *)
Theorem short_frame_faults :
  Base64.Decode (B "AAAA") = Some [NUL; NUL; NUL]
  /\ decrypt64 (ready_game 7) (B "AAAA") = Panic SliceBounds
  /\ read false (ready_game 7) (world_of (B "AAAA" ++ [LF]))
     = (Panic SliceBounds, ready_game 7, world_of []).
Proof.
  repeat split.
Qed.

(** ** Close *)

Lemma closed_write g w b :
  closed g -> write b g w = (Panic NilDeref, g, w).
Proof.
  intros (Hc & _ & _ & He & _). unfold write, conn_Write. unfold_m.
  now rewrite He, Hc.
Qed.

Lemma closed_read g w x :
  closed g -> read x g w = (Panic NilDeref, g, w).
Proof.
  intros (_ & Hb & _). unfold read, ReadBytes. unfold_m. now rewrite Hb.
Qed.

Lemma closed_trivialActionResp g w pt packet :
  closed g -> trivialActionResp pt packet g w = (Panic NilDeref, g, w).
Proof.
  intros H. unfold trivialActionResp, bind. now rewrite closed_write.
Qed.

Lemma closed_set_pc g n : closed g -> closed (set_pc n g).
Proof. intros H. exact H. Qed.

Lemma closed_call g w c :
  closed g ->
  call c g w = (Panic NilDeref, set_pc (wrap32 (pc g + 1)) g, w).
Proof.
  intros H.
  destruct c;
    cbv [call Rotate Move Attack Radar Watch Scout Defend Undefend GetHealth
         trivialAction bind pc_incr modify get on_err];
    now rewrite closed_trivialActionResp by now apply closed_set_pc.
Qed.

(** C4 (teardown), the claim as stated fails: the second [Close] on a
    session does not return an error, it dereferences the nil [conn]. *)
Lemma second_Close_faults :
  exists g w,
    Close (ready_game 7) (world_of []) = (Ok tt, g, w)
    /\ Close g w = (Panic NilDeref, g, w)
    /\ pc g = 7.
Proof.
  eexists _, _. repeat split.
Qed.

(** C4 (teardown), amended.  [Close] clears the connection, the reader,
    the cipher, the encryption flag and the Player of the Game and leaves
    the counter as it is; on an open connection it closes the transport
    and returns no error.  Nothing guards a closed Game: a further
    [Close], [write], [read] and every command panic on the nil handle
    instead of returning an error. *)
Theorem Close_teardown g w :
  let g' := snd (fst (Close g w)) in
  closed g' /\ pc g' = pc g
  /\ (conn g <> None -> net_closed w = false ->
      Close g w = (Ok tt, g', with_closed w))
  /\ (forall w1, Close g' w1 = (Panic NilDeref, g', w1))
  /\ (forall w1 b, write b g' w1 = (Panic NilDeref, g', w1))
  /\ (forall w1 x, read x g' w1 = (Panic NilDeref, g', w1))
  /\ (forall w1 c,
         call c g' w1 = (Panic NilDeref, set_pc (wrap32 (pc g' + 1)) g', w1)).
Proof.
  assert (Hg : snd (fst (Close g w))
               = {| conn := None; buf := None; gcm := None; pc := pc g;
                    Encrypted := false; Player := None |}).
  { unfold Close. destruct (conn g); [destruct (net_closed w)|]; reflexivity. }
  cbv zeta. rewrite Hg.
  assert (Hc : closed {| conn := None; buf := None; gcm := None; pc := pc g;
                         Encrypted := false; Player := None |})
    by (repeat split).
  split; [exact Hc|]. split; [reflexivity|].
  split; [|split; [|split; [|split]]].
  - intros Hconn Hopen. unfold Close. rewrite Hopen.
    destruct (conn g); [reflexivity|congruence].
  - reflexivity.
  - intros. now apply closed_write.
  - intros. now apply closed_read.
  - intros. now apply closed_call.
Qed.

(** ** The monad: inversion of a successful run *)

Lemma bind_Ok {A B} (m : M A) (k : A -> M B) g w b g' w' :
  bind m k g w = (Ok b, g', w') ->
  exists a g1 w1, m g w = (Ok a, g1, w1) /\ k a g1 w1 = (Ok b, g', w').
Proof.
  unfold bind. destruct (m g w) as [[[a|e|p] g1] w1]; try discriminate.
  intros H. now exists a, g1, w1.
Qed.

Lemma on_err_state {A} f (m : M A) g w :
  snd (fst (on_err f m g w)) = snd (fst (m g w))
  /\ snd (on_err f m g w) = snd (m g w).
Proof.
  unfold on_err. destruct (m g w) as [[[x|e|p] g1] w1]; split; reflexivity.
Qed.

(** ** What each step does to the Game and to the incoming stream *)

Lemma keeps_ret {A} (a : A) : keeps (ret a).
Proof. intros g w. split; reflexivity. Qed.

Lemma keeps_fail {A} e : keeps (@fail A e).
Proof. intros g w. split; reflexivity. Qed.

Lemma keeps_throw {A} p : keeps (@throw A p).
Proof. intros g w. split; reflexivity. Qed.

Lemma keeps_get : keeps get.
Proof. intros g w. split; reflexivity. Qed.

Lemma keeps_lift {A} (f : Game -> result A) : keeps (lift f).
Proof. intros g w. split; reflexivity. Qed.

Lemma keeps_bind {A B} (m : M A) (k : A -> M B) :
  keeps m -> (forall a, keeps (k a)) -> keeps (bind m k).
Proof.
  intros Hm Hk g w. unfold bind. specialize (Hm g w).
  destruct (m g w) as [[[a|e|p] g1] w1]; cbn in *; try exact Hm.
  destruct Hm as [-> <-]. apply Hk.
Qed.

Lemma keeps_on_err {A} f (m : M A) : keeps m -> keeps (on_err f m).
Proof.
  intros Hm g w. destruct (on_err_state f m g w) as [-> ->]. apply Hm.
Qed.

Lemma keeps_rand_ReadFull n : keeps (rand_ReadFull n).
Proof.
  intros g w. unfold rand_ReadFull.
  destruct (n <=? length (rand w))%nat; split; reflexivity.
Qed.

Lemma keeps_conn_Write b : keeps (conn_Write b).
Proof.
  intros g w. unfold conn_Write.
  destruct (conn g); [|split; reflexivity].
  destruct (net_closed w); [split; reflexivity|].
  destruct (net_fail w) as [|[] fl]; split; reflexivity.
Qed.

Create HintDb keeps discriminated.
#[local] Hint Resolve keeps_ret keeps_fail keeps_throw keeps_get keeps_lift
  keeps_on_err keeps_rand_ReadFull keeps_conn_Write : keeps.

Lemma keeps_encrypt p : keeps (encrypt p).
Proof.
  unfold encrypt. apply keeps_bind; [auto with keeps|]. intros g.
  destruct (gcm g); [|auto with keeps].
  apply keeps_bind; auto with keeps.
Qed.

#[local] Hint Resolve keeps_encrypt : keeps.

Lemma keeps_encrypt64 p : keeps (encrypt64 p).
Proof. unfold encrypt64. apply keeps_bind; auto with keeps. Qed.

Lemma keeps_encryptStr p : keeps (encryptStr p).
Proof. unfold encryptStr. apply keeps_bind; auto with keeps. Qed.

#[local] Hint Resolve keeps_encrypt64 keeps_encryptStr : keeps.

Lemma keeps_write b : keeps (write b).
Proof.
  unfold write. apply keeps_bind; [auto with keeps|]. intros g.
  apply keeps_bind; [destruct (Encrypted g)|]; auto with keeps.
Qed.

#[local] Hint Resolve keeps_write : keeps.

Lemma keeps_Ok {A} (m : M A) g w a g' w' :
  keeps m -> m g w = (Ok a, g', w') -> g' = g /\ net_in w' = net_in w.
Proof.
  intros Hm H. specialize (Hm g w). rewrite H in Hm. cbn in Hm.
  destruct Hm. now split.
Qed.

(** [read] leaves the Game as it is and takes one line off the input. *)
Lemma read_game x g w : snd (fst (read x g w)) = g.
Proof.
  unfold read, ReadBytes, bind, get, on_err, lift, ret, fail.
  destruct (buf g); [|reflexivity].
  destruct (split_line LF (net_in w)) as [[l rest]|]; [|reflexivity].
  destruct (Encrypted g).
  - destruct (decrypt64 g (removelast l)); try reflexivity.
    destruct (negb x); [reflexivity|].
    destruct (Unmarshal _ _ _); reflexivity.
  - destruct (negb x); [reflexivity|].
    destruct (Unmarshal _ _ _); reflexivity.
Qed.

Lemma read_Ok x g w pt b g' w' :
  read x g w = (Ok (pt, b), g', w') ->
  g' = g
  /\ exists l,
      split_line LF (net_in w) = Some (l, net_in w')
      /\ (if Encrypted g then decrypt64 g (removelast l) = Ok b else b = l)
      /\ (x = true ->
          exists t, Unmarshal {| tp_Type := [] |} typePacket_field b = Some t
                    /\ pt = tp_Type t).
Proof.
  intros H. split.
  { pose proof (read_game x g w) as Hg. now rewrite H in Hg. }
  revert H. unfold read, ReadBytes, bind, get, on_err, lift, ret, fail.
  destruct (buf g); [|discriminate].
  destruct (split_line LF (net_in w)) as [[l rest]|]; [|discriminate].
  destruct (Encrypted g).
  - destruct (decrypt64 g (removelast l)) as [plain| |] eqn:Hd;
      try discriminate.
    destruct x; cbn [negb].
    + destruct (Unmarshal _ _ plain) as [t|] eqn:Ht; [|discriminate].
      intros [= <- <- <- <-]. exists l.
      split; [reflexivity|]. split; [exact Hd|]. intros _. now exists t.
    + intros [= <- <- <- <-]. exists l.
      split; [reflexivity|]. split; [exact Hd|]. discriminate.
  - destruct x; cbn [negb].
    + destruct (Unmarshal _ _ l) as [t|] eqn:Ht; [|discriminate].
      intros [= <- <- <- <-]. exists l.
      split; [reflexivity|]. split; [reflexivity|]. intros _. now exists t.
    + intros [= <- <- <- <-]. exists l.
      split; [reflexivity|]. split; [reflexivity|]. discriminate.
Qed.

(** C7 (delimiter stripping), the claim as stated fails: on a session that
    is not encrypted [read] returns the line with its newline. *)
Lemma unencrypted_read_keeps_delimiter :
  read false fresh_game (world_of (raw "{'type':'login'}" ++ [LF]))
  = (Ok ([], raw "{'type':'login'}" ++ [LF]), fresh_game, world_of [])
  /\ last (raw "{'type':'login'}" ++ [LF]) NUL = LF.
Proof.
  split; reflexivity.
Qed.

(** C7 (delimiter stripping), amended.  For every frame, that is a payload
    free of newlines followed by a newline, [read] consumes the frame and
    its delimiter.  On an encrypted session the delimiter is stripped and
    the payload goes through [decrypt64]; on a session that is not
    encrypted the returned buffer is the payload with the newline.  The
    same holds of the buffer when [read] also extracts the packet type. *)
Theorem delimiter_stripping g w payload rest :
  buf g <> None ->
  ~ In LF payload ->
  net_in w = payload ++ LF :: rest ->
  (Encrypted g = true ->
   read false g w
   = (match decrypt64 g payload with
      | Ok plain => Ok ([], plain)
      | Err e => Err (Errorf (B "vikebot: unsecure connection - ") e)
      | Panic p => Panic p
      end, g, with_in rest w))
  /\ (Encrypted g = false ->
      read false g w = (Ok ([], payload ++ [LF]), g, with_in rest w))
  /\ (forall x pt b g' w',
         read x g w = (Ok (pt, b), g', w') ->
         net_in w' = rest
         /\ if Encrypted g then decrypt64 g payload = Ok b
            else b = payload ++ [LF]).
Proof.
  intros Hb Hp Hin.
  pose proof (split_line_app LF payload rest Hp) as Hl. rewrite <- Hin in Hl.
  split; [|split].
  - intros He. unfold read, ReadBytes. unfold_m.
    destruct (buf g); [|congruence].
    rewrite Hl, He. cbn [negb]. rewrite removelast_last.
    destruct (decrypt64 g payload); reflexivity.
  - intros He. unfold read, ReadBytes. unfold_m.
    destruct (buf g); [|congruence].
    now rewrite Hl, He.
  - intros x pt b g' w' H.
    apply read_Ok in H as (_ & l & Hl' & Hb' & _).
    rewrite Hl in Hl'. injection Hl' as <- <-.
    split; [reflexivity|].
    now rewrite removelast_last in Hb'.
Qed.

Lemma delimiter_stripping_witness :
  (Encrypted (ready_game 7) = true ->
   read false (ready_game 7) (world_of (B "QUJD" ++ LF :: B "next"))
   = (match decrypt64 (ready_game 7) (B "QUJD") with
      | Ok plain => Ok ([], plain)
      | Err e => Err (Errorf (B "vikebot: unsecure connection - ") e)
      | Panic p => Panic p
      end, ready_game 7,
      with_in (B "next") (world_of (B "QUJD" ++ LF :: B "next"))))
  /\ (Encrypted (ready_game 7) = false ->
      read false (ready_game 7) (world_of (B "QUJD" ++ LF :: B "next"))
      = (Ok ([], B "QUJD" ++ [LF]), ready_game 7,
         with_in (B "next") (world_of (B "QUJD" ++ LF :: B "next")))).
Proof.
  refine ((fun H => conj (proj1 H) (proj1 (proj2 H)))
            (delimiter_stripping (ready_game 7)
               (world_of (B "QUJD" ++ LF :: B "next")) (B "QUJD") (B "next")
               _ _ _)).
  - discriminate.
  - cbn. intros H. repeat destruct H as [H|H]; try discriminate H; exact H.
  - reflexivity.
Defined.

(** ** The correlator *)

(** The round trip of [trivialActionResp] once the request is written, a
    response is read and decoded, and its type is the expected one, on an
    encrypted session: the counter is incremented, then compared. *)
Lemma trivialActionResp_guard pt packet g w w1 x b w2 resp :
  Encrypted g = true ->
  write packet g w = (Ok tt, g, w1) ->
  read false g w1 = (Ok (x, b), g, w2) ->
  Unmarshal response_zero response_field b = Some resp ->
  resp_Type resp = pt ->
  trivialActionResp pt packet g w
  = (match resp_Pc resp with
     | None => Err missing_pc
     | Some p => if p =? wrap32 (pc g + 1) then Ok b else Err pc_mismatch
     end, set_pc (wrap32 (pc g + 1)) g, w2).
Proof.
  intros He Hw Hr Hu Ht.
  unfold trivialActionResp. unfold bind at 1. rewrite Hw.
  unfold bind at 1. rewrite Hr. cbn [snd]. rewrite Hu, Ht, bytes_eqb_refl.
  cbn [negb]. unfold_m. rewrite He. cbn [pc set_pc].
  destruct (resp_Pc resp) as [p|]; [|reflexivity].
  destruct (p =? wrap32 (pc g + 1)); reflexivity.
Qed.

(** The round trip when the response is of another type than the expected
    one: the type check returns before the counter guard is reached, and
    the counter is not incremented. *)
Lemma trivialActionResp_rejected pt packet g w w1 x b w2 resp :
  write packet g w = (Ok tt, g, w1) ->
  read false g w1 = (Ok (x, b), g, w2) ->
  Unmarshal response_zero response_field b = Some resp ->
  resp_Type resp <> pt ->
  trivialActionResp pt packet g w = (Err (rejection resp), g, w2).
Proof.
  intros Hw Hr Hu Ht.
  unfold trivialActionResp. unfold bind at 1. rewrite Hw.
  unfold bind at 1. rewrite Hr. cbn [snd]. rewrite Hu.
  replace (bytes_eqb (resp_Type resp) pt) with false
    by (symmetry; apply not_true_is_false; intros E;
        now apply bytes_eqb_eq in E).
  cbn [negb]. unfold rejection, unexpected_packet, fail.
  destruct (resp_Error resp);
    [destruct (bytes_eqb _ _ || bytes_eqb _ _)|]; reflexivity.
Qed.

(** Every run of [trivialActionResp] either leaves the Game as it is, and
    then does not succeed if the session is encrypted, or it has received
    a response of the expected type on an encrypted session and has
    incremented the counter. *)
Lemma trivialActionResp_inv pt packet g w r g' w' :
  trivialActionResp pt packet g w = (r, g', w') ->
  (g' = g /\ (Encrypted g = true -> forall b, r <> Ok b))
  \/ (Encrypted g = true /\ g' = set_pc (wrap32 (pc g + 1)) g
      /\ exists w1 x b resp,
          write packet g w = (Ok tt, g, w1)
          /\ read false g w1 = (Ok (x, b), g, w')
          /\ Unmarshal response_zero response_field b = Some resp
          /\ resp_Type resp = pt).
Proof.
  unfold trivialActionResp. unfold bind at 1.
  destruct (keeps_write packet g w) as [Hg _].
  destruct (write packet g w) as [[[[]|e|p] g1] w1] eqn:Hw;
    cbn in Hg; subst g1;
    [|intros [= <- <- <-]; left; split; [reflexivity|discriminate]..].
  unfold bind at 1. pose proof (read_game false g w1) as Hg.
  destruct (read false g w1) as [[[[x b]|e|p] g2] w2] eqn:Hr;
    cbn in Hg; subst g2;
    [|intros [= <- <- <-]; left; split; [reflexivity|discriminate]..].
  cbn [snd].
  destruct (Unmarshal response_zero response_field b) as [resp|] eqn:Hu;
    [|intros [= <- <- <-]; left; split; [reflexivity|discriminate]].
  destruct (bytes_eqb (resp_Type resp) pt) eqn:Ht; cbn [negb].
  - apply bytes_eqb_eq in Ht. unfold_m.
    destruct (Encrypted g) eqn:He.
    + intros H. right. split; [reflexivity|].
      assert (g' = set_pc (wrap32 (pc g + 1)) g /\ w' = w2) as [-> ->].
      { destruct (resp_Pc resp) as [n|];
          [destruct (negb (n =? _))|]; now inversion H. }
      split; [reflexivity|]. now exists w1, x, b, resp.
    + intros [= <- <- <-]. left. split; [reflexivity|discriminate].
  - unfold fail.
    destruct (resp_Error resp);
      [destruct (bytes_eqb _ _ || bytes_eqb _ _)|];
      intros [= <- <- <-]; left; split; (reflexivity || discriminate).
Qed.

(** A successful run has taken one line off the input. *)
Lemma trivialActionResp_Ok pt packet g w b g' w' :
  trivialActionResp pt packet g w = (Ok b, g', w') ->
  g' = (if Encrypted g then set_pc (wrap32 (pc g + 1)) g else g)
  /\ exists l, split_line LF (net_in w) = Some (l, net_in w').
Proof.
  intros H. split.
  - destruct (trivialActionResp_inv _ _ _ _ _ _ _ H)
      as [[-> Hn]|(He & -> & _)].
    + destruct (Encrypted g); [|reflexivity]. now destruct (Hn eq_refl b).
    + now rewrite He.
  - revert H. unfold trivialActionResp. intros H.
    apply bind_Ok in H as ([] & g1 & w1 & Hw & H).
    apply bind_Ok in H as ([x b0] & g2 & w2 & Hr & H).
    apply (keeps_Ok _ _ _ _ _ _ (keeps_write packet)) in Hw as [-> Hin].
    apply read_Ok in Hr as (-> & l & Hl & _).
    exists l. rewrite <- Hin.
    assert (w' = w2) as ->; [|exact Hl].
    revert H. cbn [snd]. unfold_m.
    destruct (Unmarshal _ _ b0) as [resp|]; [|discriminate].
    destruct (negb (bytes_eqb _ _)).
    + destruct (resp_Error resp);
        [destruct (bytes_eqb _ _ || bytes_eqb _ _)|]; discriminate.
    + destruct (Encrypted g); [|congruence].
      destruct (resp_Pc resp) as [n|]; [destruct (negb (n =? _))|];
        congruence.
Qed.

(** ** The commands *)

(** Every command increments the counter, hands its packet to
    [trivialActionResp] and decodes the response without touching the
    Game or the connection again.  An error of the round trip is returned
    as it is or wrapped once. *)
Lemma call_inv c g w :
  let g1 := set_pc (wrap32 (pc g + 1)) g in
  exists r0 g2 w2 r,
    trivialActionResp (packet_type c) (packet_of c (pc g1)) g1 w = (r0, g2, w2)
    /\ call c g w = (r, g2, w2)
    /\ match r0 with
       | Ok _ => forall p, r <> Panic p
       | Err e => exists e', r = Err e' /\ cause e' = cause e
       | Panic p => r = Panic p
       end.
Proof.
  cbv zeta.
  destruct c;
    cbv [call Rotate Move Attack Radar Watch Scout Defend Undefend GetHealth
         int_result trivialAction bind pc_incr modify get on_err ret fail];
    cbn [packet_type packet_of pc set_pc];
    match goal with
    | |- context [trivialActionResp ?pt ?p ?g1 ?w1] =>
        destruct (trivialActionResp pt p g1 w1) as [[[b|e|p0] g2] w2]
    end;
    try (eexists _, _, _, _; split; [reflexivity|];
         split; [reflexivity|]; first [reflexivity | now eexists]);
    repeat match goal with
      | |- context [match ?x with _ => _ end] =>
          lazymatch x with
          | context [match _ with _ => _ end] => fail
          | _ => destruct x
          end
      end;
    eexists _, _, _, _; (split; [reflexivity|]); (split; [reflexivity|]);
    discriminate.
Qed.

(** A command that succeeds on an encrypted session has advanced the
    counter by two: once before the send, once on the response. *)
Lemma call_Ok c g w a g' w' :
  Encrypted g = true ->
  call c g w = (Ok a, g', w') ->
  g' = set_pc (wrap32 (wrap32 (pc g + 1) + 1)) g.
Proof.
  intros He H.
  destruct (call_inv c g w) as (r0 & g2 & w2 & r & Ht & Hc & Hr).
  rewrite Hc in H. injection H as -> -> ->.
  destruct r0 as [b|e|p].
  - apply trivialActionResp_Ok in Ht as [-> _]. cbn. now rewrite He.
  - destruct Hr as (e' & He' & _). discriminate.
  - discriminate.
Qed.

Lemma wrap32_succ_neq x : wrap32 (x + 1) <> x.
Proof. unfold wrap32. Z.div_mod_to_equations. lia. Qed.

Lemma wrap32_succ_succ x : wrap32 (wrap32 (x + 1) + 1) = wrap32 (x + 2).
Proof. unfold wrap32. Z.div_mod_to_equations. lia. Qed.

Lemma wrap32_succ_succ_neq x : wrap32 (wrap32 (x + 1) + 1) <> x.
Proof. unfold wrap32. Z.div_mod_to_equations. lia. Qed.

Lemma cause_rejection resp : cause (rejection resp) = rejection resp.
Proof.
  unfold rejection.
  destruct (resp_Error resp);
    [destruct (bytes_eqb _ _ || bytes_eqb _ _)|]; reflexivity.
Qed.

(** C3 (packet counter guard), the claim as stated fails.  [Rotate] on a
    session whose counter is 7 puts the counter 8 into its request.  A
    response that carries this 8, the value the request carried, fails
    with the pc-mismatch error, and the response that is accepted carries
    9.  A response without [pc] whose type is forbidden does not fail with
    the missing-pc error: the type check comes first and returns the
    message of the server. *)
Lemma echoed_counter_is_mismatch :
  net_out (snd (Rotate (B "left") (ready_game 7) (world_of [])))
  = [Server.frame Toy.gcm (firstn 12 test_rand)
       (packet_of (CRotate (B "left")) 8)]
  /\ fst (fst (Rotate (B "left") (ready_game 7)
                 (world_of (Server.respond Toy.gcm (B "rotate") 8 []))))
     = Err (Errorf (B "vikebot: ") pc_mismatch)
  /\ fst (fst (Rotate (B "left") (ready_game 7)
                 (world_of (Server.respond Toy.gcm (B "rotate") 9 []))))
     = Ok tt
  /\ fst (fst (Rotate (B "left") (ready_game 7)
                 (world_of
                    (Server.frame Toy.gcm Server.nonce1
                       (raw "{'type':'forbidden','error':'not now'}")))))
     = Err (Errorf (B "vikebot: ") (New (B "vikebot: not now"))).
Proof.
  repeat split; vm_compute; reflexivity.
Qed.

(** C3 (packet counter guard), amended.  On an encrypted session, for
    every command whose request was written and whose response was read
    and decoded, with [sent] the counter the request carried and
    [expected] the counter after the increment of the guard, that is
    [sent + 1] modulo 2^32.  When the response has the type the command
    expects: without a [pc] the round trip fails with the missing-pc
    error; with a [pc] other than [expected], the echo of [sent] among
    them, it fails with the pc-mismatch error, and the counter of the
    session holds [expected], not the value the server sent; with
    [expected] it succeeds.  The command returns the error of the guard as
    it is or wrapped.  When the response has another type the guard is
    not reached: the round trip fails with the error of the type check,
    whether or not a [pc] is there, and the counter stays at [sent]. *)
Theorem counter_guard_errors c g w w1 x b w2 resp :
  let g1 := set_pc (wrap32 (pc g + 1)) g in
  let sent := pc g1 in
  let expected := wrap32 (sent + 1) in
  Encrypted g = true ->
  write (packet_of c sent) g1 w = (Ok tt, g1, w1) ->
  read false g1 w1 = (Ok (x, b), g1, w2) ->
  Unmarshal response_zero response_field b = Some resp ->
  (resp_Type resp = packet_type c ->
   (resp_Pc resp = None ->
    trivialActionResp (packet_type c) (packet_of c sent) g1 w
    = (Err missing_pc, set_pc expected g, w2)
    /\ exists e,
        call c g w = (Err e, set_pc expected g, w2) /\ cause e = missing_pc)
   /\ (forall n, resp_Pc resp = Some n -> n <> expected ->
       trivialActionResp (packet_type c) (packet_of c sent) g1 w
       = (Err pc_mismatch, set_pc expected g, w2)
       /\ exists e g',
           call c g w = (Err e, g', w2) /\ cause e = pc_mismatch
           /\ pc g' = expected /\ pc g' <> n)
   /\ (resp_Pc resp = Some sent ->
       trivialActionResp (packet_type c) (packet_of c sent) g1 w
       = (Err pc_mismatch, set_pc expected g, w2))
   /\ (resp_Pc resp = Some expected ->
       trivialActionResp (packet_type c) (packet_of c sent) g1 w
       = (Ok b, set_pc expected g, w2)))
  /\ (resp_Type resp <> packet_type c ->
      trivialActionResp (packet_type c) (packet_of c sent) g1 w
      = (Err (rejection resp), g1, w2)
      /\ exists e,
          call c g w = (Err e, g1, w2) /\ cause e = rejection resp).
Proof.
  intros g1 sent expected He Hw Hr Hu.
  destruct (call_inv c g w) as (r0 & g2 & w3 & r & Ht0 & Hc & Hrel).
  fold g1 in Ht0. fold sent in Ht0.
  split.
  - intros Ht.
    pose proof (trivialActionResp_guard (packet_type c) (packet_of c sent)
                  g1 w w1 x b w2 resp He Hw Hr Hu Ht) as Hg.
    change (wrap32 (pc g1 + 1)) with expected in Hg.
    change (set_pc expected g1) with (set_pc expected g) in Hg.
    rewrite Hg in Ht0.
    assert (Hmis : forall n, resp_Pc resp = Some n -> n <> expected ->
              trivialActionResp (packet_type c) (packet_of c sent) g1 w
              = (Err pc_mismatch, set_pc expected g, w2)).
    { intros n Hn Hne. rewrite Hg, Hn.
      now replace (n =? expected) with false
        by (symmetry; now apply Z.eqb_neq). }
    split; [|split; [|split]].
    + intros Hn. rewrite Hn in *. split; [exact Hg|].
      injection Ht0 as <- <- <-. destruct Hrel as (e' & -> & He').
      now exists e'.
    + intros n Hn Hne. split; [now apply (Hmis n)|].
      rewrite Hn in Ht0.
      replace (n =? expected) with false in Ht0
        by (symmetry; now apply Z.eqb_neq).
      injection Ht0 as <- <- <-. destruct Hrel as (e' & -> & He').
      exists e', (set_pc expected g). repeat split; try assumption.
      cbn. intros E. now apply Hne.
    + intros Hn. apply (Hmis sent Hn).
      intros E. symmetry in E. exact (wrap32_succ_neq sent E).
    + intros Hn. rewrite Hg, Hn. now rewrite Z.eqb_refl.
  - intros Ht.
    pose proof (trivialActionResp_rejected (packet_type c) (packet_of c sent)
                  g1 w w1 x b w2 resp Hw Hr Hu Ht) as Hg.
    split; [exact Hg|].
    rewrite Hg in Ht0. injection Ht0 as <- <- <-.
    destruct Hrel as (e' & -> & He').
    exists e'. split; [exact Hc|]. now rewrite He', cause_rejection.
Qed.

Lemma counter_guard_errors_witness :
  exists e g' w2,
    call (CRotate (B "left")) (ready_game 7)
      (world_of (Server.respond Toy.gcm (B "rotate") 5 []))
    = (Err e, g', w2)
    /\ cause e = pc_mismatch /\ pc g' = 9 /\ pc g' <> 5.
Proof.
  edestruct (counter_guard_errors (CRotate (B "left")) (ready_game 7)
               (world_of (Server.respond Toy.gcm (B "rotate") 5 [])))
    as [H _].
  - reflexivity.
  - vm_compute. reflexivity.
  - vm_compute. reflexivity.
  - vm_compute. reflexivity.
  - destruct (H eq_refl) as (_ & Hm & _).
    destruct (Hm 5 eq_refl) as (_ & e & g' & Hc & He & Hp & Hn).
    + discriminate.
    + exists e, g'. eexists. repeat split; eassumption.
Defined.

(** C10 (no rollback on failure).  For every command and every call of it
    that returns an error.  When the session is encrypted and the request
    was written and a response of the expected type was read and decoded,
    the counter keeps both increments, the one from before the send and
    the one of the validation: it is the value from before the call plus
    two, modulo 2^32, whatever the guard or the command then made of the
    response.  In every other case it keeps the increment from before the
    send: it is the value from before the call plus one.  In no case is it
    the value from before the call, and the rest of the Game is as before
    the call. *)
Theorem no_counter_rollback c g w e g' w' :
  call c g w = (Err e, g', w') ->
  let g1 := set_pc (wrap32 (pc g + 1)) g in
  let answered :=
    Encrypted g = true
    /\ exists w1 x b w2 resp,
        write (packet_of c (pc g1)) g1 w = (Ok tt, g1, w1)
        /\ read false g1 w1 = (Ok (x, b), g1, w2)
        /\ Unmarshal response_zero response_field b = Some resp
        /\ resp_Type resp = packet_type c in
  (answered ->
   g' = set_pc (wrap32 (pc g1 + 1)) g /\ pc g' = wrap32 (pc g + 2))
  /\ (~ answered -> g' = g1 /\ pc g' = wrap32 (pc g + 1))
  /\ (g' = g1
      \/ (Encrypted g = true
          /\ g' = set_pc (wrap32 (pc g1 + 1)) g
          /\ exists w1 x b resp,
              write (packet_of c (pc g1)) g1 w = (Ok tt, g1, w1)
              /\ read false g1 w1 = (Ok (x, b), g1, w')
              /\ Unmarshal response_zero response_field b = Some resp
              /\ resp_Type resp = packet_type c))
  /\ pc g' <> pc g.
Proof.
  intros H g1 answered.
  destruct (call_inv c g w) as (r0 & g2 & w2 & r & Ht & Hc & _).
  rewrite Hc in H. injection H as -> -> ->.
  fold g1 in Ht.
  split; [|split; [|split]].
  - intros (He & w1 & x & b & w3 & resp & Hw & Hr & Hu & Hty).
    rewrite (trivialActionResp_guard _ _ g1 _ _ _ _ _ _ He Hw Hr Hu Hty) in Ht.
    injection Ht as _ <- _. split; [reflexivity|].
    cbn [pc set_pc g1]. apply wrap32_succ_succ.
  - intros Hn.
    apply trivialActionResp_inv in Ht as [[-> _]|(He & -> & Hex)].
    + split; reflexivity.
    + exfalso. apply Hn. split; [exact He|].
      destruct Hex as (w1 & x & b & resp & Hw & Hr & Hu & Hty).
      now exists w1, x, b, w', resp.
  - apply trivialActionResp_inv in Ht as [[-> _]|(He & -> & Hex)].
    + now left.
    + right. now repeat split.
  - apply trivialActionResp_inv in Ht as [[-> _]|(He & -> & Hex)].
    + cbn. apply wrap32_succ_neq.
    + cbn. apply wrap32_succ_succ_neq.
Qed.

Lemma no_counter_rollback_witness :
  exists e g' w',
    call CAttack (ready_game 7)
      (world_of (Server.respond Toy.gcm (B "attack") 7 []))
    = (Err e, g', w')
    /\ g' = ready_game 9 /\ pc g' <> 7.
Proof.
  assert (H : exists e g' w',
             call CAttack (ready_game 7)
               (world_of (Server.respond Toy.gcm (B "attack") 7 []))
             = (Err e, g', w')).
  { eexists _, _, _. vm_compute. reflexivity. }
  destruct H as (e & g' & w' & H).
  exists e, g', w'. split; [exact H|].
  destruct (no_counter_rollback _ _ _ _ _ _ H) as (Ha & _ & _ & Hp).
  split; [|exact Hp].
  apply Ha. split; [reflexivity|].
  eexists _, _, _, _, _.
  split; [vm_compute; reflexivity|].
  split; [vm_compute; reflexivity|].
  split; [vm_compute; reflexivity|reflexivity].
Defined.

(** ** The handshake *)

Lemma keeps_bind_Ok {A B} (m : M A) (k : A -> M B) g w b g' w' :
  keeps m ->
  bind m k g w = (Ok b, g', w') ->
  exists a w1,
    m g w = (Ok a, g, w1) /\ net_in w1 = net_in w
    /\ k a g w1 = (Ok b, g', w').
Proof.
  intros Hm H. apply bind_Ok in H as (a & g1 & w1 & H1 & H2).
  destruct (keeps_Ok _ _ _ _ _ _ Hm H1) as [-> Hin].
  now exists a, w1.
Qed.

Lemma modify_bind_Ok {B} f (k : unit -> M B) g w b g' w' :
  bind (modify f) k g w = (Ok b, g', w') -> k tt (f g) w = (Ok b, g', w').
Proof. intros H. exact H. Qed.

Lemma trivialAction_Ok pt packet g w g' w' :
  trivialAction pt packet g w = (Ok tt, g', w') ->
  g' = (if Encrypted g then set_pc (wrap32 (pc g + 1)) g else g)
  /\ exists l, split_line LF (net_in w) = Some (l, net_in w').
Proof.
  unfold trivialAction. intros H.
  apply bind_Ok in H as (b & g1 & w1 & H1 & H2).
  injection H2 as <- <-. now apply trivialActionResp_Ok in H1.
Qed.

Lemma login_process_Ok ticket g w g' w' :
  Encrypted g = false ->
  login_process ticket g w = (Ok tt, g', w') ->
  exists l1 r1 l2 r2 l3 r3 b resp ipc,
    split_line LF (net_in w) = Some (l1, r1)
    /\ split_line LF r1 = Some (l2, r2)
    /\ split_line LF r2 = Some (l3, r3)
    /\ decrypt64 g (removelast l3) = Ok b
    /\ Unmarshal response_zero response_field b = Some resp
    /\ resp_Pc resp = Some ipc
    /\ g' = set_Player (Some ThePlayer)
              (set_pc (wrap32 (wrap32 (ipc + 1) + 1)) (set_Encrypted true g)).
Proof.
  intros He H. unfold login_process in H.
  apply bind_Ok in H as ([] & g1 & w1 & H1 & H).
  apply trivialAction_Ok in H1 as (-> & l1 & Hl1). rewrite He in *.
  apply keeps_bind_Ok in H as (challengeBuf & w2 & _ & Hin2 & H);
    [|auto with keeps].
  apply keeps_bind_Ok in H as (cipher & w3 & _ & Hin3 & H);
    [|auto with keeps].
  apply keeps_bind_Ok in H as ([] & w4 & _ & Hin4 & H);
    [|auto with keeps].
  apply bind_Ok in H as ([pt b2] & g5 & w5 & Hr & H).
  apply read_Ok in Hr as (-> & l2 & Hl2 & _ & _).
  apply keeps_bind_Ok in H as ([] & w6 & _ & Hin6 & H).
  2:{ destruct (negb _); [|auto with keeps].
      destruct (Unmarshal _ _ _) as [r|]; [|auto with keeps].
      destruct (resp_Error r); auto with keeps. }
  destruct (Unmarshal serverhelloPacket_zero _ _) as [sh|]; [|discriminate].
  destruct (Cipher (sh_Obj sh)) as [c|]; [|discriminate].
  apply keeps_bind_Ok in H as (plain & w7 & _ & Hin7 & H);
    [|auto with keeps].
  destruct (negb (bytes_eqb plain _)); [discriminate|].
  apply modify_bind_Ok in H.
  apply bind_Ok in H as ([pt3 b3] & g8 & w8 & Hr & H).
  apply read_Ok in Hr as (-> & l3 & Hl3 & Hd & _). cbn [Encrypted set_Encrypted] in Hd.
  destruct (negb (bytes_eqb pt3 _)); [discriminate|].
  destruct (Unmarshal response_zero response_field b3) as [resp|] eqn:Hu; [|discriminate].
  destruct (resp_Pc resp) as [ipc|] eqn:Hpc; [|discriminate].
  apply modify_bind_Ok in H.
  unfold agreeconnPacket in H.
  apply bind_Ok in H as (packet & g9 & w9 & Hp & H).
  injection Hp as <- <- <-.
  apply bind_Ok in H as ([] & g10 & w10 & Ht & H).
  apply trivialAction_Ok in Ht as (-> & _).
  injection H as <- <-.
  exists l1, (net_in w1), l2, (net_in w5), l3, (net_in w8), b3, resp, ipc.
  split; [exact Hl1|].
  split; [now rewrite <- Hin2, <- Hin3, <- Hin4|].
  split; [now rewrite <- Hin6, <- Hin7|].
  split; [exact Hd|]. split; [exact Hu|]. split; [exact Hpc|].
  reflexivity.
Qed.

Lemma Join_Ok env authtoken w g w' :
  Join env authtoken w = (Ok g, w') ->
  exists ticket a,
    login_process ticket
      {| conn := Some TheConn; buf := Some TheReader; gcm := Some a;
         pc := 0; Encrypted := false; Player := None |} w
    = (Ok tt, g, w').
Proof.
  unfold Join.
  destruct (http_Get env _) as [body|]; [|discriminate].
  destruct (Decode _ _ body) as [ri|]; [|discriminate].
  destruct (ri_Error ri); [discriminate|].
  destruct (StdEncoding_DecodeString env _) as [keyBuf|]; [|discriminate].
  destruct (NewGCM env keyBuf) as [a|]; [|discriminate].
  destruct (Dial env _); [|discriminate].
  destruct (login_process _ _ w) as [[[[]|e|p] g1] w1] eqn:H; try discriminate.
  intros [= <- <-]. now exists (Ticket ri), a.
Qed.

Lemma calls_Ok cs g w g' w' :
  Encrypted g = true ->
  wrap32 (pc g) = pc g ->
  calls cs g w = (Ok tt, g', w') ->
  pc g' = wrap32 (pc g + 2 * Z.of_nat (length cs)) /\ Encrypted g' = true.
Proof.
  revert g w. induction cs as [|c cs IH]; intros g w He Hr H.
  - injection H as <- <-. cbn [length]. rewrite Z.add_0_r. now split.
  - cbn [calls] in H. apply bind_Ok in H as (a & g1 & w1 & Hc & H).
    apply call_Ok in Hc; [|exact He]. subst g1.
    apply IH in H as [-> ->]; [|exact He|].
    + split; [|reflexivity]. cbn [pc set_pc length].
      rewrite Nat2Z.inj_succ. unfold wrap32.
      Z.div_mod_to_equations. lia.
    + cbn [pc set_pc]. unfold wrap32. Z.div_mod_to_equations. lia.
Qed.

(** C1 (counter law), the claim as stated fails: against a server that
    announces the initial counter 5 and plays the handshake to its end,
    [Join] returns a session whose counter is 7, not 5 + 1, and one
    successful rotate later the counter is 9, not 5 + 1 + 1. *)
Lemma counter_advances_by_two :
  match
    Join test_env (B "token")
      (world_of (Server.handshake Toy.gcm (B "serverhello") test_challenge 5
                 ++ Server.respond Toy.gcm (B "rotate") 9 []))
  with
  | (Ok g, w1) =>
      Encrypted g = true /\ pc g = 7 /\ pc g <> 5 + 1
      /\ match Rotate (B "left") g w1 with
         | (Ok _, g', _) => pc g' = 9 /\ pc g' <> 5 + 1 + 1
         | _ => False
         end
  | _ => False
  end.
Proof.
  vm_compute. repeat split; discriminate.
Qed.

(** C1 (counter law), amended.  The counter advances by two per round
    trip, once when the request is built and once when the response is
    validated.  When [Join] succeeds, the third line the server sent is
    the encrypted initialpc packet; with [ipc] the counter it carries, the
    session returned is encrypted and its counter is [ipc + 2] modulo
    2^32, and after [n] further commands that all succeed the counter is
    [ipc + 2 + 2 n] modulo 2^32. *)
Theorem counter_law env authtoken w g w1 cs g' w' :
  Join env authtoken w = (Ok g, w1) ->
  calls cs g w1 = (Ok tt, g', w') ->
  exists l1 r1 l2 r2 l3 r3 b resp ipc,
    split_line LF (net_in w) = Some (l1, r1)
    /\ split_line LF r1 = Some (l2, r2)
    /\ split_line LF r2 = Some (l3, r3)
    /\ decrypt64 g (removelast l3) = Ok b
    /\ Unmarshal response_zero response_field b = Some resp
    /\ resp_Pc resp = Some ipc
    /\ Encrypted g = true
    /\ pc g = wrap32 (ipc + 2)
    /\ pc g' = wrap32 (ipc + 2 + 2 * Z.of_nat (length cs)).
Proof.
  intros HJ Hc.
  apply Join_Ok in HJ as (ticket & a & HJ).
  apply login_process_Ok in HJ
    as (l1 & r1 & l2 & r2 & l3 & r3 & b & resp & ipc
        & H1 & H2 & H3 & Hd & Hu & Hp & ->); [|reflexivity].
  exists l1, r1, l2, r2, l3, r3, b, resp, ipc.
  repeat (split; [assumption|]).
  split; [reflexivity|].
  assert (Hg : wrap32 (wrap32 (ipc + 1) + 1) = wrap32 (ipc + 2))
    by apply wrap32_succ_succ.
  split; [exact Hg|].
  apply calls_Ok in Hc as [-> _]; [|reflexivity|].
  - cbn [pc set_pc set_Player]. rewrite Hg. unfold wrap32.
    Z.div_mod_to_equations. lia.
  - cbn [pc set_pc set_Player]. unfold wrap32.
    Z.div_mod_to_equations. lia.
Qed.

Lemma counter_law_witness :
  exists ipc g g',
    Encrypted g = true
    /\ pc g = wrap32 (ipc + 2)
    /\ pc g' = wrap32 (ipc + 2 + 2 * Z.of_nat (length [CRotate (B "left")])).
Proof.
  assert (H : exists g w1 g' w',
             Join test_env (B "token")
               (world_of
                  (Server.handshake Toy.gcm (B "serverhello") test_challenge 5
                   ++ Server.respond Toy.gcm (B "rotate") 9 []))
             = (Ok g, w1)
             /\ calls [CRotate (B "left")] g w1 = (Ok tt, g', w')).
  { eexists _, _, _, _.
    split; [vm_compute; reflexivity | vm_compute; reflexivity]. }
  destruct H as (g & w1 & g' & w' & HJ & Hc).
  destruct (counter_law _ _ _ _ _ _ _ _ HJ Hc)
    as (_ & _ & _ & _ & _ & _ & _ & _ & ipc & _ & _ & _ & _ & _ & _ & H).
  now exists ipc, g, g'.
Defined.

(** C2 (serverhello verification).  A server answers clienthello with an
    envelope whose type is not serverhello, without an error field, and
    with the right sealed echo in [obj.cipher]: [Join] does not fail, it
    goes on, switches to encrypted framing and returns a session.  The
    echo itself is checked: the same handshake with a serverhello that
    echoes another challenge fails. *)
Theorem serverhello_type_not_enforced :
  match
    Join test_env (B "token")
      (world_of (Server.handshake Toy.gcm (B "bogus") test_challenge 5))
  with
  | (Ok g, _) => Encrypted g = true /\ Player g = Some ThePlayer
  | _ => False
  end
  /\ fst (Join test_env (B "token")
            (world_of (Server.handshake Toy.gcm (B "serverhello")
                         (test_challenge + 1) 5)))
     = Err (New (B "vikebot: invalid plain text - expecting 'serverhello:"
                 ++ FormatUint test_challenge ++ B "'")).
Proof.
  split; [vm_compute; now split|vm_compute; reflexivity].
Qed.

(** C6 (server errors resurface).  The server answers defend, undefend
    and health with a response of the expected type and counter that
    carries an error field: [Defend] and [Undefend] return no error and
    [GetHealth] returns the value, none of the three reads the field.
    [Rotate] on the same kind of response returns the error. *)
Theorem error_field_not_resurfaced :
  fst (fst (Defend (ready_game 7)
              (world_of (Server.respond Toy.gcm (B "defend") 9
                           (raw ",'error':'not allowed'")))))
  = Ok tt
  /\ fst (fst (Undefend (ready_game 7)
                 (world_of (Server.respond Toy.gcm (B "undefend") 9
                              (raw ",'error':'not allowed'")))))
     = Ok tt
  /\ fst (fst (GetHealth (ready_game 7)
                 (world_of (Server.respond Toy.gcm (B "health") 9
                              (raw ",'obj':{'value':10},'error':'not allowed'")))))
     = Ok 10
  /\ fst (fst (Rotate (B "left") (ready_game 7)
                 (world_of (Server.respond Toy.gcm (B "rotate") 9
                              (raw ",'error':'not allowed'")))))
     = Err (New (B "vikebot: not allowed")).
Proof.
  repeat split; vm_compute; reflexivity.
Qed.

(** ** The JSON scanner and the text of the packets *)

Section PacketText.
Import Json.

Lemma parse_fuel_mono f :
  (forall f' d s r, (f <= f')%nat ->
     parse_value f d s = Some r -> parse_value f' d s = Some r)
  /\ (forall f' d s r, (f <= f')%nat ->
        parse_members f d s = Some r -> parse_members f' d s = Some r)
  /\ (forall f' d s r, (f <= f')%nat ->
        parse_elements f d s = Some r -> parse_elements f' d s = Some r).
Proof.
  induction f as [|f (IHv & IHm & IHe)];
    [repeat split; intros; discriminate|].
  assert (Hv : forall f' d s r, (f <= f')%nat ->
                parse_value f d s = Some r -> parse_value f' d s = Some r)
    by exact IHv.
  repeat split; intros [|f'] d s r Hle H; try lia;
    apply le_S_n in Hle;
    cbn [parse_value parse_members parse_elements] in *.
  - destruct (skip_ws s) as [|c r0]; [discriminate|].
    destruct (byte_eqb c "{").
    { destruct (maxNestingDepth <? d + 1); [discriminate|].
      destruct (skip_ws r0) as [|c' r']; [discriminate|].
      destruct (byte_eqb c' "}"); [exact H|].
      destruct (parse_members f (d + 1) (c' :: r')) as [[m rest]|] eqn:E;
        [|discriminate].
      now rewrite (IHm f' _ _ _ Hle E). }
    destruct (byte_eqb c "[").
    { destruct (maxNestingDepth <? d + 1); [discriminate|].
      destruct (skip_ws r0) as [|c' r']; [discriminate|].
      destruct (byte_eqb c' "]"); [exact H|].
      destruct (parse_elements f (d + 1) (c' :: r')) as [[m rest]|] eqn:E;
        [|discriminate].
      now rewrite (IHe f' _ _ _ Hle E). }
    exact H.
  - destruct (skip_ws s) as [|c r0]; [discriminate|].
    destruct (byte_eqb c DQ); [|discriminate].
    destruct (unquote 0 r0) as [[key r1]|]; [|discriminate].
    destruct (skip_ws r1) as [|c1 r2]; [discriminate|].
    destruct (byte_eqb c1 ":"); [|discriminate].
    destruct (parse_value f d r2) as [[v r3]|] eqn:E; [|discriminate].
    rewrite (IHv f' _ _ _ Hle E).
    destruct (skip_ws r3) as [|c3 r4]; [discriminate|].
    destruct (byte_eqb c3 ","); [|exact H].
    destruct (parse_members f d r4) as [[m rest]|] eqn:E'; [|discriminate].
    now rewrite (IHm f' _ _ _ Hle E').
  - destruct (parse_value f d s) as [[v r1]|] eqn:E; [|discriminate].
    rewrite (IHv f' _ _ _ Hle E).
    destruct (skip_ws r1) as [|c r2]; [discriminate|].
    destruct (byte_eqb c ","); [|exact H].
    destruct (parse_elements f d r2) as [[m rest]|] eqn:E'; [|discriminate].
    now rewrite (IHe f' _ _ _ Hle E').
Qed.

Lemma skip_ws_length s : (length (skip_ws s) <= length s)%nat.
Proof.
  induction s as [|c s IH]; cbn [skip_ws]; [lia|].
  destruct (is_space c); cbn [length]; lia.
Qed.

Lemma skip_ws_cons s c r :
  skip_ws s = c :: r -> (length r < length s)%nat.
Proof.
  intros H. pose proof (skip_ws_length s) as Hl. rewrite H in Hl.
  cbn [length] in Hl. lia.
Qed.

Lemma cons_out_Some c x o r :
  cons_out c x = Some (o, r) -> exists o', x = Some (o', r).
Proof.
  unfold cons_out. destruct x as [[o' r']|]; [|discriminate].
  intros [= <- <-]. now exists o'.
Qed.

Lemma app_out_Some p x o r :
  app_out p x = Some (o, r) -> exists o', x = Some (o', r).
Proof.
  unfold app_out. destruct x as [[o' r']|]; [|discriminate].
  intros [= <- <-]. now exists o'.
Qed.

Lemma unquote_shrinks s : forall k o r,
  unquote k s = Some (o, r) -> (length r < length s)%nat.
Proof.
  induction s as [s IH] using (well_founded_induction
                                 (well_founded_ltof _ (@length byte))).
  unfold ltof in IH.
  assert (step : forall s' k o r,
             (length s' < length s)%nat ->
             unquote k s' = Some (o, r) -> (length r < length s)%nat).
  { intros s' k o r Hl H. apply IH in H; [lia|exact Hl]. }
  clear IH. intros k o r H.
  destruct s as [|c s0]; [discriminate|]. cbn [unquote] in H.
  destruct k as [|k].
  2:{ apply cons_out_Some in H as (o' & H).
      eapply step in H; [exact H|cbn [length]; lia]. }
  destruct (byte_eqb c DQ).
  { injection H as <- <-. cbn [length]. lia. }
  destruct (byte_eqb c BSL).
  { destruct s0 as [|e r0]; [discriminate|].
    destruct (simple_escape e).
    { apply cons_out_Some in H as (o' & H).
      eapply step in H; [exact H|cbn [length]; lia]. }
    destruct (byte_eqb e "u"); [|discriminate].
    destruct r0 as [|h1 [|h2 [|h3 [|h4 r4]]]]; try discriminate.
    destruct (hex4 h1 h2 h3 h4) as [rr|]; [|discriminate].
    destruct ((55296 <=? rr) && (rr <? 57344)).
    2:{ apply app_out_Some in H as (o' & H).
        eapply step in H; [exact H|cbn [length]; lia]. }
    destruct r4 as [|b [|u [|k1 [|k2 [|k3 [|k4 r10]]]]]];
      try (apply app_out_Some in H as (o' & H);
           eapply step in H; [exact H|cbn [length]; lia]).
    destruct (if byte_eqb b BSL && byte_eqb u "u" then hex4 k1 k2 k3 k4
              else None) as [rr1|];
      [destruct ((rr <? 56320) && (56320 <=? rr1) && (rr1 <? 57344))|];
      apply app_out_Some in H as (o' & H);
      (eapply step in H; [exact H|cbn [length]; lia]). }
  destruct (byte_val c <? 32); [discriminate|].
  destruct (byte_val c <? 128).
  { apply cons_out_Some in H as (o' & H).
    eapply step in H; [exact H|cbn [length]; lia]. }
  destruct (rune_tail c s0).
  - apply cons_out_Some in H as (o' & H).
    eapply step in H; [exact H|cbn [length]; lia].
  - apply app_out_Some in H as (o' & H).
    eapply step in H; [exact H|cbn [length]; lia].
Qed.

Lemma span_digits_length s d r :
  span_digits s = (d, r) -> (length r <= length s)%nat.
Proof.
  revert d r. induction s as [|c s IH]; intros d r; cbn [span_digits].
  - intros [= <- <-]. cbn. lia.
  - destruct (is_digit c).
    + destruct (span_digits s) as [d0 r0]. intros [= <- <-].
      specialize (IH d0 r0 eq_refl). cbn [length]. lia.
    + intros [= <- <-]. lia.
Qed.

Lemma scan_number_shrinks s lit r :
  scan_number s = Some (lit, r) -> (length r < length s)%nat.
Proof.
  unfold scan_number.
  assert (Hint : forall s0 i s1, scan_int s0 = Some (i, s1) ->
                   (length s1 < length s0)%nat).
  { intros [|c r0] i s1; cbn [scan_int]; [discriminate|].
    destruct (byte_eqb c "0"); [intros [= <- <-]; cbn; lia|].
    destruct (in_range 49 57 c); [|discriminate].
    destruct (span_digits r0) as [d0 r1] eqn:E. intros [= <- <-].
    apply span_digits_length in E. cbn [length]. lia. }
  assert (Hfrac : forall s1 f s2, scan_frac s1 = Some (f, s2) ->
                    (length s2 <= length s1)%nat).
  { intros [|c r0] f s2; cbn [scan_frac]; [intros [= <- <-]; lia|].
    destruct (byte_eqb c "."); [|intros [= <- <-]; lia].
    destruct (span_digits r0) as [[|x d0] r1] eqn:E; [discriminate|].
    intros [= <- <-]. apply span_digits_length in E. cbn [length]. lia. }
  assert (Hexp : forall s2 e s3, scan_exp s2 = Some (e, s3) ->
                   (length s3 <= length s2)%nat).
  { intros [|c r0] e s3; cbn [scan_exp]; [intros [= <- <-]; lia|].
    destruct (byte_eqb c "e" || byte_eqb c "E"); [|intros [= <- <-]; lia].
    destruct r0 as [|x r1].
    - cbn [span_digits]. discriminate.
    - destruct (byte_eqb x "+" || byte_eqb x "-").
      + destruct (span_digits r1) as [[|y d0] r2] eqn:E; [discriminate|].
        intros [= <- <-]. apply span_digits_length in E. cbn [length]. lia.
      + destruct (span_digits (x :: r1)) as [[|y d0] r2] eqn:E;
          [discriminate|].
        intros [= <- <-]. apply span_digits_length in E.
        cbn [length] in *. lia. }
  destruct s as [|c r0].
  - cbn [scan_int]. discriminate.
  - destruct (byte_eqb c "-").
    + destruct (scan_int r0) as [[i s1]|] eqn:Ei; [|discriminate].
      destruct (scan_frac s1) as [[f s2]|] eqn:Ef; [|discriminate].
      destruct (scan_exp s2) as [[e s3]|] eqn:Ee; [|discriminate].
      intros [= <- <-]. apply Hint in Ei. apply Hfrac in Ef. apply Hexp in Ee.
      cbn [length]. lia.
    + destruct (scan_int (c :: r0)) as [[i s1]|] eqn:Ei; [|discriminate].
      destruct (scan_frac s1) as [[f s2]|] eqn:Ef; [|discriminate].
      destruct (scan_exp s2) as [[e s3]|] eqn:Ee; [|discriminate].
      intros [= <- <-]. apply Hint in Ei. apply Hfrac in Ef. apply Hexp in Ee.
      lia.
Qed.

Lemma strip_prefix_length p s r :
  strip_prefix p s = Some r -> (length r + length p = length s)%nat.
Proof.
  revert s. induction p as [|a p IH]; intros [|b s]; cbn [strip_prefix];
    try discriminate; try (intros [= <-]; cbn; lia).
  destruct (byte_eqb a b); [|discriminate].
  intros H. apply IH in H. cbn [length]. lia.
Qed.

Lemma parse_shrinks f :
  (forall d s v r, parse_value f d s = Some (v, r) ->
     (length r < length s)%nat)
  /\ (forall d s m r, parse_members f d s = Some (m, r) ->
        (length r < length s)%nat)
  /\ (forall d s l r, parse_elements f d s = Some (l, r) ->
        (length r < length s)%nat).
Proof.
  induction f as [|f (IHv & IHm & IHe)];
    [repeat split; intros; discriminate|].
  repeat split; intros d s x r H;
    cbn [parse_value parse_members parse_elements] in H.
  - destruct (skip_ws s) as [|c r0] eqn:Es; [discriminate|].
    apply skip_ws_cons in Es.
    destruct (byte_eqb c "{").
    { destruct (maxNestingDepth <? d + 1); [discriminate|].
      destruct (skip_ws r0) as [|c' r'] eqn:Er; [discriminate|].
      pose proof (skip_ws_length r0) as Hl. rewrite Er in Hl.
      cbn [length] in Hl.
      destruct (byte_eqb c' "}"); [injection H as <- <-; lia|].
      destruct (parse_members f (d + 1) (c' :: r')) as [[m rest]|] eqn:E;
        [|discriminate].
      injection H as <- <-. apply IHm in E. cbn [length] in E. lia. }
    destruct (byte_eqb c "[").
    { destruct (maxNestingDepth <? d + 1); [discriminate|].
      destruct (skip_ws r0) as [|c' r'] eqn:Er; [discriminate|].
      pose proof (skip_ws_length r0) as Hl. rewrite Er in Hl.
      cbn [length] in Hl.
      destruct (byte_eqb c' "]"); [injection H as <- <-; lia|].
      destruct (parse_elements f (d + 1) (c' :: r')) as [[m rest]|] eqn:E;
        [|discriminate].
      injection H as <- <-. apply IHe in E. cbn [length] in E. lia. }
    destruct (byte_eqb c DQ).
    { destruct (unquote 0 r0) as [[str rest]|] eqn:E; [|discriminate].
      injection H as <- <-. apply unquote_shrinks in E. lia. }
    destruct (byte_eqb c "-" || is_digit c).
    { destruct (scan_number (c :: r0)) as [[lit rest]|] eqn:E;
        [|discriminate].
      injection H as <- <-. apply scan_number_shrinks in E.
      cbn [length] in E. lia. }
    destruct (strip_prefix (B "true") (c :: r0)) as [rest|] eqn:E1.
    { injection H as <- <-. apply strip_prefix_length in E1.
      cbn [length] in E1. cbn in E1. lia. }
    destruct (strip_prefix (B "false") (c :: r0)) as [rest|] eqn:E2.
    { injection H as <- <-. apply strip_prefix_length in E2.
      cbn [length] in E2. cbn in E2. lia. }
    destruct (strip_prefix (B "null") (c :: r0)) as [rest|] eqn:E3;
      [|discriminate].
    injection H as <- <-. apply strip_prefix_length in E3.
    cbn [length] in E3. cbn in E3. lia.
  - destruct (skip_ws s) as [|c r0] eqn:Es; [discriminate|].
    apply skip_ws_cons in Es.
    destruct (byte_eqb c DQ); [|discriminate].
    destruct (unquote 0 r0) as [[key r1]|] eqn:Eu; [|discriminate].
    apply unquote_shrinks in Eu.
    destruct (skip_ws r1) as [|c1 r2] eqn:E1; [discriminate|].
    apply skip_ws_cons in E1.
    destruct (byte_eqb c1 ":"); [|discriminate].
    destruct (parse_value f d r2) as [[v r3]|] eqn:Ev; [|discriminate].
    apply IHv in Ev.
    destruct (skip_ws r3) as [|c3 r4] eqn:E3; [discriminate|].
    apply skip_ws_cons in E3.
    destruct (byte_eqb c3 ",").
    { destruct (parse_members f d r4) as [[m rest]|] eqn:Em; [|discriminate].
      injection H as <- <-. apply IHm in Em. lia. }
    destruct (byte_eqb c3 "}"); [|discriminate].
    injection H as <- <-. lia.
  - destruct (parse_value f d s) as [[v r1]|] eqn:Ev; [|discriminate].
    apply IHv in Ev.
    destruct (skip_ws r1) as [|c r2] eqn:E1; [discriminate|].
    apply skip_ws_cons in E1.
    destruct (byte_eqb c ",").
    { destruct (parse_elements f d r2) as [[l rest]|] eqn:Ee; [|discriminate].
      injection H as <- <-. apply IHe in Ee. lia. }
    destruct (byte_eqb c "]"); [|discriminate].
    injection H as <- <-. lia.
Qed.

(** With fuel past twice the length of the input, what more fuel parses
    is parsed already. *)
Lemma parse_fuel_down f :
  forall f', (f <= f')%nat ->
  (forall d s r, (2 * length s + 1 <= f)%nat ->
     parse_value f' d s = Some r -> parse_value f d s = Some r)
  /\ (forall d s r, (2 * length s + 1 <= f)%nat ->
        parse_members f' d s = Some r -> parse_members f d s = Some r)
  /\ (forall d s r, (2 * length s + 2 <= f)%nat ->
        parse_elements f' d s = Some r -> parse_elements f d s = Some r).
Proof.
  induction f as [|f IH]; [repeat split; intros; lia|].
  intros [|f'] Hle; [lia|]. apply le_S_n in Hle.
  destruct (IH f' Hle) as (IHv & IHm & IHe).
  destruct (parse_shrinks f') as (Sv & Sm & Se).
  repeat split; intros d s r Hf H;
    cbn [parse_value parse_members parse_elements] in *.
  - destruct (skip_ws s) as [|c r0] eqn:Es; [discriminate|].
    apply skip_ws_cons in Es.
    destruct (byte_eqb c "{").
    { destruct (maxNestingDepth <? d + 1); [discriminate|].
      destruct (skip_ws r0) as [|c' r'] eqn:Er; [discriminate|].
      pose proof (skip_ws_length r0) as Hl. rewrite Er in Hl.
      destruct (byte_eqb c' "}"); [exact H|].
      destruct (parse_members f' (d + 1) (c' :: r')) as [[m rest]|] eqn:E;
        [|discriminate].
      apply IHm in E; [now rewrite E|lia]. }
    destruct (byte_eqb c "[").
    { destruct (maxNestingDepth <? d + 1); [discriminate|].
      destruct (skip_ws r0) as [|c' r'] eqn:Er; [discriminate|].
      pose proof (skip_ws_length r0) as Hl. rewrite Er in Hl.
      destruct (byte_eqb c' "]"); [exact H|].
      destruct (parse_elements f' (d + 1) (c' :: r')) as [[m rest]|] eqn:E;
        [|discriminate].
      apply IHe in E; [now rewrite E|lia]. }
    exact H.
  - destruct (skip_ws s) as [|c r0] eqn:Es; [discriminate|].
    apply skip_ws_cons in Es.
    destruct (byte_eqb c DQ); [|discriminate].
    destruct (unquote 0 r0) as [[key r1]|] eqn:Eu; [|discriminate].
    apply unquote_shrinks in Eu.
    destruct (skip_ws r1) as [|c1 r2] eqn:E1; [discriminate|].
    apply skip_ws_cons in E1.
    destruct (byte_eqb c1 ":"); [|discriminate].
    destruct (parse_value f' d r2) as [[v r3]|] eqn:Ev; [|discriminate].
    pose proof (Sv _ _ _ _ Ev) as Hs.
    apply IHv in Ev; [rewrite Ev|lia].
    destruct (skip_ws r3) as [|c3 r4] eqn:E3; [discriminate|].
    apply skip_ws_cons in E3.
    destruct (byte_eqb c3 ","); [|exact H].
    destruct (parse_members f' d r4) as [[m rest]|] eqn:Em; [|discriminate].
    apply IHm in Em; [now rewrite Em|lia].
  - destruct (parse_value f' d s) as [[v r1]|] eqn:Ev; [|discriminate].
    pose proof (Sv _ _ _ _ Ev) as Hs.
    apply IHv in Ev; [rewrite Ev|lia].
    destruct (skip_ws r1) as [|c r2] eqn:E1; [discriminate|].
    apply skip_ws_cons in E1.
    destruct (byte_eqb c ","); [|exact H].
    destruct (parse_elements f' d r2) as [[l rest]|] eqn:Ee; [|discriminate].
    apply IHe in Ee; [now rewrite Ee|lia].
Qed.

(** The fuel [parse] gives is enough: no text fails to parse, or parses
    to something else, for lack of it. *)
Lemma parse_fuel_adequate s d f :
  (fuel_for s <= f)%nat ->
  parse_value f d s = parse_value (fuel_for s) d s.
Proof.
  intros Hf.
  destruct (parse_value f d s) as [r|] eqn:E.
  - symmetry.
    apply (proj1 (parse_fuel_down (fuel_for s) f Hf) d s r); [|exact E].
    unfold fuel_for. lia.
  - destruct (parse_value (fuel_for s) d s) as [r|] eqn:E';
      [|reflexivity].
    apply (proj1 (parse_fuel_mono (fuel_for s)) f d s r Hf) in E'.
    congruence.
Qed.

Lemma plain_byte_spec c :
  plain_byte c = true ->
  byte_eqb c DQ = false /\ byte_eqb c BSL = false
  /\ (byte_val c <? 32) = false /\ (byte_val c <? 128) = true.
Proof.
  unfold plain_byte. intros H.
  apply andb_true_iff in H as [H Hb].
  apply andb_true_iff in H as [H Hq].
  apply andb_true_iff in H as [Hlo Hhi].
  apply negb_true_iff in Hb, Hq. apply Z.leb_le in Hlo.
  repeat split; try assumption. apply Z.ltb_ge. lia.
Qed.

Lemma unquote_plain s rest :
  plain_text s = true -> unquote 0 (s ++ DQ :: rest) = Some (s, rest).
Proof.
  induction s as [|c s IH]; intros H.
  - reflexivity.
  - cbn [plain_text forallb] in H. apply andb_true_iff in H as [Hc Hs].
    destruct (plain_byte_spec c Hc) as (Hq & Hb & Hlo & Hhi).
    cbn [List.app unquote]. rewrite Hq, Hb, Hlo, Hhi.
    fold (plain_text s) in Hs. rewrite (IH Hs). reflexivity.
Qed.

Lemma literal_byte_spec c :
  literal_byte c = true ->
  byte_eqb c DQ = false /\ byte_eqb c BSL = false
  /\ (byte_val c <? 32) = false.
Proof.
  unfold literal_byte. intros H.
  apply andb_true_iff in H as [H Hb].
  apply andb_true_iff in H as [Hlo Hq].
  apply negb_true_iff in Hb, Hq. apply Z.leb_le in Hlo.
  repeat split; try assumption. apply Z.ltb_ge. lia.
Qed.

(** [unquote] copies well-formed UTF-8 as it is, rune by rune. *)
Lemma unquote_literal s rest :
  literal_text s = true -> unquote 0 (s ++ DQ :: rest) = Some (s, rest).
Proof.
  unfold literal_text.
  induction s as [s IH]
    using (well_founded_induction (well_founded_ltof _ (@length byte))).
  unfold ltof in IH. intros H. apply andb_true_iff in H as [Hv Hl].
  destruct s as [|c r]; [reflexivity|].
  cbn [forallb] in Hl. apply andb_true_iff in Hl as [Hc Hl].
  destruct (literal_byte_spec c Hc) as (Hq & Hb & Hlo).
  cbn [List.app unquote]. rewrite Hq, Hb, Hlo.
  cbn [ValidString] in Hv.
  destruct (byte_val c <? 128) eqn:E128.
  - rewrite IH; [reflexivity | cbn [length]; lia | now rewrite Hv, Hl].
  - destruct r as [|b1 r1]; [discriminate|].
    cbn [forallb] in Hl. apply andb_true_iff in Hl as [_ Hl].
    cbn [List.app rune_tail].
    destruct (in_range 194 223 c) eqn:E2.
    { apply andb_true_iff in Hv as [H1 Hv]. rewrite H1.
      cbn [unquote].
      rewrite IH; [reflexivity | cbn [length]; lia | now rewrite Hv, Hl]. }
    destruct r1 as [|b2 r2]; [discriminate|].
    cbn [forallb] in Hl. apply andb_true_iff in Hl as [_ Hl].
    cbn [List.app].
    destruct (in_range 224 239 c) eqn:E3.
    { apply andb_true_iff in Hv as [H1 Hv].
      rewrite H1. cbn [unquote].
      rewrite IH; [reflexivity | cbn [length]; lia | now rewrite Hv, Hl]. }
    destruct r2 as [|b3 r3]; [discriminate|].
    cbn [forallb] in Hl. apply andb_true_iff in Hl as [_ Hl].
    cbn [List.app].
    apply andb_true_iff in Hv as [H1 Hv].
    apply andb_true_iff in H1 as [H1 H4].
    apply andb_true_iff in H1 as [H1 H3].
    apply andb_true_iff in H1 as [H1 H2].
    rewrite H1, H2, H3, H4. cbn [andb unquote].
    rewrite IH; [reflexivity | cbn [length]; lia | now rewrite Hv, Hl].
Qed.

Ltac known_bool :=
  match goal with
  | |- context [is_space ?c] =>
      let v := eval vm_compute in (is_space c) in
      match v with
      | true => change (is_space c) with true
      | false => change (is_space c) with false
      end
  | |- context [byte_eqb ?a ?b] =>
      let v := eval vm_compute in (byte_eqb a b) in
      match v with
      | true => change (byte_eqb a b) with true
      | false => change (byte_eqb a b) with false
      end
  | |- context [is_digit ?c] =>
      let v := eval vm_compute in (is_digit c) in
      match v with
      | true => change (is_digit c) with true
      | false => change (is_digit c) with false
      end
  | |- context [in_range ?lo ?hi ?c] =>
      let v := eval vm_compute in (in_range lo hi c) in
      match v with
      | true => change (in_range lo hi c) with true
      | false => change (in_range lo hi c) with false
      end
  end.

(** The first digit of a numeral, split off *)
Ltac head_digit u :=
  match goal with
  | |- context [digits (?D u)] =>
      let h := eval vm_compute in (hd NUL (digits (D Nil))) in
      change (digits (D u)) with (h :: digits u) in *
  end.

Ltac scan := repeat (first [progress cbn [skip_ws] | known_bool]; cbv iota).

Lemma pv_string f d s rest :
  plain_text s = true ->
  parse_value (S f) d (DQ :: s ++ DQ :: rest) = Some (Str s, rest).
Proof.
  intros H. cbn [parse_value]. scan. now rewrite unquote_plain.
Qed.

Lemma pv_literal f d s rest :
  literal_text s = true ->
  parse_value (S f) d (DQ :: s ++ DQ :: rest) = Some (Str s, rest).
Proof.
  intros H. cbn [parse_value]. scan. now rewrite unquote_literal.
Qed.

Lemma pv_null f d rest :
  parse_value (S f) d (B "null" ++ rest) = Some (Null, rest).
Proof. reflexivity. Qed.

Lemma pv_object f d s m rest :
  d + 1 <= maxNestingDepth ->
  parse_members f (d + 1) (DQ :: s) = Some (m, rest) ->
  parse_value (S f) d ("{"%char :: DQ :: s) = Some (Object m, rest).
Proof.
  intros Hd H. cbn [parse_value]. scan.
  replace (maxNestingDepth <? d + 1) with false
    by (symmetry; apply Z.ltb_ge; lia).
  scan. now rewrite H.
Qed.

Lemma pm_key f d key s :
  plain_text key = true ->
  parse_members (S f) d (DQ :: key ++ DQ :: ":"%char :: s)
  = match parse_value f d s with
    | None => None
    | Some (v, r3) =>
        match skip_ws r3 with
        | [] => None
        | c3 :: r4 =>
            if byte_eqb c3 "," then
              match parse_members f d r4 with
              | Some (m, rest) => Some ((key, v) :: m, rest)
              | None => None
              end
            else if byte_eqb c3 "}" then Some ([(key, v)], r4)
            else None
        end
    end.
Proof.
  intros H. cbn [parse_members]. scan.
  rewrite unquote_plain by assumption. scan. reflexivity.
Qed.

Lemma pm_more f d key s v r m rest :
  plain_text key = true ->
  parse_value f d s = Some (v, ","%char :: r) ->
  parse_members f d r = Some (m, rest) ->
  parse_members (S f) d (DQ :: key ++ DQ :: ":"%char :: s)
  = Some ((key, v) :: m, rest).
Proof.
  intros Hk Hv Hm. rewrite pm_key, Hv by assumption. scan. now rewrite Hm.
Qed.

Lemma pm_last f d key s v r :
  plain_text key = true ->
  parse_value f d s = Some (v, "}"%char :: r) ->
  parse_members (S f) d (DQ :: key ++ DQ :: ":"%char :: s)
  = Some ([(key, v)], r).
Proof.
  intros Hk Hv. rewrite pm_key, Hv by assumption. scan. reflexivity.
Qed.

Lemma to_uint_head p : nonzero_head (Pos.to_uint p).
Proof.
  pose proof (DecimalPos.Unsigned.to_of (Pos.to_uint p)) as H.
  rewrite DecimalPos.Unsigned.of_to in H. cbn [N.to_uint] in H.
  pose proof (DecimalPos.Unsigned.to_uint_nonnil p) as Hn.
  pose proof (DecimalPos.Unsigned.to_uint_nonzero p) as Hz.
  destruct (Pos.to_uint p) as [|u|u|u|u|u|u|u|u|u|u]; try exact I.
  - now apply Hn.
  - rewrite DecimalFacts.unorm_D0 in H. unfold unorm in H.
    destruct (nzhead u) as [|u0|u0|u0|u0|u0|u0|u0|u0|u0|u0] eqn:E;
      try discriminate H.
    + now apply Hz.
    + now apply (DecimalFacts.nzhead_nonzero u u0).
Qed.

Lemma span_digits_digits u c rest :
  is_digit c = false ->
  span_digits (digits u ++ c :: rest) = (digits u, c :: rest).
Proof.
  intros Hc.
  induction u;
    try (head_digit u; cbn [List.app span_digits]; scan; now rewrite IHu).
  change (digits Nil) with (@nil byte). cbn [List.app span_digits].
  now rewrite Hc.
Qed.

Lemma scan_int_digits u c rest :
  nonzero_head u -> is_digit c = false ->
  scan_int (digits u ++ c :: rest) = Some (digits u, c :: rest).
Proof.
  intros Hu Hc.
  destruct u; try contradiction;
    head_digit u; cbn [List.app scan_int]; scan;
    now rewrite span_digits_digits.
Qed.

Lemma scan_number_uint u c rest :
  nonzero_head u -> number_end c ->
  scan_number (digits u ++ c :: rest) = Some (digits u, c :: rest).
Proof.
  intros Hu (Hd & Hp & He & HE).
  assert (Hs : scan_int (digits u ++ c :: rest) = Some (digits u, c :: rest))
    by now apply scan_int_digits.
  destruct u; try contradiction;
    head_digit u; cbn [List.app] in *; unfold scan_number; scan; rewrite Hs;
    cbn [scan_frac]; rewrite Hp; cbv iota; cbn [scan_exp]; rewrite He, HE;
    cbn [orb]; cbv iota; cbn [List.app]; now rewrite List.app_nil_r.
Qed.

Lemma scan_number_FormatInt z c rest :
  number_end c ->
  scan_number (FormatInt z ++ c :: rest) = Some (FormatInt z, c :: rest).
Proof.
  intros Hc. pose proof Hc as (Hd & Hp & He & HE).
  destruct z as [|p|p].
  - change (FormatInt 0) with ["0"%char].
    cbn [List.app]. unfold scan_number. scan. cbn [scan_int]. scan.
    cbn [scan_frac]. rewrite Hp. cbv iota. cbn [scan_exp].
    now rewrite He, HE.
  - assert (E : FormatInt (Z.pos p) = digits (Pos.to_uint p)).
    { unfold FormatInt, digits. cbn [Z.to_int NilZero.string_of_int].
      unfold NilZero.string_of_uint.
      pose proof (to_uint_head p) as H.
      destruct (Pos.to_uint p); try reflexivity. contradiction. }
    rewrite E. apply scan_number_uint; [apply to_uint_head|assumption].
  - assert (E : FormatInt (Z.neg p) = "-"%char :: digits (Pos.to_uint p)).
    { unfold FormatInt, digits. cbn [Z.to_int NilZero.string_of_int].
      unfold NilZero.string_of_uint.
      pose proof (to_uint_head p) as H.
      destruct (Pos.to_uint p); try reflexivity. contradiction. }
    rewrite E. cbn [List.app]. unfold scan_number. scan.
    rewrite scan_int_digits by (try apply to_uint_head; assumption).
    cbn [scan_frac]. rewrite Hp. cbv iota. cbn [scan_exp].
    rewrite He, HE. cbn [orb List.app]. now rewrite List.app_nil_r.
Qed.

Lemma pv_number_head f d h t :
  (byte_eqb h "-" || is_digit h) = true ->
  parse_value (S f) d (h :: t)
  = match scan_number (h :: t) with
    | Some (lit, rest) => Some (Number lit, rest)
    | None => None
    end.
Proof.
  destruct h as [[] [] [] [] [] [] [] []]; intros H;
    try discriminate H; reflexivity.
Qed.

Lemma FormatInt_head z :
  exists h t, FormatInt z = h :: t /\ (byte_eqb h "-" || is_digit h) = true.
Proof.
  destruct z as [|p|p].
  - now exists "0"%char, [].
  - pose proof (to_uint_head p) as H.
    unfold FormatInt. cbn [Z.to_int NilZero.string_of_int].
    unfold NilZero.string_of_uint.
    destruct (Pos.to_uint p); try contradiction; eexists _, _; split;
      reflexivity.
  - now eexists "-"%char, _.
Qed.

Lemma pv_number f d z c rest :
  number_end c ->
  parse_value (S f) d (FormatInt z ++ c :: rest)
  = Some (Number (FormatInt z), c :: rest).
Proof.
  intros Hc.
  pose proof (scan_number_FormatInt z c rest Hc) as Hs.
  destruct (FormatInt_head z) as (h & t & E & Hh).
  rewrite E in *. cbn [List.app] in *.
  now rewrite pv_number_head, Hs.
Qed.

Lemma number_end_comma : number_end ",".
Proof. now repeat split. Qed.

Lemma number_end_brace : number_end "}".
Proof. now repeat split. Qed.

Lemma packet_text c n :
  packet_of c n
  = "{"%char :: DQ :: B "type" ++ DQ :: ":"%char :: DQ :: packet_type c
      ++ DQ :: ","%char :: DQ :: B "pc" ++ DQ :: ":"%char :: FormatInt n
      ++ ","%char :: DQ :: B "obj" ++ DQ :: ":"%char
      :: body_text c ["}"%char].
Proof.
  destruct c; reflexivity.
Qed.

Lemma body_parse c f rest :
  literal_args c = true ->
  parse_value (S (S (S f))) 1 (body_text c ("}"%char :: rest))
  = Some (body_of c, "}"%char :: rest).
Proof.
  intros H.
  destruct c; cbn [body_text body_of literal_args] in *;
    try apply pv_null.
  - apply pv_object; [unfold maxNestingDepth; lia|].
    apply pm_last; [reflexivity|]. now apply pv_literal.
  - apply pv_object; [unfold maxNestingDepth; lia|].
    apply pm_last; [reflexivity|]. now apply pv_literal.
  - apply pv_object; [unfold maxNestingDepth; lia|].
    apply pm_last; [reflexivity|]. apply pv_number, number_end_brace.
Qed.

Lemma packet_type_plain c : plain_text (packet_type c) = true.
Proof. destruct c; reflexivity. Qed.

Lemma FormatInt_nonneg n : 0 <= n -> FormatInt n = FormatUint n.
Proof.
  intros H. unfold FormatInt, FormatUint.
  destruct n as [|p|p]; [reflexivity|reflexivity|lia].
Qed.

Lemma envelope_parse c n f :
  literal_args c = true -> 0 <= n ->
  parse_value (S (S (S (S (S (S (S f))))))) 0 (packet_of c n)
  = Some (envelope c n, []).
Proof.
  intros Hc Hn. rewrite packet_text. unfold envelope.
  rewrite <- (FormatInt_nonneg n Hn).
  apply pv_object; [unfold maxNestingDepth; lia|].
  eapply pm_more; [reflexivity| |].
  { apply pv_string, packet_type_plain. }
  eapply pm_more; [reflexivity| |].
  { apply pv_number, number_end_comma. }
  apply pm_last; [reflexivity|].
  now apply body_parse.
Qed.

Lemma packet_parse c n :
  literal_args c = true -> 0 <= n ->
  parse (packet_of c n) = Some (envelope c n).
Proof.
  intros Hc Hn. unfold parse.
  assert (Hf : (7 <= fuel_for (packet_of c n))%nat).
  { rewrite packet_text. unfold fuel_for.
    cbn [length List.app B list_ascii_of_string]. lia. }
  rewrite (proj1 (parse_fuel_mono 7) _ _ _ _ Hf (envelope_parse c n 0 Hc Hn)).
  reflexivity.
Qed.

Lemma uint32_of_FormatUint n :
  0 <= n < 4294967296 -> uint32_of (FormatUint n) = Some n.
Proof.
  intros Hn. unfold uint32_of, ParseUint, FormatUint, B.
  rewrite string_of_list_ascii_of_string.
  rewrite NilZero.usu
    by (destruct (Z.to_N n);
        [discriminate|apply DecimalPos.Unsigned.to_uint_nonnil]).
  rewrite DecimalN.Unsigned.of_to, Z2N.id by lia.
  replace (n <? 2 ^ 64) with true by (symmetry; apply Z.ltb_lt; lia).
  now replace (n <=? 4294967295) with true by (symmetry; apply Z.leb_le; lia).
Qed.

Lemma read_out x g w : net_out (snd (read x g w)) = net_out w.
Proof.
  unfold read, ReadBytes, bind, get, on_err, lift, ret, fail.
  destruct (buf g); [|reflexivity].
  destruct (split_line LF (net_in w)) as [[l rest]|]; [|reflexivity].
  destruct (Encrypted g).
  - destruct (decrypt64 g (removelast l)); try reflexivity.
    destruct (negb x); [reflexivity|].
    destruct (Unmarshal _ _ _); reflexivity.
  - destruct (negb x); [reflexivity|].
    destruct (Unmarshal _ _ _); reflexivity.
Qed.

Lemma trivialActionResp_out pt packet g w :
  net_out (snd (trivialActionResp pt packet g w))
  = net_out (snd (write packet g w)).
Proof.
  unfold trivialActionResp. unfold bind at 1.
  destruct (write packet g w) as [[[[]|e|p] g1] w1]; try reflexivity.
  cbn [snd]. unfold bind at 1. pose proof (read_out false g1 w1) as Hr.
  destruct (read false g1 w1) as [[[[x b]|e|p] g2] w2];
    cbn [snd] in *; try exact Hr.
  unfold_m.
  destruct (Unmarshal _ _ b) as [resp|]; [|exact Hr].
  destruct (negb (bytes_eqb _ _)).
  - destruct (resp_Error resp);
      [destruct (bytes_eqb _ _ || bytes_eqb _ _)|]; exact Hr.
  - destruct (Encrypted g2); [|exact Hr].
    destruct (resp_Pc resp) as [n|]; [destruct (negb (n =? _))|]; exact Hr.
Qed.

Lemma call_out c g w :
  net_out (snd (call c g w))
  = net_out (snd (write (packet_of c (wrap32 (pc g + 1)))
                    (set_pc (wrap32 (pc g + 1)) g) w)).
Proof.
  destruct (call_inv c g w) as (r0 & g2 & w2 & r & Ht & Hc & _).
  rewrite <- trivialActionResp_out with (pt := packet_type c).
  cbn [pc set_pc] in Ht. now rewrite Hc, Ht.
Qed.

(** On a session that is not encrypted the frame writer puts the packet
    and a newline on the wire. *)
Lemma write_plain b g w :
  Encrypted g = false -> conn g <> None -> net_closed w = false ->
  net_fail w = [] ->
  net_out (snd (write b g w)) = net_out w ++ [b ++ [LF]].
Proof.
  intros He Hc Hn Hf. unfold write, conn_Write. unfold_m.
  rewrite He. destruct (conn g); [|congruence].
  now rewrite Hn, Hf.
Qed.

Lemma loginPacket_parse roundticket :
  literal_text roundticket = true ->
  parse (loginPacket roundticket) = Some (login_envelope roundticket).
Proof.
  intros Ht. unfold parse.
  assert (E : loginPacket roundticket
              = "{"%char :: DQ :: B "type" ++ DQ :: ":"%char :: DQ
                  :: B "login" ++ DQ :: ","%char :: DQ :: B "obj" ++ DQ
                  :: ":"%char :: "{"%char :: DQ :: B "roundticket" ++ DQ
                  :: ":"%char :: DQ :: roundticket
                  ++ DQ :: "}"%char :: ["}"%char])
    by reflexivity.
  assert (Hf : (6 <= fuel_for (loginPacket roundticket))%nat).
  { rewrite E. unfold fuel_for.
    cbn [length List.app B list_ascii_of_string]. lia. }
  assert (Hp : parse_value 6 0 (loginPacket roundticket)
               = Some (login_envelope roundticket, [])).
  { rewrite E. unfold login_envelope.
    apply pv_object; [unfold maxNestingDepth; lia|].
    eapply pm_more; [reflexivity| |].
    { now apply pv_string. }
    apply pm_last; [reflexivity|].
    apply pv_object; [unfold maxNestingDepth; lia|].
    apply pm_last; [reflexivity|]. now apply pv_literal. }
  rewrite (proj1 (parse_fuel_mono 6) _ _ _ _ Hf Hp). reflexivity.
Qed.

End PacketText.

(** On an encrypted session the frame writer puts on the wire the base64
    text of the nonce and the sealed packet, and a newline. *)
Lemma write_sealed b g a w :
  Encrypted g = true -> gcm g = Some a ->
  (NonceSize a <= length (rand w))%nat ->
  conn g <> None -> net_closed w = false -> net_fail w = [] ->
  net_out (snd (write b g w))
  = net_out w ++ [Server.frame a (firstn (NonceSize a) (rand w)) b].
Proof.
  intros He Hg Hr Hc Hn Hf. unfold write. unfold bind at 1.
  cbn [get]. rewrite He. unfold bind, on_err, encrypt64. unfold bind.
  rewrite (encrypt_ok g a Hg b w Hr). unfold ret, conn_Write.
  destruct (conn g); [|congruence].
  cbn [net_closed net_fail net_out with_rand]. now rewrite Hn, Hf.
Qed.




(** * Further properties of the code *)

(** ** Further properties of the cipher layer *)

(** X1 (string round trip).  For a cipher that satisfies the AEAD law and
    a random source that can fill a nonce, [encryptStr] takes exactly
    [NonceSize] bytes off the random source and returns a text that
    [decryptStr] opens to the plaintext; [decrypt64] opens the same text
    to the same plaintext. *)
Theorem string_round_trip g a w p :
  gcm g = Some a ->
  AEAD_sound a ->
  (NonceSize a <= length (rand w))%nat ->
  exists c,
    encryptStr p g w
    = (Ok c, g, with_rand (skipn (NonceSize a) (rand w)) w)
    /\ decryptStr g c = Ok p
    /\ decrypt64 g c = Ok p.
Proof.
  intros Hg Ha Hr.
  assert (Hn : length (firstn (NonceSize a) (rand w)) = NonceSize a)
    by (rewrite length_firstn; lia).
  eexists. unfold encryptStr, bind. rewrite (encrypt_ok g a Hg p w Hr).
  split; [reflexivity|]. split.
  - unfold decryptStr. rewrite Decode_Encode. now apply decrypt_sealed.
  - rewrite decrypt64_encoded. now apply decrypt_sealed.
Qed.

Lemma string_round_trip_witness :
  exists c,
    encryptStr (B "clienthello:42") fresh_game (world_of [])
    = (Ok c, fresh_game, with_rand (skipn 12 test_rand) (world_of []))
    /\ decryptStr fresh_game c = Ok (B "clienthello:42")
    /\ decrypt64 fresh_game c = Ok (B "clienthello:42").
Proof.
  apply (string_round_trip fresh_game Toy.gcm (world_of [])
           (B "clienthello:42")).
  - reflexivity.
  - exact Toy_sound.
  - cbn. lia.
Defined.

Lemma split_line_none d s : ~ In d s -> split_line d s = None.
Proof.
  induction s as [|c s IH]; intros H; cbn; [reflexivity|].
  assert (Hc : byte_eqb c d = false).
  { apply not_true_is_false. intros E. apply byte_eqb_eq in E.
    apply H. now left. }
  rewrite Hc, IH; [reflexivity|]. intros Hi. apply H. now right.
Qed.

(** X2 (failures of read).  On a session with a reader: when no newline
    is left in the stream [read] returns the end-of-stream error as it
    is, and the rest of the stream is used up; when the line of an
    encrypted session is not base64, [read] returns the corrupt-input
    error behind the unsecure-connection prefix and the line is used up;
    when the line of a session that is not encrypted is not the JSON of a
    type packet, [read] asked for the type returns the JSON error behind
    the package prefix.  The Game is as before in all three. *)
Theorem read_failures x g w :
  buf g <> None ->
  (~ In LF (net_in w) ->
   read x g w = (Err (LibErr EOF), g, with_in [] w))
  /\ (forall payload rest,
         ~ In LF payload -> net_in w = payload ++ LF :: rest ->
         (Encrypted g = true -> Base64.Decode payload = None ->
          read x g w
          = (Err (Errorf (B "vikebot: unsecure connection - ")
                    (LibErr CorruptInput)), g, with_in rest w))
         /\ (Encrypted g = false ->
             Unmarshal {| tp_Type := [] |} typePacket_field (payload ++ [LF])
             = None ->
             read true g w
             = (Err (Errorf (B "vikebot: ") (LibErr JsonError)), g,
                with_in rest w))).
Proof.
  intros Hb. split.
  - intros Hn. unfold read, ReadBytes. unfold_m.
    destruct (buf g); [|congruence].
    now rewrite (split_line_none LF _ Hn).
  - intros payload rest Hp Hin.
    pose proof (split_line_app LF payload rest Hp) as Hl.
    rewrite <- Hin in Hl. split.
    + intros He Hd. unfold read, ReadBytes. unfold_m.
      destruct (buf g); [|congruence].
      rewrite Hl, He. rewrite removelast_last.
      unfold decrypt64. now rewrite Hd.
    + intros He Hu. unfold read, ReadBytes. unfold_m.
      destruct (buf g); [|congruence].
      rewrite Hl, He. cbn [negb]. now rewrite Hu.
Qed.

Lemma read_failures_witness :
  read false (ready_game 7) (world_of (B "no newline"))
  = (Err (LibErr EOF), ready_game 7, with_in [] (world_of (B "no newline"))).
Proof.
  refine (proj1 (read_failures false (ready_game 7)
                   (world_of (B "no newline")) _) _).
  - discriminate.
  - cbn. intros H. repeat destruct H as [H|H]; try discriminate H; exact H.
Defined.

(** What a successful round trip of the correlator has done *)
Lemma trivialActionResp_Ok_inv pt packet g w b g' w' :
  trivialActionResp pt packet g w = (Ok b, g', w') ->
  exists w1 x resp,
    write packet g w = (Ok tt, g, w1)
    /\ read false g w1 = (Ok (x, b), g, w')
    /\ Unmarshal response_zero response_field b = Some resp
    /\ resp_Type resp = pt
    /\ (if Encrypted g
        then resp_Pc resp = Some (wrap32 (pc g + 1))
             /\ g' = set_pc (wrap32 (pc g + 1)) g
        else g' = g).
Proof.
  intros H. unfold trivialActionResp in H.
  apply bind_Ok in H as ([] & g1 & w1 & Hw & H).
  destruct (keeps_Ok _ _ _ _ _ _ (keeps_write packet) Hw) as [-> _].
  apply bind_Ok in H as ([x b0] & g2 & w2 & Hr & H).
  pose proof (read_game false g w1) as Hg. rewrite Hr in Hg.
  cbn in Hg. subst g2. cbn [snd] in H.
  destruct (Unmarshal response_zero response_field b0) as [resp|] eqn:Hu;
    [|discriminate].
  destruct (bytes_eqb (resp_Type resp) pt) eqn:Ht; cbn [negb] in H.
  - apply bytes_eqb_eq in Ht. unfold_m.
    destruct (Encrypted g) eqn:He.
    + cbn [pc set_pc] in H.
      destruct (resp_Pc resp) as [n|] eqn:Hp; [|discriminate].
      destruct (n =? wrap32 (pc g + 1)) eqn:En; cbn [negb] in H;
        [|discriminate].
      apply Z.eqb_eq in En. subst n.
      injection H as <- <- <-.
      exists w1, x, resp. now repeat split.
    + injection H as <- <- <-.
      exists w1, x, resp. now repeat split.
  - unfold fail in H.
    destruct (resp_Error resp);
      [destruct (bytes_eqb _ _ || bytes_eqb _ _)|]; discriminate.
Qed.

(** X3 (when the correlator succeeds).  [trivialActionResp] returns a
    buffer exactly when the request was written, a response was read and
    decoded, it has the expected type, and, on an encrypted session, it
    carries the counter of the session plus one; the counter is then that
    value.  On a session that is not encrypted the [pc] of the response
    is not looked at and the Game is as before. *)
Theorem trivialActionResp_succeeds pt packet g w b g' w' :
  trivialActionResp pt packet g w = (Ok b, g', w')
  <-> exists w1 x resp,
        write packet g w = (Ok tt, g, w1)
        /\ read false g w1 = (Ok (x, b), g, w')
        /\ Unmarshal response_zero response_field b = Some resp
        /\ resp_Type resp = pt
        /\ (if Encrypted g
            then resp_Pc resp = Some (wrap32 (pc g + 1))
                 /\ g' = set_pc (wrap32 (pc g + 1)) g
            else g' = g).
Proof.
  split.
  - apply trivialActionResp_Ok_inv.
  - intros (w1 & x & resp & Hw & Hr & Hu & Ht & Hg).
    unfold trivialActionResp. unfold bind at 1. rewrite Hw.
    unfold bind at 1. rewrite Hr. cbn [snd]. rewrite Hu, Ht, bytes_eqb_refl.
    cbn [negb]. unfold_m.
    destruct (Encrypted g).
    + destruct Hg as [Hp ->]. rewrite Hp. cbn [pc set_pc].
      now rewrite Z.eqb_refl.
    + now subst g'.
Qed.

Lemma no_close_ret {A} (a : A) : no_close (ret a).
Proof. intros g w. reflexivity. Qed.

Lemma no_close_fail {A} e : no_close (@fail A e).
Proof. intros g w. reflexivity. Qed.

Lemma no_close_throw {A} p : no_close (@throw A p).
Proof. intros g w. reflexivity. Qed.

Lemma no_close_get : no_close get.
Proof. intros g w. reflexivity. Qed.

Lemma no_close_modify f : no_close (modify f).
Proof. intros g w. reflexivity. Qed.

Lemma no_close_lift {A} (f : Game -> result A) : no_close (lift f).
Proof. intros g w. reflexivity. Qed.

Lemma no_close_bind {A B} (m : M A) (k : A -> M B) :
  no_close m -> (forall a, no_close (k a)) -> no_close (bind m k).
Proof.
  intros Hm Hk g w. unfold bind. specialize (Hm g w).
  destruct (m g w) as [[[a|e|p] g1] w1]; cbn in *; try exact Hm.
  rewrite <- Hm. apply Hk.
Qed.

Lemma no_close_on_err {A} f (m : M A) : no_close m -> no_close (on_err f m).
Proof.
  intros Hm g w. destruct (on_err_state f m g w) as [_ ->]. apply Hm.
Qed.

Lemma no_close_rand_ReadFull n : no_close (rand_ReadFull n).
Proof.
  intros g w. unfold rand_ReadFull.
  destruct (n <=? length (rand w))%nat; reflexivity.
Qed.

Lemma no_close_conn_Write b : no_close (conn_Write b).
Proof.
  intros g w. unfold conn_Write.
  destruct (conn g); [|reflexivity].
  destruct (net_closed w) eqn:E; [exact E|].
  destruct (net_fail w) as [|[] fl]; exact E.
Qed.

Lemma no_close_ReadBytes d : no_close (ReadBytes d).
Proof.
  intros g w. unfold ReadBytes.
  destruct (buf g); [|reflexivity].
  destruct (split_line d (net_in w)) as [[l rest]|]; reflexivity.
Qed.

Create HintDb no_close discriminated.
#[local] Hint Resolve no_close_ret no_close_fail no_close_throw no_close_get
  no_close_modify no_close_lift no_close_rand_ReadFull no_close_conn_Write
  no_close_ReadBytes : no_close.

Ltac no_close :=
  repeat match goal with
    | |- no_close (bind _ _) => apply no_close_bind; [|intros ?]
    | |- no_close (on_err _ _) => apply no_close_on_err
    | |- no_close pc_incr => apply no_close_modify
    | |- no_close (match ?x with _ => _ end) => destruct x
    | |- no_close _ => solve [auto with no_close]
    end.

Lemma no_close_write b : no_close (write b).
Proof. unfold write, encrypt64, encrypt. no_close. Qed.

Lemma no_close_read x : no_close (read x).
Proof. unfold read. no_close. Qed.

#[local] Hint Resolve no_close_write no_close_read : no_close.

Lemma no_close_trivialActionResp pt packet :
  no_close (trivialActionResp pt packet).
Proof. unfold trivialActionResp. no_close. Qed.

#[local] Hint Resolve no_close_trivialActionResp : no_close.

Lemma no_close_call c : no_close (call c).
Proof.
  destruct c;
    unfold call, Rotate, Move, Attack, Radar, Watch, Scout, Defend, Undefend,
      GetHealth, int_result, trivialAction;
    no_close.
Qed.

Lemma no_close_login_process ticket : no_close (login_process ticket).
Proof.
  unfold login_process, trivialAction, agreeconnPacket, encryptStr, encrypt.
  no_close.
Qed.

(** X5 (Join closes nothing).  Whatever the outcome of [Join], it has not
    closed the transport: when the login process fails after the
    connection is made, the connection stays open and no Game is returned
    to close it with. *)
Theorem Join_leaves_transport_open env authtoken w :
  net_closed (snd (Join env authtoken w)) = net_closed w.
Proof.
  unfold Join.
  destruct (http_Get env _) as [body|]; [|reflexivity].
  destruct (Decode _ _ body) as [ri|]; [|reflexivity].
  destruct (ri_Error ri); [reflexivity|].
  destruct (StdEncoding_DecodeString env _) as [keyBuf|]; [|reflexivity].
  destruct (NewGCM env keyBuf) as [a|]; [|reflexivity].
  destruct (Dial env _); [|reflexivity].
  match goal with
  | |- context [login_process ?t ?g0 w] =>
      pose proof (no_close_login_process t g0 w) as H;
      destruct (login_process t g0 w) as [[[[]|e|p] g1] w1]
  end; exact H.
Qed.


Lemma write_all_or_nothing_aux b g w :
  snd (fst (write b g w)) = g
  /\ net_in (snd (write b g w)) = net_in w
  /\ (net_out (snd (write b g w)) = net_out w
      \/ exists f, net_out (snd (write b g w)) = net_out w ++ [f]).
Proof.
  destruct (keeps_write b g w) as [Hg Hin].
  split; [exact Hg|]. split; [exact Hin|].
  unfold write, conn_Write, encrypt64, encrypt, rand_ReadFull. unfold_m.
  destruct (Encrypted g).
  - destruct (gcm g) as [a|]; [|now left].
    destruct (NonceSize a <=? length (rand w))%nat; [|now left].
    destruct (conn g); [|now left].
    cbn [net_closed with_rand net_fail net_out].
    destruct (net_closed w); [now left|].
    destruct (net_fail w) as [|[] fl]; cbn; try (now left); right; eexists;
      reflexivity.
  - destruct (conn g); [|now left].
    destruct (net_closed w); [now left|].
    destruct (net_fail w) as [|[] fl]; cbn; try (now left); right; eexists;
      reflexivity.
Qed.

(** ** The base64 alphabet *)

Lemma encode_char_plain v :
  0 <= v < 64 -> plain_byte (Base64.encode_char v) = true.
Proof.
  intros H.
  assert (E : exists n, (n < 64)%nat /\ v = Z.of_nat n).
  { exists (Z.to_nat v). split; lia. }
  destruct E as (n & Hn & ->).
  do 64 (destruct n as [|n]; [reflexivity|]). lia.
Qed.

Lemma Encode_plain x : plain_text (Base64.Encode x) = true.
Proof.
  induction x as [|a|a b|a b c l IH] using list_ind3;
    cbn [Base64.Encode plain_text forallb]; unfold Base64.sextet;
    rewrite ?encode_char_plain by apply sv_range; try reflexivity.
  exact IH.
Qed.

Lemma plain_text_no_LF s : plain_text s = true -> ~ In LF s.
Proof.
  intros H Hin. unfold plain_text in H.
  rewrite forallb_forall in H. specialize (H LF Hin). discriminate H.
Qed.

Lemma plain_literal s : plain_text s = true -> literal_text s = true.
Proof.
  unfold literal_text, plain_text.
  induction s as [|c s IH]; [reflexivity|].
  cbn [forallb ValidString]. intros H.
  apply andb_true_iff in H as [Hc Hs].
  specialize (IH Hs). apply andb_true_iff in IH as [Hv Hl].
  unfold plain_byte in Hc.
  apply andb_true_iff in Hc as [Hc Hb].
  apply andb_true_iff in Hc as [Hc Hq].
  apply andb_true_iff in Hc as [Hlo Hhi].
  rewrite Hhi, Hv, Hl. unfold literal_byte. now rewrite Hlo, Hq, Hb.
Qed.

(** ** Frames *)

Lemma write_Ok b g w g' w' :
  write b g w = (Ok tt, g', w') ->
  g' = g
  /\ if Encrypted g then
       exists a, gcm g = Some a
         /\ (NonceSize a <= length (rand w))%nat
         /\ w' = with_out
                   (net_out w
                    ++ [Server.frame a (firstn (NonceSize a) (rand w)) b])
                   (tl (net_fail w))
                   (with_rand (skipn (NonceSize a) (rand w)) w)
     else w' = with_out (net_out w ++ [b ++ [LF]]) (tl (net_fail w)) w.
Proof.
  unfold write, conn_Write, encrypt64, encrypt, rand_ReadFull. unfold_m.
  destruct (Encrypted g).
  - destruct (gcm g) as [a|]; [|discriminate].
    destruct (NonceSize a <=? length (rand w))%nat eqn:Hr; [|discriminate].
    apply Nat.leb_le in Hr.
    destruct (conn g); [|discriminate].
    cbn [net_closed with_rand net_fail net_out].
    destruct (net_closed w); [discriminate|].
    destruct (net_fail w) as [|[] fl]; try discriminate;
      intros [= <- <-]; (split; [reflexivity|]); exists a; now repeat split.
  - destruct (conn g); [|discriminate].
    destruct (net_closed w); [discriminate|].
    destruct (net_fail w) as [|[] fl]; try discriminate;
      intros [= <- <-]; now split.
Qed.

(** A sealed frame at the head of the input is read back to what was
    sealed. *)
Lemma read_sealed x g a w nonce plain rest :
  buf g <> None -> Encrypted g = true -> gcm g = Some a -> AEAD_sound a ->
  length nonce = NonceSize a ->
  net_in w = Server.frame a nonce plain ++ rest ->
  read x g w
  = (if negb x then Ok ([], plain)
     else match Unmarshal {| tp_Type := [] |} typePacket_field plain with
          | None => Err (Errorf (B "vikebot: ") (LibErr JsonError))
          | Some t => Ok (tp_Type t, plain)
          end, g, with_in rest w).
Proof.
  intros Hb He Hg Ha Hn Hin. unfold Server.frame in Hin.
  rewrite <- app_assoc in Hin. cbn [List.app] in Hin.
  pose proof (split_line_app LF _ rest
                (plain_text_no_LF _
                   (Encode_plain (nonce ++ Seal a nonce plain)))) as Hl.
  rewrite <- Hin in Hl.
  unfold read, ReadBytes. unfold_m.
  destruct (buf g); [|congruence].
  rewrite Hl, He, removelast_last, (decrypt64_encoded g),
    (decrypt_sealed g a Hg Ha nonce plain Hn).
  destruct (negb x); [reflexivity|].
  destruct (Unmarshal _ _ plain); reflexivity.
Qed.

(** X6 (frame round trip).  On an encrypted session with a cipher that
    satisfies the AEAD law: whatever [write] has put on the wire for a
    packet is one frame, and [read] on a session with the same cipher
    that finds this frame at the head of its input returns the packet and
    leaves what follows the frame. *)
Theorem write_read_round_trip g a w b w1 :
  Encrypted g = true -> gcm g = Some a -> AEAD_sound a -> buf g <> None ->
  write b g w = (Ok tt, g, w1) ->
  exists f,
    net_out w1 = net_out w ++ [f]
    /\ forall w2 rest,
        net_in w2 = f ++ rest ->
        read false g w2 = (Ok ([], b), g, with_in rest w2).
Proof.
  intros He Hg Ha Hb Hw.
  apply write_Ok in Hw as [_ Hw]. rewrite He in Hw.
  destruct Hw as (a' & Hg' & Hr & ->).
  assert (a' = a) as -> by congruence.
  eexists. split; [reflexivity|].
  intros w2 rest Hin.
  apply (read_sealed false g a w2 (firstn (NonceSize a) (rand w)) b rest
           Hb He Hg Ha); [|exact Hin].
  rewrite length_firstn. lia.
Qed.

Lemma write_read_round_trip_witness :
  exists f,
    net_out (snd (write (B "ping") (ready_game 7) (world_of [])))
    = net_out (world_of []) ++ [f]
    /\ forall w2 rest,
        net_in w2 = f ++ rest ->
        read false (ready_game 7) w2
        = (Ok ([], B "ping"), ready_game 7, with_in rest w2).
Proof.
  apply (write_read_round_trip (ready_game 7) Toy.gcm (world_of [])
           (B "ping")).
  - reflexivity.
  - reflexivity.
  - exact Toy_sound.
  - discriminate.
  - reflexivity.
Defined.

(** ** What a command touches *)

Lemma trivialActionResp_world pt packet g w :
  snd (trivialActionResp pt packet g w)
  = match write packet g w with
    | (Ok _, g1, w1) => snd (read false g1 w1)
    | (_, _, w1) => w1
    end.
Proof.
  unfold trivialActionResp. unfold bind at 1.
  destruct (write packet g w) as [[[[]|e|p] g1] w1]; try reflexivity.
  unfold bind at 1.
  destruct (read false g1 w1) as [[[[x b]|e|p] g2] w2]; try reflexivity.
  cbn [snd]. unfold_m.
  destruct (Unmarshal _ _ b) as [resp|]; [|reflexivity].
  destruct (negb (bytes_eqb _ _)).
  - destruct (resp_Error resp);
      [destruct (bytes_eqb _ _ || bytes_eqb _ _)|]; reflexivity.
  - destruct (Encrypted g2); [|reflexivity].
    destruct (resp_Pc resp) as [n|]; [destruct (negb (n =? _))|]; reflexivity.
Qed.

Lemma read_world x g w :
  snd (read x g w) = w
  \/ (exists l rest,
         split_line LF (net_in w) = Some (l, rest)
         /\ snd (read x g w) = with_in rest w)
  \/ (split_line LF (net_in w) = None /\ snd (read x g w) = with_in [] w).
Proof.
  unfold read, ReadBytes, bind, get, on_err, lift, ret, fail.
  destruct (buf g); [|now left].
  destruct (split_line LF (net_in w)) as [[l rest]|] eqn:E;
    [|right; right; now split].
  right. left. exists l, rest. split; [reflexivity|].
  destruct (Encrypted g).
  - destruct (decrypt64 g (removelast l)); try reflexivity.
    destruct (negb x); [reflexivity|].
    destruct (Unmarshal _ _ _); reflexivity.
  - destruct (negb x); [reflexivity|].
    destruct (Unmarshal _ _ _); reflexivity.
Qed.

(** X7 (what a command touches).  For every command and every outcome of
    it: the Game differs from the Game before the call in the counter
    only, which is the old one plus one or plus two modulo 2^32; the
    transport is not closed; at most one buffer was handed to the
    transport; and of the input either nothing was read, or one line, or,
    when no newline was left, all of it. *)
Theorem call_footprint c g w :
  let g' := snd (fst (call c g w)) in
  let w' := snd (call c g w) in
  g' = set_pc (pc g') g
  /\ (pc g' = wrap32 (pc g + 1) \/ pc g' = wrap32 (pc g + 2))
  /\ net_closed w' = net_closed w
  /\ (net_out w' = net_out w \/ exists f, net_out w' = net_out w ++ [f])
  /\ (net_in w' = net_in w
      \/ (exists l, split_line LF (net_in w) = Some (l, net_in w'))
      \/ (split_line LF (net_in w) = None /\ net_in w' = [])).
Proof.
  cbv zeta.
  destruct (call_inv c g w) as (r0 & g2 & w2 & r & Ht & Hc & _).
  rewrite Hc. cbn [fst snd].
  pose proof (no_close_call c g w) as Hcl. rewrite Hc in Hcl. cbn [snd] in Hcl.
  pose proof (trivialActionResp_world (packet_type c)
                (packet_of c (pc (set_pc (wrap32 (pc g + 1)) g)))
                (set_pc (wrap32 (pc g + 1)) g) w) as Hw.
  rewrite Ht in Hw. cbn [snd] in Hw.
  pose proof (write_all_or_nothing_aux
                (packet_of c (pc (set_pc (wrap32 (pc g + 1)) g)))
                (set_pc (wrap32 (pc g + 1)) g) w) as Hwr.
  split; [|split; [|split; [exact Hcl|]]].
  - apply trivialActionResp_inv in Ht as [[-> _]|(_ & -> & _)]; reflexivity.
  - apply trivialActionResp_inv in Ht as [[-> _]|(_ & -> & _)].
    + left. reflexivity.
    + right. cbn [pc set_pc]. apply wrap32_succ_succ.
  - destruct (write _ _ w) as [[[[]|e|p] g1] w1]; cbn [fst snd] in *;
      destruct Hwr as (Hg1 & Hin & Hout).
    + subst w2.
      assert (Ho : net_out w1 = net_out w
                   \/ exists f, net_out w1 = net_out w ++ [f]) by exact Hout.
      assert (Hi : net_in (snd (read false g1 w1)) = net_in w1
                   \/ (exists l, split_line LF (net_in w1)
                                 = Some (l, net_in (snd (read false g1 w1))))
                   \/ (split_line LF (net_in w1) = None
                       /\ net_in (snd (read false g1 w1)) = [])).
      { destruct (read_world false g1 w1) as [->|[(l & rest & Hl & ->)|[Hl ->]]].
        - now left.
        - right. left. now exists l.
        - right. right. now split. }
      rewrite read_out, Hin in *. split; assumption.
    + subst w2. rewrite Hin. split; [exact Hout|now left].
    + subst w2. rewrite Hin. split; [exact Hout|now left].
Qed.

Section Envelopes.
Import Json.

Lemma parse_of_value s v f :
  (f <= fuel_for s)%nat ->
  parse_value f 0 s = Some (v, []) -> parse s = Some v.
Proof.
  intros Hf H. unfold parse.
  now rewrite (proj1 (parse_fuel_mono f) _ _ _ _ Hf H).
Qed.

Lemma parse_first_of_value s v r f :
  (f <= fuel_for s)%nat ->
  parse_value f 0 s = Some (v, r) -> parse_first s = Some v.
Proof.
  intros Hf H. unfold parse_first.
  now rewrite (proj1 (parse_fuel_mono f) _ _ _ _ Hf H).
Qed.

Lemma agreeconn_parse n :
  0 <= n ->
  parse (Sprintf (raw "{'type':'agreeconn','pc':%d,'obj':{}}") [D n])
  = Some (agreeconn_envelope n).
Proof.
  intros Hn.
  assert (E : Sprintf (raw "{'type':'agreeconn','pc':%d,'obj':{}}") [D n]
              = "{"%char :: DQ :: B "type" ++ DQ :: ":"%char :: DQ
                  :: B "agreeconn" ++ DQ :: ","%char :: DQ :: B "pc" ++ DQ
                  :: ":"%char :: FormatInt n
                  ++ ","%char :: DQ :: B "obj" ++ DQ :: ":"%char
                  :: "{"%char :: "}"%char :: ["}"%char])
    by reflexivity.
  apply (parse_of_value _ _ 7).
  { rewrite E. unfold fuel_for.
    cbn [length List.app B list_ascii_of_string]. lia. }
  rewrite E. unfold agreeconn_envelope. rewrite <- (FormatInt_nonneg n Hn).
  apply pv_object; [unfold maxNestingDepth; lia|].
  eapply pm_more; [reflexivity| |].
  { now apply pv_string. }
  eapply pm_more; [reflexivity| |].
  { apply pv_number, number_end_comma. }
  apply pm_last; [reflexivity|]. reflexivity.
Qed.

Lemma clienthello_parse c :
  literal_text c = true ->
  parse (clienthelloPacket c) = Some (clienthello_envelope c).
Proof.
  intros Hc.
  assert (E : clienthelloPacket c
              = "{"%char :: DQ :: B "type" ++ DQ :: ":"%char :: DQ
                  :: B "clienthello" ++ DQ :: ","%char :: DQ :: B "obj" ++ DQ
                  :: ":"%char :: "{"%char :: DQ :: B "cipher" ++ DQ
                  :: ":"%char :: DQ :: c ++ DQ :: "}"%char :: ["}"%char])
    by reflexivity.
  apply (parse_of_value _ _ 6).
  { rewrite E. unfold fuel_for.
    cbn [length List.app B list_ascii_of_string]. lia. }
  rewrite E. unfold clienthello_envelope.
  apply pv_object; [unfold maxNestingDepth; lia|].
  eapply pm_more; [reflexivity| |].
  { now apply pv_string. }
  apply pm_last; [reflexivity|].
  apply pv_object; [unfold maxNestingDepth; lia|].
  apply pm_last; [reflexivity|]. now apply pv_literal.
Qed.

Lemma resolver_error_parse e :
  literal_text e = true ->
  parse_first (Sprintf (raw "{'error':'%s'}") [S_ e])
  = Some (Object [(B "error", Str e)]).
Proof.
  intros He.
  assert (E : Sprintf (raw "{'error':'%s'}") [S_ e]
              = "{"%char :: DQ :: B "error" ++ DQ :: ":"%char :: DQ :: e
                  ++ DQ :: ["}"%char])
    by reflexivity.
  apply (parse_first_of_value _ _ [] 3).
  { rewrite E. unfold fuel_for.
    cbn [length List.app B list_ascii_of_string]. lia. }
  rewrite E.
  apply pv_object; [unfold maxNestingDepth; lia|].
  apply pm_last; [reflexivity|]. now apply pv_literal.
Qed.

End Envelopes.

(** ** Decoding into the structs *)

Lemma key_is_excl n1 n2 k :
  key_is n1 k = true ->
  key_is n2 k = bytes_eqb (fold_name (B n2)) (fold_name (B n1)).
Proof.
  unfold key_is. intros H. apply bytes_eqb_eq in H. now rewrite <- H.
Qed.

Lemma fill_sim {T1 T2 : Type}
  (f1 : T1 -> bytes -> Json.value -> option T1)
  (f2 : T2 -> bytes -> Json.value -> option T2) (R : T1 -> T2 -> Prop) :
  (forall t1 t2 k v t1',
      R t1 t2 -> f1 t1 k v = Some t1' ->
      exists t2', f2 t2 k v = Some t2' /\ R t1' t2') ->
  forall m t1 t2 t1',
    R t1 t2 -> fill f1 m t1 = Some t1' ->
    exists t2', fill f2 m t2 = Some t2' /\ R t1' t2'.
Proof.
  intros Hstep. induction m as [|[k v] m IH]; intros t1 t2 t1' HR; cbn.
  - intros [= <-]. now exists t2.
  - destruct (f1 t1 k v) as [u1|] eqn:E1; [|discriminate].
    destruct (Hstep _ _ _ _ _ HR E1) as (u2 & -> & HR').
    now apply IH.
Qed.

Lemma fill_rel {T1 T2 : Type}
  (f1 : T1 -> bytes -> Json.value -> option T1)
  (f2 : T2 -> bytes -> Json.value -> option T2) (R : T1 -> T2 -> Prop) :
  (forall t1 t2 k v t1' t2',
      R t1 t2 -> f1 t1 k v = Some t1' -> f2 t2 k v = Some t2' ->
      R t1' t2') ->
  forall m t1 t2 t1' t2',
    R t1 t2 -> fill f1 m t1 = Some t1' -> fill f2 m t2 = Some t2' ->
    R t1' t2'.
Proof.
  intros Hstep. induction m as [|[k v] m IH]; intros t1 t2 t1' t2' HR; cbn.
  - now intros [= <-] [= <-].
  - destruct (f1 t1 k v) as [u1|] eqn:E1; [|discriminate].
    destruct (f2 t2 k v) as [u2|] eqn:E2; [|discriminate].
    apply IH. now apply (Hstep _ _ _ _ _ _ HR E1 E2).
Qed.

Ltac other_key K n :=
  rewrite (key_is_excl _ n _ K); cbn [B list_ascii_of_string];
  match goal with
  | |- context [bytes_eqb ?x ?y] =>
      let v := eval vm_compute in (bytes_eqb x y) in
      change (bytes_eqb x y) with v
  end; cbv iota.

(** The [error] key is stored the same way into every struct that has
    the field. *)
Lemma errorResp_of_response b resp :
  Unmarshal response_zero response_field b = Some resp ->
  Unmarshal {| er_Error := None |} errorResp_field b
  = Some {| er_Error := resp_Error resp |}.
Proof.
  unfold Unmarshal. destruct (Json.parse b) as [v|]; [|discriminate].
  assert (Hfill : forall m t1 t2 t1',
             er_Error t2 = resp_Error t1 ->
             fill response_field m t1 = Some t1' ->
             exists t2', fill errorResp_field m t2 = Some t2'
                         /\ er_Error t2' = resp_Error t1').
  { apply fill_sim. intros t1 t2 k v0 t1' HR. unfold response_field.
    destruct (key_is "type" k) eqn:K1.
    { destruct (into_string v0 _); [|discriminate]. intros [= <-].
      exists t2. split; [|exact HR].
      unfold errorResp_field. now other_key K1 "error"%string. }
    destruct (key_is "pc" k) eqn:K2.
    { destruct (into_uint32_ptr v0); [|discriminate]. intros [= <-].
      exists t2. split; [|exact HR].
      unfold errorResp_field. now other_key K2 "error"%string. }
    unfold errorResp_field.
    destruct (key_is "error" k).
    { destruct (into_string_ptr v0) as [e|]; [|discriminate].
      intros [= <-]. eexists. split; reflexivity. }
    intros [= <-]. now exists t2. }
  destruct v; cbn [into_struct]; try discriminate.
  - now intros [= <-].
  - intros H.
    destruct (Hfill m response_zero {| er_Error := None |} resp eq_refl H)
      as ([e] & -> & He).
    cbn in He. now subst e.
Qed.

Lemma intResp_of_response name b resp r :
  Unmarshal response_zero response_field b = Some resp ->
  Unmarshal intResp_zero (intResp_field name) b = Some r ->
  ir_Error r = resp_Error resp.
Proof.
  unfold Unmarshal. destruct (Json.parse b) as [v|]; [|discriminate].
  assert (Hfill : forall m t1 t2 t1' t2',
             ir_Error t2 = resp_Error t1 ->
             fill response_field m t1 = Some t1' ->
             fill (intResp_field name) m t2 = Some t2' ->
             ir_Error t2' = resp_Error t1').
  { apply fill_rel. intros t1 t2 k v0 t1' t2' HR.
    unfold response_field, intResp_field.
    destruct (key_is "obj" k) eqn:K0.
    { other_key K0 "type"%string. other_key K0 "pc"%string. other_key K0 "error"%string.
      intros [= <-].
      destruct (into_struct_ptr _ _ _ _); [|discriminate].
      now intros [= <-]. }
    destruct (key_is "error" k) eqn:K3.
    { other_key K3 "type"%string. other_key K3 "pc"%string.
      destruct (into_string_ptr v0) as [e|]; [|discriminate].
      now intros [= <-] [= <-]. }
    destruct (key_is "type" k).
    { destruct (into_string v0 _); [|discriminate].
      now intros [= <-] [= <-]. }
    destruct (key_is "pc" k).
    { destruct (into_uint32_ptr v0); [|discriminate].
      now intros [= <-] [= <-]. }
    now intros [= <-] [= <-]. }
  destruct v; cbn [into_struct]; try discriminate.
  - now intros [= <-] [= <-].
  - intros H1 H2.
    exact (Hfill m response_zero intResp_zero resp r eq_refl H1 H2).
Qed.

Lemma watchResp_of_response b resp r :
  Unmarshal response_zero response_field b = Some resp ->
  Unmarshal watchResp_zero watchResp_field b = Some r ->
  wr_Error r = resp_Error resp.
Proof.
  unfold Unmarshal. destruct (Json.parse b) as [v|]; [|discriminate].
  assert (Hfill : forall m t1 t2 t1' t2',
             wr_Error t2 = resp_Error t1 ->
             fill response_field m t1 = Some t1' ->
             fill watchResp_field m t2 = Some t2' ->
             wr_Error t2' = resp_Error t1').
  { apply fill_rel. intros t1 t2 k v0 t1' t2' HR.
    unfold response_field, watchResp_field.
    destruct (key_is "obj" k) eqn:K0.
    { other_key K0 "type"%string. other_key K0 "pc"%string. other_key K0 "error"%string.
      intros [= <-].
      destruct (into_struct_ptr _ _ _ _); [|discriminate].
      now intros [= <-]. }
    destruct (key_is "error" k) eqn:K3.
    { other_key K3 "type"%string. other_key K3 "pc"%string.
      destruct (into_string_ptr v0) as [e|]; [|discriminate].
      now intros [= <-] [= <-]. }
    destruct (key_is "type" k).
    { destruct (into_string v0 _); [|discriminate].
      now intros [= <-] [= <-]. }
    destruct (key_is "pc" k).
    { destruct (into_uint32_ptr v0); [|discriminate].
      now intros [= <-] [= <-]. }
    now intros [= <-] [= <-]. }
  destruct v; cbn [into_struct]; try discriminate.
  - now intros [= <-] [= <-].
  - intros H1 H2.
    exact (Hfill m response_zero watchResp_zero resp r eq_refl H1 H2).
Qed.

Ltac key_eval :=
  repeat match goal with
    | |- context [key_is ?n ?k] =>
        let v := eval vm_compute in (key_is n k) in
        change (key_is n k) with v; cbv iota
    end.

Lemma response_of_members t n tail :
  0 <= n < 4294967296 ->
  (forall r, fill response_field tail r = Some r) ->
  fill response_field
    ((B "type", Json.Str t) :: (B "pc", Json.Number (FormatInt n)) :: tail)
    response_zero
  = Some {| resp_Type := t; resp_Pc := Some n; resp_Error := None |}.
Proof.
  intros Hn Ht. rewrite FormatInt_nonneg by lia.
  cbn [fill]. unfold response_field at 1. key_eval.
  cbn [into_string option_map]. unfold response_field at 1. key_eval.
  cbn [into_uint32_ptr]. rewrite uint32_of_FormatUint by exact Hn.
  cbn [option_map]. apply Ht.
Qed.

(** X8 (agreeconn packet).  [agreeconnPacket] increments the counter of
    the session and returns the JSON text of the envelope with the type
    agreeconn, the counter after the increment and an empty object; read
    back as a response, the packet gives that type and that counter. *)
Theorem agreeconnPacket_json g w :
  let n := wrap32 (pc g + 1) in
  exists p,
    agreeconnPacket g w = (Ok p, set_pc n g, w)
    /\ Json.parse p = Some (agreeconn_envelope n)
    /\ Unmarshal response_zero response_field p
       = Some {| resp_Type := B "agreeconn"; resp_Pc := Some n;
                 resp_Error := None |}.
Proof.
  intros n.
  assert (Hn : 0 <= n < 4294967296)
    by (apply Z.mod_pos_bound; reflexivity).
  eexists. split; [reflexivity|]. cbn [pc set_pc]. fold n.
  pose proof (agreeconn_parse n (proj1 Hn)) as Hp.
  split; [exact Hp|].
  unfold Unmarshal. rewrite Hp. unfold agreeconn_envelope.
  cbn [into_struct]. rewrite <- (FormatInt_nonneg n (proj1 Hn)).
  apply response_of_members; [exact Hn|reflexivity].
Qed.

Lemma serverhello_of_clienthello c :
  literal_text c = true ->
  Unmarshal serverhelloPacket_zero serverhelloPacket_field
    (clienthelloPacket c)
  = Some {| sh_Type := B "clienthello"; sh_Obj := {| Cipher := Some c |} |}.
Proof.
  intros Hc. unfold Unmarshal. rewrite (clienthello_parse c Hc).
  unfold clienthello_envelope. cbn [into_struct fill].
  unfold serverhelloPacket_field at 1. key_eval.
  cbn [into_string option_map]. unfold serverhelloPacket_field at 1. key_eval.
  cbn [into_struct fill]. unfold serverhelloObj_field. key_eval.
  reflexivity.
Qed.

(** X9 (clienthello packet).  For a cipher that satisfies the AEAD law and
    a random source that can fill a nonce: the text [encryptStr] returns,
    put into [clienthelloPacket], gives the JSON text of the clienthello
    envelope, whatever the plaintext; a peer that decodes the packet the
    way [Join] decodes a serverhello finds the text in [obj.cipher], and
    [decryptStr] opens it to the plaintext. *)
Theorem clienthello_reaches_server g a w p :
  gcm g = Some a ->
  AEAD_sound a ->
  (NonceSize a <= length (rand w))%nat ->
  exists c w',
    encryptStr p g w = (Ok c, g, w')
    /\ Json.parse (clienthelloPacket c) = Some (clienthello_envelope c)
    /\ Unmarshal serverhelloPacket_zero serverhelloPacket_field
         (clienthelloPacket c)
       = Some {| sh_Type := B "clienthello";
                 sh_Obj := {| Cipher := Some c |} |}
    /\ decryptStr g c = Ok p.
Proof.
  intros Hg Ha Hr.
  assert (Hn : length (firstn (NonceSize a) (rand w)) = NonceSize a)
    by (rewrite length_firstn; lia).
  eexists _, _. unfold encryptStr, bind. rewrite (encrypt_ok g a Hg p w Hr).
  split; [reflexivity|].
  assert (Hl : literal_text
                 (Base64.Encode
                    (firstn (NonceSize a) (rand w)
                     ++ Seal a (firstn (NonceSize a) (rand w)) p)) = true)
    by apply plain_literal, Encode_plain.
  split; [now apply clienthello_parse|].
  split; [now apply serverhello_of_clienthello|].
  unfold decryptStr. rewrite Decode_Encode. now apply decrypt_sealed.
Qed.

Lemma clienthello_reaches_server_witness :
  exists c w',
    encryptStr (B "clienthello:42") fresh_game (world_of []) = (Ok c, fresh_game, w')
    /\ Json.parse (clienthelloPacket c) = Some (clienthello_envelope c)
    /\ Unmarshal serverhelloPacket_zero serverhelloPacket_field
         (clienthelloPacket c)
       = Some {| sh_Type := B "clienthello";
                 sh_Obj := {| Cipher := Some c |} |}
    /\ decryptStr fresh_game c = Ok (B "clienthello:42").
Proof.
  apply (clienthello_reaches_server fresh_game Toy.gcm (world_of [])
           (B "clienthello:42")).
  - reflexivity.
  - exact Toy_sound.
  - cbn. lia.
Defined.

(** X10 (resolver error).  When the resolver answers with an object whose
    [error] is a string, [Join] returns that string behind the package
    prefix, and the world is as before: no key is set up and no
    connection is made, whatever the rest of the environment would do.
    Stated for the strings that are their own JSON string. *)
Theorem resolver_error_surfaces env authtoken w e :
  literal_text e = true ->
  http_Get env
    (B "https://api.vikebot.com/v1/roundentry/connectinfo/" ++ authtoken)
  = Some (Sprintf (raw "{'error':'%s'}") [S_ e]) ->
  Join env authtoken w = (Err (New (B "vikebot: " ++ e)), w).
Proof.
  intros He Hget. unfold Join. rewrite Hget.
  unfold Decode. rewrite (resolver_error_parse e He).
  cbn [into_struct fill]. unfold roundInformation_field. key_eval.
  reflexivity.
Qed.

Lemma resolver_error_surfaces_witness :
  Join {| http_Get := fun _ => Some (raw "{'error':'round is over'}");
          StdEncoding_DecodeString := fun k => Some k;
          NewGCM := fun _ => Some Toy.gcm;
          Dial := fun _ => true |}
    (B "token") (world_of [])
  = (Err (New (B "vikebot: round is over")), world_of []).
Proof.
  apply (resolver_error_surfaces _ (B "token") (world_of [])
           (B "round is over")); reflexivity.
Defined.

(** ** The error field and the commands *)

Ltac run_command Ht :=
  cbv [call Rotate Move Attack Radar Watch Scout Defend Undefend GetHealth
       trivialAction bind pc_incr modify get on_err];
  cbn [packet_type packet_of pc set_pc] in Ht |- *;
  rewrite Ht.

(** X11 (Rotate and Move).  Once the round trip of [Rotate] or [Move] has
    returned a buffer, the outcome of the command is decided by the
    [error] of the response envelope alone: with an error the command
    returns it behind the package prefix, without one it returns no
    error.  The Game and the world are as the round trip left them. *)
Theorem rotate_move_outcome g w b g2 w2 resp :
  Unmarshal response_zero response_field b = Some resp ->
  let g1 := set_pc (wrap32 (pc g + 1)) g in
  let verdict :=
    match resp_Error resp with
    | Some e => Err (New (B "vikebot: " ++ e))
    | None => Ok tt
    end in
  (forall angle,
      trivialActionResp (B "rotate") (packet_of (CRotate angle) (pc g1)) g1 w
      = (Ok b, g2, w2) ->
      Rotate angle g w = (verdict, g2, w2))
  /\ (forall direction,
         trivialActionResp (B "move") (packet_of (CMove direction) (pc g1))
           g1 w
         = (Ok b, g2, w2) ->
         Move direction g w = (verdict, g2, w2)).
Proof.
  intros Hu g1 verdict. subst g1 verdict.
  split; intros s Ht; run_command Ht;
    rewrite (errorResp_of_response b resp Hu); cbn [er_Error];
    destruct (resp_Error resp); reflexivity.
Qed.

Lemma rotate_move_outcome_witness :
  exists g2 w2,
    Rotate (B "left") (ready_game 7)
      (world_of (Server.respond Toy.gcm (B "rotate") 9
                   (raw ",'error':'not allowed'")))
    = (Err (New (B "vikebot: not allowed")), g2, w2).
Proof.
  eexists _, _.
  refine (proj1 (rotate_move_outcome (ready_game 7)
                   (world_of (Server.respond Toy.gcm (B "rotate") 9
                                (raw ",'error':'not allowed'")))
                   (raw "{'type':'rotate','pc':9,'error':'not allowed'}")
                   _ _
                   {| resp_Type := B "rotate"; resp_Pc := Some 9;
                      resp_Error := Some (B "not allowed") |} _)
            (B "left") _).
  - vm_compute. reflexivity.
  - vm_compute. reflexivity.
Defined.

(** X12 (the error field resurfaces).  For Rotate, Move, Attack, Radar,
    Watch and Scout: once the round trip has returned a buffer whose
    envelope carries an [error], the command returns no value; it returns
    the error of the server behind the package prefix, or, when the
    buffer does not decode into the struct of the command, the JSON
    error. *)
Theorem error_field_resurfaces c g w b g2 w2 resp e :
  resurfaces c = true ->
  let g1 := set_pc (wrap32 (pc g + 1)) g in
  trivialActionResp (packet_type c) (packet_of c (pc g1)) g1 w
  = (Ok b, g2, w2) ->
  Unmarshal response_zero response_field b = Some resp ->
  resp_Error resp = Some e ->
  exists err,
    call c g w = (Err err, g2, w2)
    /\ (err = New (B "vikebot: " ++ e)
        \/ err = Errorf (B "vikebot: ") (LibErr JsonError)).
Proof.
  intros Hc g1 Ht Hu He. subst g1.
  destruct c; try discriminate Hc; run_command Ht.
  - rewrite (errorResp_of_response b resp Hu). cbn [er_Error]. rewrite He.
    eexists. split; [reflexivity|now left].
  - rewrite (errorResp_of_response b resp Hu). cbn [er_Error]. rewrite He.
    eexists. split; [reflexivity|now left].
  - unfold int_result, attackResp_field, fail.
    destruct (Unmarshal intResp_zero _ b) as [r|] eqn:E.
    + rewrite (intResp_of_response _ b resp r Hu E), He.
      eexists. split; [reflexivity|now left].
    + eexists. split; [reflexivity|now right].
  - unfold int_result, radarResp_field, fail.
    destruct (Unmarshal intResp_zero _ b) as [r|] eqn:E.
    + rewrite (intResp_of_response _ b resp r Hu E), He.
      eexists. split; [reflexivity|now left].
    + eexists. split; [reflexivity|now right].
  - unfold fail.
    destruct (Unmarshal watchResp_zero _ b) as [r|] eqn:E.
    + rewrite (watchResp_of_response b resp r Hu E), He.
      eexists. split; [reflexivity|now left].
    + eexists. split; [reflexivity|now right].
  - unfold int_result, scoutResp_field, fail.
    destruct (Unmarshal intResp_zero _ b) as [r|] eqn:E.
    + rewrite (intResp_of_response _ b resp r Hu E), He.
      eexists. split; [reflexivity|now left].
    + eexists. split; [reflexivity|now right].
Qed.

Lemma error_field_resurfaces_witness :
  exists err g2 w2,
    call CAttack (ready_game 7)
      (world_of (Server.respond Toy.gcm (B "attack") 9
                   (raw ",'obj':{'health':3},'error':'too far'")))
    = (Err err, g2, w2)
    /\ (err = New (B "vikebot: " ++ B "too far")
        \/ err = Errorf (B "vikebot: ") (LibErr JsonError)).
Proof.
  edestruct (error_field_resurfaces CAttack (ready_game 7)
               (world_of (Server.respond Toy.gcm (B "attack") 9
                            (raw ",'obj':{'health':3},'error':'too far'"))))
    as (err & H & Hor).
  - reflexivity.
  - vm_compute. reflexivity.
  - vm_compute. reflexivity.
  - reflexivity.
  - exists err. eexists _, _. split; [exact H|exact Hor].
Defined.

(** ** A round trip from end to end *)

Section Replies.
Import Json.

Lemma bare_parse t n :
  plain_text t = true -> 0 <= n ->
  parse (Sprintf (raw "{'type':'%s','pc':%d}") [S_ t; D n])
  = Some (Object [(B "type", Str t); (B "pc", Number (FormatInt n))]).
Proof.
  intros Ht Hn.
  assert (E : Sprintf (raw "{'type':'%s','pc':%d}") [S_ t; D n]
              = "{"%char :: DQ :: B "type" ++ DQ :: ":"%char :: DQ :: t
                  ++ DQ :: ","%char :: DQ :: B "pc" ++ DQ :: ":"%char
                  :: FormatInt n ++ ["}"%char])
    by reflexivity.
  apply (parse_of_value _ _ 4).
  { rewrite E. unfold fuel_for.
    cbn [length List.app B list_ascii_of_string]. lia. }
  rewrite E.
  apply pv_object; [unfold maxNestingDepth; lia|].
  eapply pm_more; [reflexivity| |].
  { now apply pv_string. }
  apply pm_last; [reflexivity|].
  apply pv_number, number_end_brace.
Qed.

Lemma value_parse t n key v :
  plain_text t = true -> plain_text key = true -> 0 <= n ->
  parse (Sprintf (raw "{'type':'%s','pc':%d,'obj':{'%s':%d}}")
           [S_ t; D n; S_ key; D v])
  = Some (Object [(B "type", Str t); (B "pc", Number (FormatInt n));
                  (B "obj", Object [(key, Number (FormatInt v))])]).
Proof.
  intros Ht Hk Hn.
  assert (E : Sprintf (raw "{'type':'%s','pc':%d,'obj':{'%s':%d}}")
                [S_ t; D n; S_ key; D v]
              = "{"%char :: DQ :: B "type" ++ DQ :: ":"%char :: DQ :: t
                  ++ DQ :: ","%char :: DQ :: B "pc" ++ DQ :: ":"%char
                  :: FormatInt n
                  ++ ","%char :: DQ :: B "obj" ++ DQ :: ":"%char
                  :: "{"%char :: DQ :: key ++ DQ :: ":"%char
                  :: FormatInt v ++ "}"%char :: ["}"%char])
    by reflexivity.
  apply (parse_of_value _ _ 7).
  { rewrite E. unfold fuel_for.
    cbn [length List.app B list_ascii_of_string]. lia. }
  rewrite E.
  apply pv_object; [unfold maxNestingDepth; lia|].
  eapply pm_more; [reflexivity| |].
  { now apply pv_string. }
  eapply pm_more; [reflexivity| |].
  { apply pv_number, number_end_comma. }
  apply pm_last; [reflexivity|].
  apply pv_object; [unfold maxNestingDepth; lia|].
  apply pm_last; [assumption|].
  apply pv_number, number_end_brace.
Qed.

End Replies.

Lemma ParseInt_FormatInt v :
  - 2 ^ 63 <= v < 2 ^ 63 -> ParseInt (FormatInt v) = Some v.
Proof.
  intros Hv. unfold ParseInt, FormatInt, B.
  rewrite string_of_list_ascii_of_string.
  rewrite NilZero.isi.
  - rewrite DecimalZ.of_to.
    replace (- 2 ^ 63 <=? v) with true by (symmetry; apply Z.leb_le; lia).
    now replace (v <? 2 ^ 63) with true by (symmetry; apply Z.ltb_lt; lia).
  - destruct v as [|p|p]; try discriminate.
    intros [= E]. now apply (DecimalPos.Unsigned.to_uint_nonnil p).
  - destruct v as [|p|p]; try discriminate.
    intros [= E]. now apply (DecimalPos.Unsigned.to_uint_nonnil p).
Qed.

Lemma key_is_refl name : key_is name (B name) = true.
Proof. unfold key_is. apply bytes_eqb_refl. Qed.

Lemma reply_response c n v :
  0 <= n < 4294967296 ->
  Unmarshal response_zero response_field (reply c n v)
  = Some {| resp_Type := packet_type c; resp_Pc := Some n;
            resp_Error := None |}.
Proof.
  intros Hn. unfold Unmarshal, reply.
  destruct (value_key c) as [key|] eqn:K.
  - rewrite value_parse;
      [|apply packet_type_plain
       |destruct c; try discriminate K; injection K as <-; reflexivity
       |lia].
    cbn [into_struct]. apply response_of_members; [exact Hn|reflexivity].
  - rewrite bare_parse; [|apply packet_type_plain|lia].
    cbn [into_struct]. apply response_of_members; [exact Hn|reflexivity].
Qed.

Lemma bare_reply_response c n :
  0 <= n < 4294967296 ->
  Unmarshal response_zero response_field (bare_reply c n)
  = Some {| resp_Type := packet_type c; resp_Pc := Some n;
            resp_Error := None |}.
Proof.
  intros Hn. unfold Unmarshal, bare_reply.
  rewrite bare_parse; [|apply packet_type_plain|lia].
  cbn [into_struct]. apply response_of_members; [exact Hn|reflexivity].
Qed.

Lemma intResp_reply name t n v :
  plain_text t = true -> plain_text (B name) = true -> 0 <= n ->
  - 2 ^ 63 <= v < 2 ^ 63 ->
  Unmarshal intResp_zero (intResp_field name)
    (Sprintf (raw "{'type':'%s','pc':%d,'obj':{'%s':%d}}")
       [S_ t; D n; S_ (B name); D v])
  = Some {| obj_Int := Some (Some v); ir_Error := None |}.
Proof.
  intros Ht Hk Hn Hv. unfold Unmarshal.
  rewrite value_parse by assumption.
  cbn [into_struct fill].
  unfold intResp_field at 1. key_eval.
  unfold intResp_field at 1. key_eval.
  unfold intResp_field at 1. key_eval.
  cbn [into_struct_ptr fill obj_Int intResp_zero].
  unfold intObj_field. rewrite key_is_refl.
  cbn [into_int_ptr]. now rewrite ParseInt_FormatInt.
Qed.

Lemma healthResp_reply t n v :
  plain_text t = true -> 0 <= n -> - 2 ^ 63 <= v < 2 ^ 63 ->
  Unmarshal {| hr_Obj := None |} healthResp_field
    (Sprintf (raw "{'type':'%s','pc':%d,'obj':{'%s':%d}}")
       [S_ t; D n; S_ (B "value"); D v])
  = Some {| hr_Obj := Some (Some v) |}.
Proof.
  intros Ht Hn Hv. unfold Unmarshal.
  rewrite value_parse; [|assumption|reflexivity|assumption].
  cbn [into_struct fill].
  unfold healthResp_field at 1. key_eval.
  unfold healthResp_field at 1. key_eval.
  unfold healthResp_field at 1. key_eval.
  cbn [into_struct_ptr fill hr_Obj].
  unfold intObj_field. rewrite key_is_refl.
  cbn [into_int_ptr]. now rewrite ParseInt_FormatInt.
Qed.

(** One round trip of the correlator against a peer that seals its
    response under the same cipher and answers with the expected type and
    counter. *)
Lemma round_trip_run pt packet g a w nonce text rest resp :
  conn g <> None -> buf g <> None -> Encrypted g = true ->
  gcm g = Some a -> AEAD_sound a ->
  net_closed w = false -> hd false (net_fail w) = false ->
  (NonceSize a <= length (rand w))%nat ->
  length nonce = NonceSize a ->
  net_in w = Server.frame a nonce text ++ rest ->
  Unmarshal response_zero response_field text = Some resp ->
  resp_Type resp = pt ->
  resp_Pc resp = Some (wrap32 (pc g + 1)) ->
  trivialActionResp pt packet g w
  = (Ok text, set_pc (wrap32 (pc g + 1)) g, after_round_trip a w packet rest).
Proof.
  intros Hc Hb He Hg Ha Hcl Hf Hr Hn Hin Hu Ht Hp.
  assert (Hw : write packet g w
               = (Ok tt, g,
                  with_out
                    (net_out w
                     ++ [Server.frame a (firstn (NonceSize a) (rand w))
                           packet])
                    (tl (net_fail w))
                    (with_rand (skipn (NonceSize a) (rand w)) w))).
  { unfold write. unfold bind at 1. cbn [get]. rewrite He.
    unfold bind, on_err, encrypt64. unfold bind.
    rewrite (encrypt_ok g a Hg packet w Hr). unfold ret, conn_Write.
    destruct (conn g); [|congruence].
    cbn [net_closed net_fail net_out with_rand]. rewrite Hcl.
    destruct (net_fail w) as [|[] fl]; try discriminate Hf; reflexivity. }
  remember (with_out
              (net_out w
               ++ [Server.frame a (firstn (NonceSize a) (rand w)) packet])
              (tl (net_fail w))
              (with_rand (skipn (NonceSize a) (rand w)) w)) as w1 eqn:Ew1.
  assert (Hin1 : net_in w1 = Server.frame a nonce text ++ rest)
    by (subst w1; exact Hin).
  pose proof (read_sealed false g a w1 nonce text rest Hb He Hg Ha Hn Hin1)
    as Hrd.
  cbn [negb] in Hrd.
  rewrite (trivialActionResp_guard pt packet g w w1 [] text (with_in rest w1)
             resp He Hw Hrd Hu Ht), Hp, Z.eqb_refl.
  subst w1. reflexivity.
Qed.

(** X13 (a command from end to end).  On an encrypted session with open
    transport, a cipher that satisfies the AEAD law and a random source
    that can fill a nonce, against a server that answers with a frame
    sealed under the same cipher which carries the type of the command,
    the counter of the session plus two and, for Attack, Radar, Scout and
    GetHealth, the value [v] under the key of the command: every command
    but Watch returns no error, the four return [v], the counter of the
    session has advanced by two, the sealed request is on the wire and
    the frame of the response is off the input. *)
Theorem command_end_to_end c g a w nonce v rest :
  c <> CWatch ->
  conn g <> None -> buf g <> None -> Encrypted g = true ->
  gcm g = Some a -> AEAD_sound a ->
  net_closed w = false -> hd false (net_fail w) = false ->
  (NonceSize a <= length (rand w))%nat ->
  length nonce = NonceSize a ->
  - 2 ^ 63 <= v < 2 ^ 63 ->
  net_in w = Server.frame a nonce (reply c (wrap32 (pc g + 2)) v) ++ rest ->
  call c g w
  = (Ok (answer_of c v), set_pc (wrap32 (pc g + 2)) g,
     after_round_trip a w (packet_of c (wrap32 (pc g + 1))) rest).
Proof.
  intros Hw Hc Hb He Hg Ha Hcl Hf Hr Hn Hv Hin.
  assert (Hn2 : 0 <= wrap32 (pc g + 2) < 4294967296)
    by (apply Z.mod_pos_bound; reflexivity).
  pose proof (reply_response c _ v Hn2) as Hu.
  pose proof (round_trip_run (packet_type c)
                (packet_of c (wrap32 (pc g + 1)))
                (set_pc (wrap32 (pc g + 1)) g) a w nonce _ rest _
                Hc Hb He Hg Ha Hcl Hf Hr Hn Hin Hu eq_refl) as Ht.
  cbn [pc set_pc resp_Pc] in Ht. rewrite wrap32_succ_succ in Ht.
  specialize (Ht eq_refl).
  change (set_pc (wrap32 (pc g + 2)) (set_pc (wrap32 (pc g + 1)) g))
    with (set_pc (wrap32 (pc g + 2)) g) in Ht.
  destruct c; try congruence; run_command Ht; unfold answer_of, ret;
    cbn [value_key].
  - rewrite (errorResp_of_response _ _ Hu). reflexivity.
  - rewrite (errorResp_of_response _ _ Hu). reflexivity.
  - unfold int_result, attackResp_field, reply. cbn [value_key packet_type].
    now rewrite intResp_reply.
  - unfold int_result, radarResp_field, reply. cbn [value_key packet_type].
    now rewrite intResp_reply.
  - unfold int_result, scoutResp_field, reply. cbn [value_key packet_type].
    now rewrite intResp_reply.
  - reflexivity.
  - reflexivity.
  - unfold reply. cbn [value_key packet_type].
    now rewrite healthResp_reply.
Qed.

Lemma command_end_to_end_witness :
  call CAttack (ready_game 7)
    (world_of (Server.frame Toy.gcm Server.nonce1
                 (reply CAttack (wrap32 (7 + 2)) 3) ++ B "next"))
  = (Ok (Int 3), ready_game 9,
     after_round_trip Toy.gcm
       (world_of (Server.frame Toy.gcm Server.nonce1
                    (reply CAttack (wrap32 (7 + 2)) 3) ++ B "next"))
       (packet_of CAttack (wrap32 (7 + 1))) (B "next")).
Proof.
  apply (command_end_to_end CAttack (ready_game 7) Toy.gcm
           (world_of (Server.frame Toy.gcm Server.nonce1
                        (reply CAttack (wrap32 (7 + 2)) 3) ++ B "next"))
           Server.nonce1 3 (B "next")); try reflexivity;
    try discriminate.
  - exact Toy_sound.
  - cbn. lia.
  - lia.
Defined.

Lemma bare_decodes {T : Type} (zero : T)
  (field : T -> bytes -> Json.value -> option T) c n :
  0 <= n ->
  (forall v, field zero (B "type") v = Some zero) ->
  (forall v, field zero (B "pc") v = Some zero) ->
  Unmarshal zero field (bare_reply c n) = Some zero.
Proof.
  intros Hn H1 H2. unfold Unmarshal, bare_reply.
  rewrite bare_parse; [|apply packet_type_plain|exact Hn].
  cbn [into_struct fill]. now rewrite H1, H2.
Qed.

(** X14 (a response without a value).  Under the conditions of X13,
    against a server whose response carries the type of the command and
    the counter the guard expects and nothing else: Attack, Radar, Watch,
    Scout and GetHealth return the invalid-response error of the command,
    after the guard has accepted the response; the counter of the session
    has advanced by two all the same. *)
Theorem value_missing_is_invalid c g a w nonce rest err :
  invalid_packet c = Some err ->
  conn g <> None -> buf g <> None -> Encrypted g = true ->
  gcm g = Some a -> AEAD_sound a ->
  net_closed w = false -> hd false (net_fail w) = false ->
  (NonceSize a <= length (rand w))%nat ->
  length nonce = NonceSize a ->
  net_in w = Server.frame a nonce (bare_reply c (wrap32 (pc g + 2))) ++ rest ->
  call c g w
  = (Err err, set_pc (wrap32 (pc g + 2)) g,
     after_round_trip a w (packet_of c (wrap32 (pc g + 1))) rest).
Proof.
  intros Hi Hc Hb He Hg Ha Hcl Hf Hr Hn Hin.
  assert (Hn2 : 0 <= wrap32 (pc g + 2) < 4294967296)
    by (apply Z.mod_pos_bound; reflexivity).
  pose proof (bare_reply_response c _ Hn2) as Hu.
  pose proof (round_trip_run (packet_type c)
                (packet_of c (wrap32 (pc g + 1)))
                (set_pc (wrap32 (pc g + 1)) g) a w nonce _ rest _
                Hc Hb He Hg Ha Hcl Hf Hr Hn Hin Hu eq_refl) as Ht.
  cbn [pc set_pc resp_Pc] in Ht. rewrite wrap32_succ_succ in Ht.
  specialize (Ht eq_refl).
  change (set_pc (wrap32 (pc g + 2)) (set_pc (wrap32 (pc g + 1)) g))
    with (set_pc (wrap32 (pc g + 2)) g) in Ht.
  destruct c; try discriminate Hi; injection Hi as <-; run_command Ht;
    unfold int_result, attackResp_field, radarResp_field, scoutResp_field;
    rewrite bare_decodes by (first [exact (proj1 Hn2) | reflexivity]);
    reflexivity.
Qed.

Lemma value_missing_is_invalid_witness :
  call CGetHealth (ready_game 7)
    (world_of (Server.frame Toy.gcm Server.nonce1
                 (bare_reply CGetHealth (wrap32 (7 + 2)))))
  = (Err (New (B "vikebot: invalid health-response packet")), ready_game 9,
     after_round_trip Toy.gcm
       (world_of (Server.frame Toy.gcm Server.nonce1
                    (bare_reply CGetHealth (wrap32 (7 + 2)))))
       (packet_of CGetHealth (wrap32 (7 + 1))) []).
Proof.
  apply (value_missing_is_invalid CGetHealth (ready_game 7) Toy.gcm
           (world_of (Server.frame Toy.gcm Server.nonce1
                        (bare_reply CGetHealth (wrap32 (7 + 2)))))
           Server.nonce1 []); try reflexivity; try discriminate.
  - exact Toy_sound.
  - cbn. lia.
Defined.

(** ** The handshake, step by step *)

Lemma on_err_Ok {A} f (m : M A) g w a g' w' :
  on_err f m g w = (Ok a, g', w') -> m g w = (Ok a, g', w').
Proof.
  unfold on_err. destruct (m g w) as [[[x|e|p] g1] w1]; now intros [= <- <- <-].
Qed.

Lemma rand_ReadFull_Ok n g w b g' w' :
  rand_ReadFull n g w = (Ok b, g', w') ->
  (n <= length (rand w))%nat /\ b = firstn n (rand w) /\ g' = g
  /\ w' = with_rand (skipn n (rand w)) w.
Proof.
  unfold rand_ReadFull.
  destruct (n <=? length (rand w))%nat eqn:E; [|discriminate].
  apply Nat.leb_le in E. now intros [= <- <- <-].
Qed.

Lemma encryptStr_Ok p g a w c g' w' :
  gcm g = Some a ->
  encryptStr p g w = (Ok c, g', w') ->
  (NonceSize a <= length (rand w))%nat
  /\ c = Base64.Encode (firstn (NonceSize a) (rand w)
                        ++ Seal a (firstn (NonceSize a) (rand w)) p)
  /\ g' = g
  /\ w' = with_rand (skipn (NonceSize a) (rand w)) w.
Proof.
  intros Hg. unfold encryptStr, encrypt. unfold_m. rewrite Hg.
  unfold rand_ReadFull.
  destruct (NonceSize a <=? length (rand w))%nat eqn:E; [|discriminate].
  apply Nat.leb_le in E. now intros [= <- <- <-].
Qed.

Lemma read_Ok_world x g w pt b g' w' :
  read x g w = (Ok (pt, b), g', w') ->
  exists l rest,
    split_line LF (net_in w) = Some (l, rest)
    /\ g' = g /\ w' = with_in rest w
    /\ (if Encrypted g then decrypt64 g (removelast l) = Ok b else b = l)
    /\ (x = true ->
        exists t, Unmarshal {| tp_Type := [] |} typePacket_field b = Some t
                  /\ pt = tp_Type t).
Proof.
  unfold read, ReadBytes, bind, get, on_err, lift, ret, fail.
  destruct (buf g); [|discriminate].
  destruct (split_line LF (net_in w)) as [[l rest]|]; [|discriminate].
  destruct (Encrypted g).
  - destruct (decrypt64 g (removelast l)) as [plain| |] eqn:Hd;
      try discriminate.
    destruct x; cbn [negb].
    + destruct (Unmarshal _ _ plain) as [t|] eqn:Ht; [|discriminate].
      intros [= <- <- <- <-]. exists l, rest.
      repeat split; try reflexivity; try assumption. intros _. now exists t.
    + intros [= <- <- <- <-]. exists l, rest.
      repeat split; try reflexivity; try assumption. discriminate.
  - destruct x; cbn [negb].
    + destruct (Unmarshal _ _ l) as [t|] eqn:Ht; [|discriminate].
      intros [= <- <- <- <-]. exists l, rest.
      repeat split; try reflexivity. intros _. now exists t.
    + intros [= <- <- <- <-]. exists l, rest.
      repeat split; try reflexivity. discriminate.
Qed.

(** A successful round trip, with the world it leaves *)
Lemma trivialAction_Ok_world pt packet g w g' w' :
  trivialAction pt packet g w = (Ok tt, g', w') ->
  exists w1 l rest b resp,
    write packet g w = (Ok tt, g, w1)
    /\ split_line LF (net_in w1) = Some (l, rest)
    /\ w' = with_in rest w1
    /\ (if Encrypted g then decrypt64 g (removelast l) = Ok b else b = l)
    /\ Unmarshal response_zero response_field b = Some resp
    /\ resp_Type resp = pt
    /\ (if Encrypted g
        then resp_Pc resp = Some (wrap32 (pc g + 1))
             /\ g' = set_pc (wrap32 (pc g + 1)) g
        else g' = g).
Proof.
  unfold trivialAction. intros H.
  apply bind_Ok in H as (b & g1 & w1 & H1 & H2).
  injection H2 as <- <-.
  apply trivialActionResp_Ok_inv in H1
    as (w2 & x & resp & Hw & Hr & Hu & Ht & Hg).
  apply read_Ok_world in Hr as (l & rest & Hl & _ & -> & Hb & _).
  now exists w2, l, rest, b, resp.
Qed.

Lemma snoc3 {A} (o : list A) a b c :
  ((o ++ [a]) ++ [b]) ++ [c] = o ++ [a; b; c].
Proof. now rewrite <- !app_assoc. Qed.

Lemma World_eq (u v : World) :
  net_in u = net_in v -> net_out u = net_out v -> net_fail u = net_fail v ->
  net_closed u = net_closed v -> rand u = rand v -> u = v.
Proof.
  destruct u, v. cbn. now intros -> -> -> -> ->.
Qed.

(** The check of the type of the serverhello: it returns on an error
    field only, and touches nothing. *)
Lemma hello_type_check_Ok pt b g w g' w' :
  (if negb (bytes_eqb pt (B "serverhello")) then
     match Unmarshal response_zero response_field b with
     | None => fail (Errorf (B "vikebot: ") (LibErr JsonError))
     | Some resp =>
         match resp_Error resp with
         | Some e => fail (New (B "vikebot: " ++ e))
         | None => ret tt
         end
     end
   else ret tt) g w = (Ok tt, g', w') ->
  g' = g /\ w' = w.
Proof.
  unfold_m.
  destruct (negb _); [|now intros [= <- <-]].
  destruct (Unmarshal response_zero response_field b) as [r|];
    [|discriminate].
  destruct (resp_Error r); [discriminate|].
  now intros [= <- <-].
Qed.

Lemma login_process_inv ticket g a w g' w' :
  Encrypted g = false -> gcm g = Some a ->
  login_process ticket g w = (Ok tt, g', w') ->
  let ns := NonceSize a in
  let challenge := FormatUint (BigEndian_Uint64 (firstn 8 (rand w))) in
  let n1 := firstn ns (skipn 8 (rand w)) in
  let n2 := firstn ns (skipn ns (skipn 8 (rand w))) in
  exists l1 r1 resp1 l2 r2 sh c l3 r3 b3 t3 resp3 ipc l4 r4 b4 resp4,
    ((8 <= length (rand w))%nat
     /\ (ns <= length (skipn 8 (rand w)))%nat
     /\ (ns <= length (skipn ns (skipn 8 (rand w))))%nat)
    /\ (split_line LF (net_in w) = Some (l1, r1)
        /\ Unmarshal response_zero response_field l1 = Some resp1
        /\ resp_Type resp1 = B "login")
    /\ (split_line LF r1 = Some (l2, r2)
        /\ Unmarshal serverhelloPacket_zero serverhelloPacket_field l2
           = Some sh
        /\ Cipher (sh_Obj sh) = Some c
        /\ decryptStr g c = Ok (B "serverhello:" ++ challenge))
    /\ (split_line LF r2 = Some (l3, r3)
        /\ decrypt64 g (removelast l3) = Ok b3
        /\ Unmarshal {| tp_Type := [] |} typePacket_field b3 = Some t3
        /\ tp_Type t3 = B "initialpc"
        /\ Unmarshal response_zero response_field b3 = Some resp3
        /\ resp_Pc resp3 = Some ipc)
    /\ (split_line LF r3 = Some (l4, r4)
        /\ decrypt64 g (removelast l4) = Ok b4
        /\ Unmarshal response_zero response_field b4 = Some resp4
        /\ resp_Type resp4 = B "agreeconn"
        /\ resp_Pc resp4 = Some (wrap32 (ipc + 2)))
    /\ g' = set_Player (Some ThePlayer)
              (set_pc (wrap32 (ipc + 2)) (set_Encrypted true g))
    /\ w' = {| net_in := r4;
               net_out :=
                 net_out w
                 ++ [loginPacket ticket ++ [LF];
                     clienthelloPacket
                       (Base64.Encode
                          (n1 ++ Seal a n1 (B "clienthello:" ++ challenge)))
                     ++ [LF];
                     Server.frame a n2
                       (Sprintf (raw "{'type':'agreeconn','pc':%d,'obj':{}}")
                          [D (wrap32 (ipc + 1))])];
               net_fail := tl (tl (tl (net_fail w)));
               net_closed := net_closed w;
               rand := skipn ns (skipn ns (skipn 8 (rand w))) |}.
Proof.
  intros He Hg H ns challenge n1 n2. unfold login_process in H.
  (* login *)
  apply bind_Ok in H as ([] & g1 & w1 & H1 & H).
  apply trivialAction_Ok_world in H1
    as (w1a & l1 & r1 & b1 & resp1 & Hw1 & Hl1 & -> & Hb1 & Hu1 & Ht1 & Hg1).
  rewrite He in Hb1, Hg1. subst b1 g1.
  apply write_Ok in Hw1 as [_ Hw1]. rewrite He in Hw1. subst w1a.
  cbn [net_in with_out] in Hl1.
  (* the challenge *)
  apply bind_Ok in H as (challengeBuf & g2 & w2 & H2 & H).
  apply on_err_Ok, rand_ReadFull_Ok in H2 as (Hr8 & -> & -> & ->).
  cbn [rand with_in with_out] in Hr8, H.
  (* clienthello *)
  apply bind_Ok in H as (cipher & g3 & w3 & H3 & H).
  apply on_err_Ok, (encryptStr_Ok _ _ a) in H3 as (Hr1 & -> & -> & ->);
    [|exact Hg].
  cbn [rand with_in with_out with_rand] in Hr1, H.
  apply bind_Ok in H as ([] & g4 & w4 & H4 & H).
  apply write_Ok in H4 as [-> H4]. rewrite He in H4. subst w4.
  (* serverhello *)
  apply bind_Ok in H as ([pt2 b2] & g5 & w5 & H5 & H).
  apply read_Ok_world in H5 as (l2 & r2 & Hl2 & -> & -> & Hb2 & _).
  rewrite He in Hb2. subst b2.
  cbn [net_in with_in with_out with_rand] in Hl2.
  apply bind_Ok in H as ([] & g6 & w6 & H6 & H).
  apply hello_type_check_Ok in H6 as [-> ->].
  destruct (Unmarshal serverhelloPacket_zero _ l2) as [sh|] eqn:Hsh;
    [|discriminate].
  destruct (Cipher (sh_Obj sh)) as [c|] eqn:Hc; [|discriminate].
  apply bind_Ok in H as (plain & g7 & w7 & H7 & H).
  unfold lift in H7. injection H7 as Hd <- <-.
  destruct (bytes_eqb plain _) eqn:Hecho; cbn [negb] in H; [|discriminate].
  apply bytes_eqb_eq in Hecho. subst plain.
  (* encryption on, initialpc *)
  apply modify_bind_Ok in H.
  apply bind_Ok in H as ([pt3 b3] & g8 & w8 & H8 & H).
  apply read_Ok_world in H8 as (l3 & r3 & Hl3 & -> & -> & Hb3 & Ht3).
  cbn [Encrypted set_Encrypted] in Hb3.
  destruct (Ht3 eq_refl) as (t3 & Hut3 & ->).
  cbn [net_in with_in] in Hl3.
  destruct (bytes_eqb (tp_Type t3) _) eqn:Hty3; cbn [negb] in H;
    [|discriminate].
  apply bytes_eqb_eq in Hty3.
  destruct (Unmarshal response_zero response_field b3) as [resp3|] eqn:Hu3;
    [|discriminate].
  destruct (resp_Pc resp3) as [ipc|] eqn:Hpc; [|discriminate].
  apply modify_bind_Ok in H.
  (* agreeconn *)
  unfold agreeconnPacket in H.
  apply bind_Ok in H as (packet & g9 & w9 & Hp & H).
  injection Hp as <- <- <-.
  apply bind_Ok in H as ([] & g10 & w10 & Ht & H).
  apply trivialAction_Ok_world in Ht
    as (w9a & l4 & r4 & b4 & resp4 & Hw4 & Hl4 & -> & Hb4 & Hu4 & Ht4 & Hg4).
  cbn [Encrypted set_Encrypted set_pc pc] in Hb4, Hg4.
  destruct Hg4 as [Hpc4 ->].
  apply write_Ok in Hw4 as [_ Hw4].
  cbn [Encrypted set_Encrypted set_pc gcm] in Hw4.
  destruct Hw4 as (a' & Hg' & Hr2 & ->).
  assert (a' = a) as -> by congruence.
  cbn [rand net_in net_out net_fail with_in with_out with_rand] in Hr2, Hl4.
  injection H as <- <-.
  rewrite wrap32_succ_succ in Hpc4.
  exists l1, r1, resp1, l2, r2, sh, c, l3, r3, b3, t3, resp3, ipc, l4, r4, b4,
    resp4.
  split; [repeat split; assumption|].
  split; [repeat split; assumption|].
  split; [repeat split; assumption|].
  split; [repeat split; assumption|].
  split; [repeat split; assumption|].
  split.
  - unfold set_Player, set_pc, set_Encrypted. cbn.
    now rewrite wrap32_succ_succ.
  - apply World_eq;
      cbn [net_in net_out net_fail net_closed rand with_in with_out
           with_rand]; try reflexivity.
    apply snoc3.
Qed.

Lemma Join_inv env authtoken w g w' :
  Join env authtoken w = (Ok g, w') ->
  exists body ri keyBuf a,
    http_Get env
      (B "https://api.vikebot.com/v1/roundentry/connectinfo/" ++ authtoken)
    = Some body
    /\ Decode roundInformation_zero roundInformation_field body = Some ri
    /\ ri_Error ri = None
    /\ StdEncoding_DecodeString env (AesKey ri) = Some keyBuf
    /\ NewGCM env keyBuf = Some a
    /\ Dial env (Sprintf (B "%s:%d") [S_ (IPV4 ri); D (Port ri)]) = true
    /\ login_process (Ticket ri)
         {| conn := Some TheConn; buf := Some TheReader; gcm := Some a;
            pc := 0; Encrypted := false; Player := None |} w
       = (Ok tt, g, w').
Proof.
  unfold Join.
  destruct (http_Get env _) as [body|] eqn:E1; [|discriminate].
  destruct (Decode _ _ body) as [ri|] eqn:E2; [|discriminate].
  destruct (ri_Error ri) eqn:E3; [discriminate|].
  destruct (StdEncoding_DecodeString env _) as [keyBuf|] eqn:E4;
    [|discriminate].
  destruct (NewGCM env keyBuf) as [a|] eqn:E5; [|discriminate].
  destruct (Dial env _) eqn:E6; [|discriminate].
  destruct (login_process _ _ w) as [[[[]|e|p] g1] w1] eqn:H; try discriminate.
  intros [= <- <-]. now exists body, ri, keyBuf, a.
Qed.

(** X15 (what a successful Join has checked).  When [Join] returns a
    Game, the server has sent four lines, and nothing of what follows
    them was read: a response of the type login; a line whose
    [obj.cipher], opened with the cipher of the session, is the text
    serverhello: followed by the challenge, which is the first eight bytes
    of the random source read as a big-endian number; a sealed packet of
    the type initialpc with a counter [ipc]; and a sealed response of the
    type agreeconn with the counter [ipc + 2].  The Game has the
    connection, the reader, the cipher and the Player, it is encrypted,
    and its counter is [ipc + 2] modulo 2^32. *)
Theorem Join_guarantees env authtoken w g w' :
  Join env authtoken w = (Ok g, w') ->
  exists a l1 r1 resp1 l2 r2 sh c l3 r3 b3 t3 resp3 ipc l4 b4 resp4,
    (conn g = Some TheConn /\ buf g = Some TheReader /\ gcm g = Some a
     /\ Encrypted g = true /\ Player g = Some ThePlayer
     /\ pc g = wrap32 (ipc + 2))
    /\ (split_line LF (net_in w) = Some (l1, r1)
        /\ Unmarshal response_zero response_field l1 = Some resp1
        /\ resp_Type resp1 = B "login")
    /\ (split_line LF r1 = Some (l2, r2)
        /\ Unmarshal serverhelloPacket_zero serverhelloPacket_field l2
           = Some sh
        /\ Cipher (sh_Obj sh) = Some c
        /\ decryptStr g c
           = Ok (B "serverhello:"
                 ++ FormatUint (BigEndian_Uint64 (firstn 8 (rand w)))))
    /\ (split_line LF r2 = Some (l3, r3)
        /\ decrypt64 g (removelast l3) = Ok b3
        /\ Unmarshal {| tp_Type := [] |} typePacket_field b3 = Some t3
        /\ tp_Type t3 = B "initialpc"
        /\ Unmarshal response_zero response_field b3 = Some resp3
        /\ resp_Pc resp3 = Some ipc)
    /\ (split_line LF r3 = Some (l4, net_in w')
        /\ decrypt64 g (removelast l4) = Ok b4
        /\ Unmarshal response_zero response_field b4 = Some resp4
        /\ resp_Type resp4 = B "agreeconn"
        /\ resp_Pc resp4 = Some (wrap32 (ipc + 2))).
Proof.
  intros HJ.
  apply Join_inv in HJ as (body & ri & keyBuf & a & _ & _ & _ & _ & _ & _ & HL).
  apply (login_process_inv _ _ a) in HL; [|reflexivity|reflexivity].
  cbv zeta in HL.
  destruct HL as (l1 & r1 & resp1 & l2 & r2 & sh & c & l3 & r3 & b3 & t3
                  & resp3 & ipc & l4 & r4 & b4 & resp4
                  & _ & H1 & H2 & H3 & H4 & -> & ->).
  exists a, l1, r1, resp1, l2, r2, sh, c, l3, r3, b3, t3, resp3, ipc, l4, b4,
    resp4.
  split; [now repeat split|].
  split; [exact H1|].
  split; [exact H2|].
  split; [exact H3|exact H4].
Qed.

Lemma Join_guarantees_witness :
  exists g w' ipc,
    Join test_env (B "token")
      (world_of (Server.handshake Toy.gcm (B "serverhello") test_challenge 5))
    = (Ok g, w')
    /\ Encrypted g = true /\ Player g = Some ThePlayer
    /\ pc g = wrap32 (ipc + 2).
Proof.
  assert (H : exists g w',
             Join test_env (B "token")
               (world_of (Server.handshake Toy.gcm (B "serverhello")
                            test_challenge 5))
             = (Ok g, w')).
  { eexists _, _. vm_compute. reflexivity. }
  destruct H as (g & w' & H).
  destruct (Join_guarantees _ _ _ _ _ H)
    as (a & l1 & r1 & resp1 & l2 & r2 & sh & c & l3 & r3 & b3 & t3 & resp3
        & ipc & l4 & b4 & resp4 & (_ & _ & _ & He & Hp & Hpc) & _).
  exists g, w', ipc. split; [exact H|]. split; [exact He|].
  split; [exact Hp|exact Hpc].
Defined.

(** X16 (what Join puts on the wire).  When [Join] returns a Game, the
    resolver, the key setup and the dialer have all answered, and exactly
    three buffers were handed to the transport: the login packet with the
    ticket of the resolver and the clienthello packet, both in the clear,
    and the sealed agreeconn packet, which carries the counter of the
    initialpc packet plus one.  The random source has given the eight
    bytes of the challenge, then the nonce of the clienthello, then the
    nonce of the agreeconn frame, and nothing more; the transport is not
    closed. *)
Theorem Join_transcript env authtoken w g w' :
  Join env authtoken w = (Ok g, w') ->
  exists body ri keyBuf a ipc,
    (http_Get env
       (B "https://api.vikebot.com/v1/roundentry/connectinfo/" ++ authtoken)
     = Some body
     /\ Decode roundInformation_zero roundInformation_field body = Some ri
     /\ ri_Error ri = None
     /\ StdEncoding_DecodeString env (AesKey ri) = Some keyBuf
     /\ NewGCM env keyBuf = Some a
     /\ Dial env (Sprintf (B "%s:%d") [S_ (IPV4 ri); D (Port ri)]) = true)
    /\ gcm g = Some a /\ pc g = wrap32 (ipc + 2)
    /\ let ns := NonceSize a in
       let challenge := FormatUint (BigEndian_Uint64 (firstn 8 (rand w))) in
       let n1 := firstn ns (skipn 8 (rand w)) in
       let n2 := firstn ns (skipn ns (skipn 8 (rand w))) in
       net_out w'
       = net_out w
         ++ [loginPacket (Ticket ri) ++ [LF];
             clienthelloPacket
               (Base64.Encode
                  (n1 ++ Seal a n1 (B "clienthello:" ++ challenge)))
             ++ [LF];
             Server.frame a n2
               (Sprintf (raw "{'type':'agreeconn','pc':%d,'obj':{}}")
                  [D (wrap32 (ipc + 1))])]
       /\ length n1 = ns /\ length n2 = ns
       /\ rand w' = skipn ns (skipn ns (skipn 8 (rand w)))
       /\ net_closed w' = net_closed w.
Proof.
  intros HJ.
  apply Join_inv in HJ
    as (body & ri & keyBuf & a & E1 & E2 & E3 & E4 & E5 & E6 & HL).
  apply (login_process_inv _ _ a) in HL; [|reflexivity|reflexivity].
  cbv zeta in HL.
  destruct HL as (l1 & r1 & resp1 & l2 & r2 & sh & c & l3 & r3 & b3 & t3
                  & resp3 & ipc & l4 & r4 & b4 & resp4
                  & (Hr8 & Hr1 & Hr2) & _ & _ & _ & _ & -> & ->).
  exists body, ri, keyBuf, a, ipc.
  split; [now repeat split|].
  split; [reflexivity|]. split; [reflexivity|].
  cbv zeta. cbn [net_out rand net_closed].
  split; [reflexivity|].
  split; [rewrite length_firstn; lia|].
  split; [rewrite length_firstn; lia|].
  now split.
Qed.

Lemma Join_transcript_witness :
  exists g w',
    Join test_env (B "token")
      (world_of (Server.handshake Toy.gcm (B "serverhello") test_challenge 5))
    = (Ok g, w')
    /\ length (net_out w') = 3%nat
    /\ net_closed w' = false.
Proof.
  assert (H : exists g w',
             Join test_env (B "token")
               (world_of (Server.handshake Toy.gcm (B "serverhello")
                            test_challenge 5))
             = (Ok g, w')).
  { eexists _, _. vm_compute. reflexivity. }
  destruct H as (g & w' & H).
  destruct (Join_transcript _ _ _ _ _ H)
    as (body & ri & keyBuf & a & ipc & _ & _ & _ & Ho & _ & _ & _ & Hc).
  exists g, w'. split; [exact H|].
  split; [now rewrite Ho|exact Hc].
Defined.
